(** * A concurrent directory tree: the node monitor and the four tree
    operations of [Tree.c], embedded over an explicit heap of nodes.

    Layout of the development:
    - [PathUtils]: C strings and the path helpers [Tree.c] calls;
    - [Monitor]: the per-node reader/writer protocol as atomic segments of
      the critical sections, and the interleavings of a pool of threads;
    - [Heap]: nodes, the store, and the state-and-failure monad;
    - [TreeOps]: [tree_list], [find_node], [tree_create], [tree_remove],
      [move_dfs], [source_dfs], [target_dfs], [tree_move];
    - [Shape]: paths in the store, trees at rest, held nodes, and the
      stores and results the operations are specified by;
    - [Examples]: small trees;
    - [Accounting], [Discipline], [Reach]: what the counters count, the
      nodes a thread holds, and subtrees and stores without garbage;
    - [MoreExamples]: more small states;
    - the properties: the monitor, paths, the walks, each operation on a
      tree at rest, whole subtrees, sequential runs, the operations on a
      tree in use, and the runs on the small trees. *)

From Stdlib Require Import ZArith NArith Ascii.
From stdpp Require Import gmap strings list fin_maps.

Local Open Scope stdpp_scope.

(* [set_solver] clears hypotheses by name as it goes. *)
#[local] Set Warnings "-clear-no-such-hyp".

(** ** C strings and path helpers *)

Module PathUtils.

Definition is_slash (c : ascii) : bool := Ascii.eqb c "/"%char.

(** The reference alphabet of folder names: lowercase letters. *)
Definition is_permitted (c : ascii) : bool :=
  let n := nat_of_ascii c in (97 <=? n) && (n <=? 122).

(** No slash in a name. *)
Fixpoint no_slash (s : string) : bool :=
  match s with
  | EmptyString => true
  | String c s' => negb (is_slash c) && no_slash s'
  end.

(** [strlen]. *)
Definition strlen (s : string) : nat := String.length s.

(** [strncmp(s, t, n) == 0]: the first [n] characters agree, a common end of
    both strings before that counting as agreement. *)
Fixpoint strncmp_eq (s t : string) (n : nat) : bool :=
  match n with
  | O => true
  | S n' =>
      match s, t with
      | EmptyString, EmptyString => true
      | String a s', String b t' => Ascii.eqb a b && strncmp_eq s' t' n'
      | _, _ => false
      end
  end.

(** [is_root] of utils.c: [strcmp(path, "/") == 0]. *)
Definition is_root (path : string) : bool := String.eqb path "/".

(** The characters before the first slash of [s], and the suffix of [s] that
    starts at that slash. *)
Fixpoint until_slash (s : string) : option (string * string) :=
  match s with
  | EmptyString => None
  | String c s' =>
      if is_slash c then Some (EmptyString, s)
      else match until_slash s' with
           | Some (name, rest) => Some (String c name, rest)
           | None => None
           end
  end.

(** Modelled from the spec: [split_path] of path_utils, which is not among
    the sources. It consumes the first component after the leading slash and
    returns it with the remaining suffix path, which still begins with a
    slash; it returns none when the path is the root path. *)
Definition split_path (path : string) : option (string * string) :=
  match path with
  | EmptyString => None
  | String _ s' => until_slash s'
  end.

(** The path [/c1/c2/.../ck/] of the components [c1 .. ck]. *)
Fixpoint render_tail (cs : list string) : string :=
  match cs with
  | [] => EmptyString
  | c :: cs' => c +:+ String "/"%char (render_tail cs')
  end.

Definition render (cs : list string) : string :=
  String "/"%char (render_tail cs).

(** The components of a path, read character by character; [cur] is the
    part of the current component already read. *)
Fixpoint scan_names (cur : string) (s : string) : list string :=
  match s with
  | EmptyString => []
  | String c s' =>
      if is_slash c then cur :: scan_names EmptyString s'
      else scan_names (cur +:+ String c EmptyString) s'
  end.

Definition components (path : string) : list string :=
  match path with
  | EmptyString => []
  | String _ s' => scan_names EmptyString s'
  end.

(** Modelled from the spec: [count_slashes] of path_utils, which is not
    among the sources: the number of slash characters of the path. *)
Fixpoint count_slashes (path : string) : N :=
  match path with
  | EmptyString => 0%N
  | String c s' => ((if is_slash c then 1 else 0) + count_slashes s')%N
  end.

(** The longest common prefix of two lists of components. *)
Fixpoint shared_prefix (xs ys : list string) : list string :=
  match xs, ys with
  | x :: xs', y :: ys' =>
      if decide (x = y) then x :: shared_prefix xs' ys' else []
  | _, _ => []
  end.

(** Modelled from the spec: [common_files] of path_utils, which is not
    among the sources: the number of shared leading path components plus
    one, so that two root paths give 1. *)
Definition common_files (p q : string) : N :=
  (N.of_nat (length (shared_prefix (components p) (components q))) + 1)%N.

(** Modelled from the spec: [make_path_to_parent] of path_utils, which is
    not among the sources: none for the root path, and for [/a/b/c/] the
    parent path [/a/b/] with the last component [c]. *)
Definition make_path_to_parent (path : string) : option (string * string) :=
  match reverse (components path) with
  | [] => None
  | last :: front => Some (render (reverse front), last)
  end.

Section Validity.

(** Modelled from the spec: the constant [MAX_FOLDER_NAME_LENGTH] of
    path_utils.h, which is not among the sources; its value is left open. *)
Variable MAX_FOLDER_NAME_LENGTH : nat.

(** A folder name: 1 to [MAX_FOLDER_NAME_LENGTH] permitted characters. *)
Fixpoint all_permitted (s : string) : bool :=
  match s with
  | EmptyString => true
  | String c s' => is_permitted c && all_permitted s'
  end.

Definition is_name_valid (s : string) : bool :=
  (1 <=? String.length s) && (String.length s <=? MAX_FOLDER_NAME_LENGTH)
  && all_permitted s.

(** The scan behind [is_path_valid]; [len] is the length of the component
    being read. The text must end right after a slash. *)
Fixpoint valid_scan (len : nat) (s : string) : bool :=
  match s with
  | EmptyString => len =? 0
  | String c s' =>
      if is_slash c
      then (1 <=? len) && (len <=? MAX_FOLDER_NAME_LENGTH) && valid_scan 0 s'
      else is_permitted c && valid_scan (S len) s'
  end.

(** Modelled from the spec: [is_path_valid] of path_utils, which is not
    among the sources: the root path, or a slash followed by one or more
    folder names each closed by a slash. *)
Definition is_path_valid (path : string) : bool :=
  match path with
  | EmptyString => false
  | String c s' => is_slash c && valid_scan 0 s'
  end.

End Validity.

End PathUtils.

(** ** The node monitor: readers, writers and the baton *)

Module Monitor.

Local Open Scope Z_scope.

(** The counters of [struct Tree]. They are C [int]s; signed overflow is
    undefined behaviour in C and would take 2^31 threads inside one node, so
    the counters range over [Z]. *)
Record Sync := mkSync {
  rcount : Z;
  wcount : Z;
  rwait : Z;
  wwait : Z;
  change : Z;
  cwait : bool
}.

#[global] Instance Sync_eq_dec : EqDecision Sync.
Proof. solve_decision. Defined.

(** The three condition variables of a node. *)
Inductive Cond := Readers | Writers | Clear.

(** [tree_new], lines 51 to 54. *)
Definition sync_new : Sync := mkSync 0 0 0 0 0 false.

Definition set_rcount (v : Z) (s : Sync) : Sync :=
  mkSync v (wcount s) (rwait s) (wwait s) (change s) (cwait s).
Definition set_wcount (v : Z) (s : Sync) : Sync :=
  mkSync (rcount s) v (rwait s) (wwait s) (change s) (cwait s).
Definition set_rwait (v : Z) (s : Sync) : Sync :=
  mkSync (rcount s) (wcount s) v (wwait s) (change s) (cwait s).
Definition set_wwait (v : Z) (s : Sync) : Sync :=
  mkSync (rcount s) (wcount s) (rwait s) v (change s) (cwait s).
Definition set_change (v : Z) (s : Sync) : Sync :=
  mkSync (rcount s) (wcount s) (rwait s) (wwait s) v (cwait s).
Definition set_cwait (v : bool) (s : Sync) : Sync :=
  mkSync (rcount s) (wcount s) (rwait s) (wwait s) (change s) v.

(** The condition of the [while] of [reader_entry_protocol], line 86. *)
Definition reader_must_wait (s : Sync) : bool :=
  ((0 <? wcount s) || (0 <? wwait s)) && (change s <=? 0).

(** The condition of the [while] of [writer_entry_protocol], line 118. *)
Definition writer_must_wait (s : Sync) : bool :=
  (0 <? rcount s) || (0 <? wcount s) || (0 <? change s).

(** The condition of the [while] of [tree_remove] (line 268) and of
    [bfs_clear] (line 296). *)
Definition busy (s : Sync) : bool :=
  (0 <? rcount s) || (0 <? wcount s) || (0 <? rwait s) || (0 <? wwait s).

(** Line 87, after which [safe_wait] gives the mutex up. *)
Definition reader_park (s : Sync) : Sync := set_rwait (rwait s + 1) s.

(** Line 89, run when [safe_wait] returns with the mutex. *)
Definition reader_unpark (s : Sync) : Sync := set_rwait (rwait s - 1) s.

(** Lines 92 to 97: the reader goes in; the second component is the
    condition signalled, if any. *)
Definition reader_enter (s : Sync) : Sync * option Cond :=
  let s1 := set_rcount (rcount s + 1) s in
  if 0 <? change s1 then
    let s2 := set_change (change s1 - 1) s1 in
    if 0 <? change s2 then (s2, Some Readers) else (s2, None)
  else (s1, None).

(** [reader_exit_protocol], lines 104 to 111. *)
Definition reader_exit (s : Sync) : Sync * option Cond :=
  let s1 := set_rcount (rcount s - 1) s in
  if (rcount s1 =? 0) && (0 <? wwait s1) then
    (set_change (-1) s1, Some Writers)
  else if cwait s1 then (s1, Some Clear)
  else (s1, None).

(** Lines 119 and 121 of [writer_entry_protocol]. *)
Definition writer_park (s : Sync) : Sync := set_wwait (wwait s + 1) s.
Definition writer_unpark (s : Sync) : Sync := set_wwait (wwait s - 1) s.

(** Lines 123 and 124: the writer goes in. *)
Definition writer_enter (s : Sync) : Sync :=
  set_change 0 (set_wcount (wcount s + 1) s).

(** [writer_exit_protocol], lines 131 to 142. *)
Definition writer_exit (s : Sync) : Sync * option Cond :=
  let s1 := set_wcount (wcount s - 1) s in
  if 0 <? rwait s1 then (set_change (rwait s1) s1, Some Readers)
  else if 0 <? wwait s1 then (set_change (-1) s1, Some Writers)
  else if cwait s1 then (s1, Some Clear)
  else (s1, None).

(** Lines 270 and 272 (298 and 300 in [bfs_clear]). *)
Definition clear_park (s : Sync) : Sync := set_cwait true s.
Definition clear_unpark (s : Sync) : Sync := set_cwait false s.

(** Where a thread stands with respect to one node. *)
Inductive pc :=
  | Out | ParkedReader | Reading | ParkedWriter | Writing | ParkedClear.

#[global] Instance pc_eq_dec : EqDecision pc.
Proof. solve_decision. Defined.

(** One atomic segment of a critical section of the node, run by a thread:
    from taking the mutex (on entry to a protocol, or on return from
    [safe_wait]) to giving it up (at [safe_wait] or [safe_unlock]). A parked
    thread may wake at any time, which covers signals and spurious
    wake-ups alike. *)
Inductive thread_step : Sync → pc → Sync → pc → Prop :=
  | ts_reader_park s :
      reader_must_wait s = true →
      thread_step s Out (reader_park s) ParkedReader
  | ts_reader_enter s :
      reader_must_wait s = false →
      thread_step s Out (reader_enter s).1 Reading
  | ts_reader_wake_park s :
      reader_must_wait (reader_unpark s) = true →
      thread_step s ParkedReader (reader_park (reader_unpark s)) ParkedReader
  | ts_reader_wake_enter s :
      reader_must_wait (reader_unpark s) = false →
      thread_step s ParkedReader (reader_enter (reader_unpark s)).1 Reading
  | ts_reader_exit s :
      thread_step s Reading (reader_exit s).1 Out
  | ts_writer_park s :
      writer_must_wait s = true →
      thread_step s Out (writer_park s) ParkedWriter
  | ts_writer_enter s :
      writer_must_wait s = false →
      thread_step s Out (writer_enter s) Writing
  | ts_writer_wake_park s :
      writer_must_wait (writer_unpark s) = true →
      thread_step s ParkedWriter (writer_park (writer_unpark s)) ParkedWriter
  | ts_writer_wake_enter s :
      writer_must_wait (writer_unpark s) = false →
      thread_step s ParkedWriter (writer_enter (writer_unpark s)) Writing
  | ts_writer_exit s :
      thread_step s Writing (writer_exit s).1 Out
  | ts_clear_park s :
      busy s = true →
      thread_step s Out (clear_park s) ParkedClear
  | ts_clear_pass s :
      busy s = false →
      thread_step s Out s Out
  | ts_clear_wake_park s :
      busy (clear_unpark s) = true →
      thread_step s ParkedClear (clear_park (clear_unpark s)) ParkedClear
  | ts_clear_wake_pass s :
      busy (clear_unpark s) = false →
      thread_step s ParkedClear (clear_unpark s) Out.

(** A node with the threads that use it. *)
Record config := mkConfig { sync_of : Sync; pool : list pc }.

Inductive step : config → config → Prop :=
  | step_thread s s' x y l1 l2 :
      thread_step s x s' y →
      step (mkConfig s (l1 ++ x :: l2)) (mkConfig s' (l1 ++ y :: l2)).

(** A fresh node, with any number of threads outside it. *)
Definition initial (n : nat) : config := mkConfig sync_new (replicate n Out).

Inductive reachable : config → Prop :=
  | reach_initial n : reachable (initial n)
  | reach_step c c' : reachable c → step c c' → reachable c'.

(** The number of threads of the pool that stand at [p]. *)
Fixpoint tally (p : pc) (l : list pc) : Z :=
  match l with
  | [] => 0
  | x :: l' => (if decide (x = p) then 1 else 0) + tally p l'
  end.

(** The exclusion property of the node. *)
Definition exclusion (s : Sync) : Prop :=
  (wcount s = 0 ∨ wcount s = 1) ∧ (wcount s = 1 → rcount s = 0).

(** What the counters count, with the exclusion it gives. *)
Definition consistent (c : config) : Prop :=
  rcount (sync_of c) = tally Reading (pool c) ∧
  wcount (sync_of c) = tally Writing (pool c) ∧
  (wcount (sync_of c) = 0 ∨ wcount (sync_of c) = 1) ∧
  (wcount (sync_of c) = 1 → rcount (sync_of c) = 0) ∧
  (0 < change (sync_of c) → wcount (sync_of c) = 0).

End Monitor.

(** ** Nodes, the store, and the monad of the sequential runs *)

Module Heap.

Import Monitor.

(** A [Tree*]: the address of a node. *)
Abbreviation addr := nat.

(** [struct Tree]: the map from folder names to children and the counters
    of the monitor. The mutex and the condition variables carry no data. *)
Record Tree := mkTree {
  map : gmap string addr;
  sync : Sync
}.

(** A call of one of the four protocols on a node, as it returns. *)
Inductive event :=
  | EvReaderEntry (a : addr)
  | EvReaderExit (a : addr)
  | EvWriterEntry (a : addr)
  | EvWriterExit (a : addr).

#[global] Instance event_eq_dec : EqDecision event.
Proof. solve_decision. Defined.

(** The store of allocated nodes, and the log of protocol calls made so
    far (a ghost field: the code does not read it). *)
Record state := mkState {
  heap : gmap addr Tree;
  trace : list event
}.

(** Why a sequential run does not return: it waits on a condition that no
    other thread will signal, it follows a pointer to no node, or the model
    ran out of steps. *)
Inductive failure := Blocked | Fault | NoFuel.

Inductive result (A : Type) :=
  | Ret (a : A) (st : state)
  | Fail (f : failure).
Arguments Ret {A} a st.
Arguments Fail {A} f.

Definition M (A : Type) : Type := state → result A.

#[global] Instance M_ret : MRet M := λ A a st, Ret a st.
#[global] Instance M_bind : MBind M := λ A B f m st,
  match m st with
  | Ret a st' => f a st'
  | Fail e => Fail e
  end.

Definition fail {A} (f : failure) : M A := λ _, Fail f.

Definition get_node (a : addr) : M Tree := λ st,
  match heap st !! a with
  | Some n => Ret n st
  | None => Fail Fault
  end.

Definition put_node (a : addr) (n : Tree) : M unit := λ st,
  Ret () (mkState (<[a := n]> (heap st)) (trace st)).

(** [free] of a node. *)
Definition free_node (a : addr) : M unit := λ st,
  match heap st !! a with
  | Some _ => Ret () (mkState (delete a (heap st)) (trace st))
  | None => Fail Fault
  end.

Definition emit (e : event) : M unit := λ st,
  Ret () (mkState (heap st) (trace st ++ [e])).

Definition heap_size : M nat := λ st, Ret (size (heap st)) st.

Fixpoint for_each {A} (f : A → M unit) (l : list A) : M unit :=
  match l with
  | [] => mret ()
  | x :: l' => f x ;; for_each f l'
  end.

(** The values of [<errno.h>] on Linux. *)
Definition ENOENT : Z := 2.
Definition EBUSY : Z := 16.
Definition EEXIST : Z := 17.
Definition EINVAL : Z := 22.
Definition ENOTEMPTY : Z := 39.

(** [size_t]: the operands below count characters of a string held in
    memory, so they are under 2^64, and only a borrow wraps. *)
Definition SIZE_MAX : N := 18446744073709551615.

Definition size_sub (a b : N) : N :=
  if (b <=? a)%N then (a - b)%N else (a + (SIZE_MAX + 1) - b)%N.

Definition size_pred (a : N) : N := size_sub a 1.

(** The map of a node: [hmap_get], [hmap_insert], [hmap_remove],
    [hmap_size] on [tree->map]. *)
Definition hmap_get (tree : addr) (key : string) : M (option addr) :=
  n ← get_node tree; mret (map n !! key).

Definition hmap_insert (tree : addr) (key : string) (value : addr) : M unit :=
  n ← get_node tree;
  put_node tree (mkTree (<[key := value]> (map n)) (sync n)).

Definition hmap_remove (tree : addr) (key : string) : M unit :=
  n ← get_node tree; put_node tree (mkTree (delete key (map n)) (sync n)).

Definition hmap_size (tree : addr) : M nat :=
  n ← get_node tree; mret (size (map n)).

Fixpoint join_commas (l : list string) : string :=
  match l with
  | [] => EmptyString
  | [x] => x
  | x :: l' => x +:+ String ","%char (join_commas l')
  end.

(** Modelled from the spec: [make_map_contents_string] of path_utils, which
    is not among the sources: the keys joined by commas in a fixed order,
    the empty string for an empty map. *)
Definition make_map_contents_string (m : gmap string addr) : string :=
  join_commas (map_to_list m).*1.

Fixpoint no_comma (s : string) : bool :=
  match s with
  | EmptyString => true
  | String c s' => negb (Ascii.eqb c ","%char) && no_comma s'
  end.

(** The entries of a string of names joined by commas. *)
Fixpoint entries_go (cur : string) (s : string) : list string :=
  match s with
  | EmptyString => [cur]
  | String c s' =>
      if Ascii.eqb c ","%char then cur :: entries_go EmptyString s'
      else entries_go (cur +:+ String c EmptyString) s'
  end.

Definition entries (s : string) : list string :=
  match s with
  | EmptyString => []
  | _ => entries_go EmptyString s
  end.

(** [tree_new], lines 45 to 62. [safe_malloc] returns an address that is
    not in use. *)
Definition tree_new : M addr := λ st,
  let tree := fresh (dom (heap st)) in
  Ret tree (mkState (<[tree := mkTree ∅ sync_new]> (heap st)) (trace st)).

(** [tree_free], lines 66 to 81. *)
Fixpoint tree_free (fuel : nat) (tree : addr) : M unit :=
  match fuel with
  | O => fail NoFuel
  | S fuel' =>
      n ← get_node tree;
      for_each (λ kv, tree_free fuel' kv.2) (map_to_list (map n)) ;;
      free_node tree
  end.

(** [reader_entry_protocol], lines 84 to 99. In a sequential run a thread
    that has to wait waits for ever. *)
Definition reader_entry_protocol (tree : addr) : M unit :=
  n ← get_node tree;
  if reader_must_wait (sync n) then fail Blocked
  else put_node tree (mkTree (map n) (reader_enter (sync n)).1) ;;
       emit (EvReaderEntry tree).

(** [reader_exit_protocol], lines 102 to 113. *)
Definition reader_exit_protocol (tree : addr) : M unit :=
  n ← get_node tree;
  put_node tree (mkTree (map n) (reader_exit (sync n)).1) ;;
  emit (EvReaderExit tree).

(** [writer_entry_protocol], lines 116 to 126. *)
Definition writer_entry_protocol (tree : addr) : M unit :=
  n ← get_node tree;
  if writer_must_wait (sync n) then fail Blocked
  else put_node tree (mkTree (map n) (writer_enter (sync n))) ;;
       emit (EvWriterEntry tree).

(** [writer_exit_protocol], lines 129 to 144. *)
Definition writer_exit_protocol (tree : addr) : M unit :=
  n ← get_node tree;
  put_node tree (mkTree (map n) (writer_exit (sync n)).1) ;;
  emit (EvWriterExit tree).

(** The wait for quiescence under the mutex of a node: lines 267 to 273 of
    [tree_remove] and 295 to 301 of [bfs_clear]. *)
Definition wait_clear (tree : addr) : M unit :=
  n ← get_node tree;
  if busy (sync n) then fail Blocked else mret ().

(** [bfs_clear], lines 294 to 310. *)
Fixpoint bfs_clear (fuel : nat) (tree : addr) : M unit :=
  match fuel with
  | O => fail NoFuel
  | S fuel' =>
      wait_clear tree ;;
      n ← get_node tree;
      for_each (λ kv, bfs_clear fuel' kv.2) (map_to_list (map n))
  end.

End Heap.

(** ** The tree operations of [Tree.c] *)

Module TreeOps.

Import PathUtils Monitor Heap.

Local Open Scope Z_scope.

(** The loop of [find_node], lines 191 to 207; the pointer the caller gets
    back is null when a component is missing. *)
Fixpoint find_node_loop (fuel : nat) (tree : addr) (path : string)
    (to_grandparent : N) : M (Z * option addr) :=
  match fuel with
  | O => fail NoFuel
  | S fuel' =>
      match split_path path with
      | None => mret (0, Some tree)
      | Some (component, path') =>
          let old_tree := tree in
          next ← hmap_get old_tree component;
          match next with
          | None => reader_exit_protocol old_tree ;; mret (ENOENT, None)
          | Some tree' =>
              let to_grandparent' := size_pred to_grandparent in
              (if (to_grandparent' =? 0)%N then writer_entry_protocol tree'
               else reader_entry_protocol tree') ;;
              reader_exit_protocol old_tree ;;
              find_node_loop fuel' tree' path' to_grandparent'
          end
      end
  end.

(** [find_node], lines 185 to 209. *)
Definition find_node (tree : addr) (path : string) (to_grandparent : N)
    : M (Z * option addr) :=
  (if (to_grandparent =? 0)%N then writer_entry_protocol tree
   else reader_entry_protocol tree) ;;
  find_node_loop (S (String.length path)) tree path to_grandparent.

(** The loop of [tree_list], lines 155 to 178. *)
Fixpoint tree_list_loop (fuel : nat) (tree : addr) (path : string)
    : M (option string) :=
  match fuel with
  | O => fail NoFuel
  | S fuel' =>
      match split_path path with
      | Some (component, path') =>
          next ← hmap_get tree component;
          match next with
          | None => reader_exit_protocol tree ;; mret None
          | Some new_tree =>
              reader_entry_protocol new_tree ;;
              reader_exit_protocol tree ;;
              tree_list_loop fuel' new_tree path'
          end
      | None =>
          n ← get_node tree;
          let res := make_map_contents_string (map n) in
          reader_exit_protocol tree ;;
          mret (Some res)
      end
  end.

(** The loop of [move_dfs], lines 318 to 339. *)
Fixpoint move_dfs_loop (fuel : nat) (tree : addr) (path : string)
    (to_grandparent : N) (in_lca : bool) : M (Z * option addr) :=
  match fuel with
  | O => fail NoFuel
  | S fuel' =>
      match split_path path with
      | None => mret (0, Some tree)
      | Some (component, path') =>
          let old_tree := tree in
          next ← hmap_get old_tree component;
          match next with
          | None =>
              (if negb in_lca then reader_exit_protocol old_tree
               else mret ()) ;;
              mret (ENOENT, None)
          | Some tree' =>
              let to_grandparent' := size_pred to_grandparent in
              (if (to_grandparent' =? 0)%N then writer_entry_protocol tree'
               else reader_entry_protocol tree') ;;
              (if in_lca then mret ()
               else reader_exit_protocol old_tree) ;;
              move_dfs_loop fuel' tree' path' to_grandparent' false
          end
      end
  end.

(** [move_dfs], lines 314 to 341. A null path cannot be split. *)
Definition move_dfs (tree : addr) (path : option string)
    (to_grandparent : N) : M (Z * option addr) :=
  match path with
  | None => fail Fault
  | Some p => move_dfs_loop (S (String.length p)) tree p to_grandparent true
  end.

(** [source_dfs], lines 345 to 379. *)
Definition source_dfs (lca_tree target_tree : addr) (source : option string)
    (source_child target_child : string) (to_grandparent : N) : M Z :=
  '(err, found) ← move_dfs lca_tree source to_grandparent;
  if decide (err ≠ 0) then
    (if decide (lca_tree ≠ target_tree) then writer_exit_protocol target_tree
     else mret ()) ;;
    writer_exit_protocol lca_tree ;;
    mret err
  else
    match found with
    | None => fail Fault
    | Some source_tree =>
        to_be_moved ← hmap_get source_tree source_child;
        match to_be_moved with
        | None =>
            (if decide (source_tree ≠ lca_tree)
             then writer_exit_protocol source_tree else mret ()) ;;
            (if decide (target_tree ≠ lca_tree)
             then writer_exit_protocol target_tree else mret ()) ;;
            writer_exit_protocol lca_tree ;;
            mret ENOENT
        | Some to_be_moved =>
            (if decide (lca_tree ≠ source_tree ∧ lca_tree ≠ target_tree)
             then writer_exit_protocol lca_tree else mret ()) ;;
            fuel ← heap_size;
            bfs_clear fuel to_be_moved ;;
            hmap_remove source_tree source_child ;;
            hmap_insert target_tree target_child to_be_moved ;;
            (if decide (source_tree ≠ target_tree)
             then writer_exit_protocol source_tree else mret ()) ;;
            writer_exit_protocol target_tree ;;
            mret err
        end
    end.

(** [target_dfs], lines 383 to 406. *)
Definition target_dfs (lca_tree : addr) (target : option string)
    (target_child : string) (source : option string) (source_child : string)
    (to_grandparent to_grandparent_source : N) : M Z :=
  '(err, found) ← move_dfs lca_tree target to_grandparent;
  if decide (err ≠ 0) then
    writer_exit_protocol lca_tree ;;
    mret err
  else
    match found with
    | None => fail Fault
    | Some target_tree =>
        present ← hmap_get target_tree target_child;
        match present with
        | Some _ =>
            (if decide (target_tree ≠ lca_tree)
             then writer_exit_protocol target_tree else mret ()) ;;
            writer_exit_protocol lca_tree ;;
            mret EEXIST
        | None =>
            source_dfs lca_tree target_tree source source_child target_child
              to_grandparent_source
        end
    end.

(** [split_path] through a pointer that may be null. *)
Definition split_ptr (path : option string) : M (option (string * string)) :=
  match path with
  | None => fail Fault
  | Some p => mret (split_path p)
  end.

(** The loop of [tree_move], lines 443 to 462. Both paths are split into
    one buffer, which holds the component written last. The result is
    [err], the two path pointers and [target_tree]. *)
Fixpoint shared_loop (fuel : nat) (common : N)
    (source target : option string) (source_tree target_tree : addr)
    : M (Z * option string * option string * addr) :=
  match fuel with
  | O => fail NoFuel
  | S fuel' =>
      if (0 <? common)%N then
        s ← split_ptr source;
        t ← split_ptr target;
        match s with
        | None => mret (0, None, snd <$> t, target_tree)
        | Some (source_component, source') =>
            let component :=
              match t with
              | Some (target_component, _) => target_component
              | None => source_component
              end in
            let old_tree := source_tree in
            next ← hmap_get source_tree component;
            match next with
            | None =>
                reader_exit_protocol old_tree ;;
                mret (ENOENT, Some source', snd <$> t, target_tree)
            | Some tree' =>
                let common' := size_pred common in
                (if (common' =? 0)%N then writer_entry_protocol tree'
                 else reader_entry_protocol tree') ;;
                reader_exit_protocol old_tree ;;
                shared_loop fuel' common' (Some source') (snd <$> t)
                  tree' tree'
            end
        end
      else mret (0, source, target, target_tree)
  end.

Section WithLimit.

Variable MAX_FOLDER_NAME_LENGTH : nat.

Local Abbreviation is_path_valid := (is_path_valid MAX_FOLDER_NAME_LENGTH).

(** [tree_list], lines 148 to 180; the result is null or a string. *)
Definition tree_list (tree : addr) (path : string) : M (option string) :=
  if negb (is_path_valid path) then mret None
  else
    reader_entry_protocol tree ;;
    tree_list_loop (S (String.length path)) tree path.

(** [tree_create], lines 213 to 241. *)
Definition tree_create (tree : addr) (path : string) : M Z :=
  if negb (is_path_valid path) then mret EINVAL
  else if is_root path then mret EEXIST
  else
    match make_path_to_parent path with
    | None => fail Fault
    | Some (parent_path, child_name) =>
        '(err, found) ← find_node tree parent_path
                          (size_sub (count_slashes parent_path) 1);
        if decide (err ≠ 0) then mret err
        else
          match found with
          | None => fail Fault
          | Some tree =>
              present ← hmap_get tree child_name;
              err ← match present with
                    | Some _ => mret EEXIST
                    | None =>
                        son ← tree_new;
                        hmap_insert tree child_name son ;;
                        mret err
                    end;
              writer_exit_protocol tree ;;
              mret err
          end
    end.

(** [tree_remove], lines 245 to 290. *)
Definition tree_remove (tree : addr) (path : string) : M Z :=
  if negb (is_path_valid path) then mret EINVAL
  else if is_root path then mret EBUSY
  else
    match make_path_to_parent path with
    | None => fail Fault
    | Some (parent_path, child_name) =>
        '(err, found) ← find_node tree parent_path
                          (size_sub (count_slashes parent_path) 1);
        if decide (err ≠ 0) then mret err
        else
          match found with
          | None => fail Fault
          | Some tree =>
              son ← hmap_get tree child_name;
              '(err, son_destroy) ←
                match son with
                | None => mret (ENOENT, false)
                | Some son =>
                    wait_clear son ;;
                    sz ← hmap_size son;
                    if decide (sz ≠ 0%nat) then mret (ENOTEMPTY, false)
                    else mret (err, true)
                end;
              (if son_destroy : bool then
                 match son with
                 | None => fail Fault
                 | Some son =>
                     hmap_remove tree child_name ;;
                     fuel ← heap_size;
                     tree_free fuel son
                 end
               else mret ()) ;;
              writer_exit_protocol tree ;;
              mret err
          end
    end.

(** [tree_move], lines 410 to 476. *)
Definition tree_move (tree : addr) (source target : string) : M Z :=
  if negb (is_path_valid source) || negb (is_path_valid target)
  then mret EINVAL
  else if is_root source then mret EBUSY
  else if is_root target then mret EEXIST
  else
    let size := strlen source in
    if (size <? strlen target)%nat && strncmp_eq source target size
    then mret (-1)
    else
      match make_path_to_parent source, make_path_to_parent target with
      | Some (source_parent_path, source_child_name),
        Some (target_parent_path, target_child_name) =>
          let common :=
            size_sub (common_files source_parent_path target_parent_path) 1 in
          let source_size :=
            size_sub (size_sub (count_slashes source_parent_path) 1) common in
          let target_size :=
            size_sub (size_sub (count_slashes target_parent_path) 1) common in
          (if (common =? 0)%N then writer_entry_protocol tree
           else reader_entry_protocol tree) ;;
          '(err, source, target, target_tree) ←
            shared_loop (S (String.length source_parent_path)) common
              (Some source_parent_path) (Some target_parent_path) tree tree;
          if decide (err ≠ 0) then mret err
          else
            target_dfs target_tree target target_child_name source
              source_child_name target_size source_size
      | _, _ => fail Fault
      end.

End WithLimit.

End TreeOps.

(** ** The shape of the store *)

Module Shape.

Import PathUtils Monitor Heap TreeOps.

(** The node reached from [a] along the components [cs]. *)
Fixpoint resolve (h : gmap addr Tree) (a : addr) (cs : list string)
    : option addr :=
  match cs with
  | [] => Some a
  | c :: cs' =>
      match h !! a ≫= λ n, map n !! c with
      | Some b => resolve h b cs'
      | None => None
      end
  end.

(** The node at which the walk from [a] along [cs] ends: the node reached,
    or the one whose map lacks the next component. *)
Fixpoint deepest (h : gmap addr Tree) (a : addr) (cs : list string) : addr :=
  match cs with
  | [] => a
  | c :: cs' =>
      match h !! a ≫= λ n, map n !! c with
      | Some b => deepest h b cs'
      | None => a
      end
  end.

(** What [tree_list] returns for the path [cs] from the node [a]. *)
Definition listing (h : gmap addr Tree) (a : addr) (cs : list string)
    : option string :=
  resolve h a cs ≫= λ b,
  h !! b ≫= λ n, Some (make_map_contents_string (map n)).

(** [b] is the child of [a] under the name [c]. *)
Definition edge (h : gmap addr Tree) (a : addr) (c : string) (b : addr)
    : Prop :=
  ∃ n, h !! a = Some n ∧ map n !! c = Some b.

(** A node held by one reader, by one writer, and a node at rest. *)
Definition rlocked : Sync := mkSync 1 0 0 0 0 false.
Definition wlocked : Sync := mkSync 0 1 0 0 0 false.

(** The store with the counters of the node at [a] replaced. *)
Definition lock (s : Sync) (a : addr) (h : gmap addr Tree) : gmap addr Tree :=
  alter (λ n, mkTree (map n) s) a h.

(** The store with the nodes of [X] held by one writer each. *)
Definition lock_set (X : gset addr) (h : gmap addr Tree) : gmap addr Tree :=
  map_imap (λ a n,
    Some (if decide (a ∈ X) then mkTree (map n) wlocked else n)) h.

(** The store with the child [x] put under the name [c] in the node at [b],
    and with the name [c] taken out of it. *)
Definition link (c : string) (x : addr) (b : addr) (h : gmap addr Tree)
    : gmap addr Tree :=
  alter (λ n, mkTree (<[c := x]> (map n)) (sync n)) b h.

Definition unlink (c : string) (b : addr) (h : gmap addr Tree)
    : gmap addr Tree :=
  alter (λ n, mkTree (delete c (map n)) (sync n)) b h.

(** The stores that [tree_create], [tree_remove] and [tree_move] leave when
    they succeed: a fresh empty node under [c] in [b]; the node [son]
    freed and its name [c] gone from [b]; the node under [s] in [src] put
    under [t] in [dst]. *)
Definition created (h : gmap addr Tree) (b : addr) (c : string)
    : gmap addr Tree :=
  let son := fresh (dom h) in
  link c son b (<[son := mkTree ∅ sync_new]> h).

Definition removed (h : gmap addr Tree) (b : addr) (c : string) (son : addr)
    : gmap addr Tree :=
  delete son (unlink c b h).

Definition moved (h : gmap addr Tree) (src : addr) (s : string)
    (dst : addr) (t : string) (m : addr) : gmap addr Tree :=
  link t m dst (unlink s src h).

(** The results of [tree_create] and [tree_remove] for the child [c] of
    the node at the path [cs]: the error code and the store. *)
Definition create_outcome (h : gmap addr Tree) (root : addr)
    (cs : list string) (c : string) : Z * gmap addr Tree :=
  match resolve h root cs with
  | None => (ENOENT, h)
  | Some b =>
      match h !! b ≫= λ n, map n !! c with
      | Some _ => (EEXIST, h)
      | None => (0%Z, created h b c)
      end
  end.

Definition remove_outcome (h : gmap addr Tree) (root : addr)
    (cs : list string) (c : string) : Z * gmap addr Tree :=
  match resolve h root cs with
  | None => (ENOENT, h)
  | Some b =>
      match h !! b ≫= λ n, map n !! c with
      | None => (ENOENT, h)
      | Some son =>
          match h !! son with
          | Some ns =>
              if decide (size (map ns) ≠ 0)
              then (ENOTEMPTY, h) else (0%Z, removed h b c son)
          | None => (ENOENT, h)
          end
      end
  end.

(** The result of [tree_move] for the child [sc] of the node at the path
    [sp] and the name [tc] in the node at the path [tp]: the error code and
    the store. *)
Definition move_outcome (h : gmap addr Tree) (root : addr)
    (sp : list string) (sc : string) (tp : list string) (tc : string)
    : Z * gmap addr Tree :=
  match resolve h root tp with
  | None => (ENOENT, h)
  | Some dst =>
      match h !! dst ≫= λ n, map n !! tc with
      | Some _ => (EEXIST, h)
      | None =>
          match resolve h root sp with
          | None => (ENOENT, h)
          | Some src =>
              match h !! src ≫= λ n, map n !! sc with
              | None => (ENOENT, h)
              | Some m => (0%Z, moved h src sc dst tc m)
              end
          end
      end
  end.

(** The test of lines 418 and 419 on two paths. *)
Definition is_ancestor (source target : string) : bool :=
  (strlen source <? strlen target)%nat
  && strncmp_eq source target (strlen source).

(** Two branches that part at their first components, if both have one. *)
Definition diverge (xs ys : list string) : Prop :=
  match xs, ys with
  | x :: _, y :: _ => x ≠ y
  | _, _ => True
  end.

(** The nodes a walk from [a] along [cs] visits. *)
Fixpoint trail (h : gmap addr Tree) (a : addr) (cs : list string)
    : list addr :=
  a :: match cs with
       | [] => []
       | c :: cs' =>
           match h !! a ≫= λ n, map n !! c with
           | Some b => trail h b cs'
           | None => []
           end
       end.

(** No thread is in any node or waits for one. *)
Definition quiescent (h : gmap addr Tree) : Prop :=
  map_Forall (λ _ n, sync n = sync_new) h.

(** Every child is an allocated node. *)
Definition closed (h : gmap addr Tree) : Prop :=
  map_Forall (λ _ n, map_Forall (λ _ b, is_Some (h !! b)) (map n)) h.

(** No node is the child of two nodes or under two names, and the root is
    the child of none: the store is a forest, and the nodes under [root]
    form a tree. *)
Definition tree_shaped (h : gmap addr Tree) (root : addr) : Prop :=
  map_Forall (λ a1 n1,
    map_Forall (λ c1 b1,
      b1 ≠ root ∧
      map_Forall (λ a2 n2,
        map_Forall (λ c2 b2, b1 = b2 → a1 = a2 ∧ c1 = c2) (map n2)) h)
      (map n1)) h.

(** The stores the sequential theorems are about: a tree of nodes at rest
    with its root allocated. *)
Definition wf (h : gmap addr Tree) (root : addr) : Prop :=
  is_Some (h !! root) ∧ quiescent h ∧ closed h ∧ tree_shaped h root.

#[global] Instance wf_dec h root : Decision (wf h root).
Proof. unfold wf, quiescent, closed, tree_shaped. apply _. Defined.

(** All folder names in the store are valid names. *)
Definition names_ok (max : nat) (h : gmap addr Tree) : Prop :=
  map_Forall (λ _ n,
    map_Forall (λ c _, is_name_valid max c = true) (map n)) h.

#[global] Instance names_ok_dec max h : Decision (names_ok max h).
Proof. unfold names_ok. apply _. Defined.

(** The lock taken on the node the walk reaches after the components
    [cs] that remain: the last node is taken as a writer. *)
Definition mode (cs : list string) : Sync :=
  match cs with [] => wlocked | _ => rlocked end.

Definition entry_event (cs : list string) (a : addr) : event :=
  match cs with [] => EvWriterEntry a | _ => EvReaderEntry a end.

(** The protocol calls of a hand-over-hand walk from [a], which is held,
    along [cs]. *)
Fixpoint descent_events (h : gmap addr Tree) (a : addr) (cs : list string)
    : list event :=
  match cs with
  | [] => []
  | c :: cs' =>
      match h !! a ≫= λ n, map n !! c with
      | Some b =>
          entry_event cs' b :: EvReaderExit a :: descent_events h b cs'
      | None => [EvReaderExit a]
      end
  end.

(** The same for a walk that takes reader locks only. *)
Fixpoint reader_events (h : gmap addr Tree) (a : addr) (cs : list string)
    : list event :=
  match cs with
  | [] => [EvReaderExit a]
  | c :: cs' =>
      match h !! a ≫= λ n, map n !! c with
      | Some b =>
          EvReaderEntry b :: EvReaderExit a :: reader_events h b cs'
      | None => [EvReaderExit a]
      end
  end.

(** The nodes below [a] along [cs] are allocated, at rest, and each differs
    from its parent. *)
Fixpoint clear_path (h : gmap addr Tree) (a : addr) (cs : list string)
    : Prop :=
  match cs with
  | [] => True
  | c :: cs' =>
      match h !! a ≫= λ n, map n !! c with
      | Some b =>
          b ≠ a ∧ (∃ n, h !! b = Some n ∧ sync n = sync_new) ∧
          clear_path h b cs'
      | None => True
      end
  end.

(** The store and the protocol calls of [move_dfs] from the node [lca],
    which the caller holds and the walk leaves alone: the node the branch
    [cs] names is taken as a writer unless it is [lca] itself. *)
Definition branch_lock (cs : list string) (b : addr) (h : gmap addr Tree)
    : gmap addr Tree :=
  match cs with [] => h | _ => lock wlocked b h end.

Definition branch_events (h : gmap addr Tree) (lca : addr)
    (cs : list string) : list event :=
  match cs with
  | [] => []
  | c :: cs' =>
      match h !! lca ≫= λ n, map n !! c with
      | Some b => entry_event cs' b :: descent_events h b cs'
      | None => []
      end
  end.

Definition is_writer_exit (e : event) : bool :=
  match e with EvWriterExit _ => true | _ => false end.

(** The protocol calls [evs] of a walk end with the reader exit of the node
    [a] and have no writer exit among them. *)
Definition released_as_reader (a : addr) (evs : list event) : Prop :=
  last evs = Some (EvReaderExit a) ∧
  Forall (λ e, is_writer_exit e = false) evs.

(** The states a sequential program reaches: [tree_new], then calls of the
    four operations that return. [max] is [MAX_FOLDER_NAME_LENGTH]. *)
Inductive sequential (max : nat) (root : addr) : state → Prop :=
  | seq_new st :
      tree_new (mkState ∅ []) = Ret root st → sequential max root st
  | seq_list st p res st' :
      sequential max root st →
      tree_list max root p st = Ret res st' → sequential max root st'
  | seq_create st p err st' :
      sequential max root st →
      tree_create max root p st = Ret err st' → sequential max root st'
  | seq_remove st p err st' :
      sequential max root st →
      tree_remove max root p st = Ret err st' → sequential max root st'
  | seq_move st source target err st' :
      sequential max root st →
      tree_move max root source target st = Ret err st' →
      sequential max root st'.

End Shape.

(** ** Small trees to run the operations on *)

Module Examples.

Import PathUtils Monitor Heap TreeOps Shape.

(** The value of [MAX_FOLDER_NAME_LENGTH] the runs below use. *)
Definition limit : nat := 255.

Definition leaf : Tree := mkTree ∅ sync_new.

(** A tree with the root only, at the address 0. *)
Definition h_root : gmap addr Tree := {[ 0 := leaf ]}.

(** The tree with the folders [/a/] and [/a/b/]. *)
Definition h_ab : gmap addr Tree :=
  {[ 0 := mkTree {[ "a" := 1 ]} sync_new;
     1 := mkTree {[ "b" := 2 ]} sync_new;
     2 := leaf ]}.

(** The tree with the folders [/x/] and [/y/]. *)
Definition h_xy : gmap addr Tree :=
  {[ 0 := mkTree {[ "x" := 1; "y" := 2 ]} sync_new;
     1 := leaf;
     2 := leaf ]}.

(** The state a run ends in. *)
Definition final {A} (r : result A) : state :=
  match r with
  | Ret _ st => st
  | Fail _ => mkState ∅ []
  end.

(** The state after [/x/] is moved to [/y/x/] in [h_xy]. *)
Definition st_moved : state :=
  final (tree_move limit 0 "/x/" "/y/x/" (mkState h_xy [])).

(** One reader inside a fresh node that two threads use. *)
Definition one_reader : config :=
  mkConfig (reader_enter sync_new).1 ([] ++ Reading :: [Out]).

End Examples.

(** ** What the counters of a node count *)

Module Accounting.

Import Monitor.

Local Open Scope Z_scope.

(** The counters against the pool: [rcount], [wcount], [rwait] and [wwait]
    are the numbers of threads inside as readers, inside as writers, and
    waiting on [readers] and on [writers]; the baton [change] is at least -1
    and at most the number of waiting readers. *)
Definition accounted (c : config) : Prop :=
  rcount (sync_of c) = tally Reading (pool c) ∧
  wcount (sync_of c) = tally Writing (pool c) ∧
  rwait (sync_of c) = tally ParkedReader (pool c) ∧
  wwait (sync_of c) = tally ParkedWriter (pool c) ∧
  -1 ≤ change (sync_of c) ≤ rwait (sync_of c).

(** No thread of the pool is inside the node or waits to enter it. *)
Definition idle (l : list pc) : Prop :=
  Forall (λ p, p = Out ∨ p = ParkedClear) l.

(** The threads inside the node, and the threads that wait to enter it. *)
Definition inside (l : list pc) : Z := tally Reading l + tally Writing l.
Definition waiting (l : list pc) : Z :=
  tally ParkedReader l + tally ParkedWriter l.

End Accounting.

(** ** The nodes a thread holds *)

Module Discipline.

Import Heap.

(** How a thread holds a node: with the permission of a reader or with the
    permission of a writer. *)
Inductive grip := AsReader | AsWriter.

#[global] Instance grip_eq_dec : EqDecision grip.
Proof. solve_decision. Defined.

(** The nodes a thread holds after a protocol call that returns, given the
    nodes it held before; none when the call is out of order: an entry into
    a node the thread holds already, or an exit with a protocol other than
    the one the thread entered the node with. *)
Definition after (held : gmap addr grip) (e : event)
    : option (gmap addr grip) :=
  match e with
  | EvReaderEntry a =>
      match held !! a with
      | None => Some (<[a := AsReader]> held)
      | Some _ => None
      end
  | EvWriterEntry a =>
      match held !! a with
      | None => Some (<[a := AsWriter]> held)
      | Some _ => None
      end
  | EvReaderExit a =>
      match held !! a with
      | Some AsReader => Some (delete a held)
      | _ => None
      end
  | EvWriterExit a =>
      match held !! a with
      | Some AsWriter => Some (delete a held)
      | _ => None
      end
  end.

(** The same after a sequence of calls. *)
Fixpoint replay (held : gmap addr grip) (evs : list event)
    : option (gmap addr grip) :=
  match evs with
  | [] => Some held
  | e :: evs' =>
      match after held e with
      | Some held' => replay held' evs'
      | None => None
      end
  end.

(** A walk by lock coupling: the calls are in order, and after every call
    but the last the thread holds one node or two. *)
Definition coupled (held : gmap addr grip) (evs : list event) : Prop :=
  ∀ k, (0 < k < length evs)%nat →
    ∃ X, replay held (take k evs) = Some X ∧ (1 ≤ size X ≤ 2)%nat.

(** The way a walk of [find_node] holds the node it reaches after the
    components [cs] that remain: the last node as a writer. *)
Definition grip_of (cs : list string) : grip :=
  match cs with [] => AsWriter | _ => AsReader end.

End Discipline.

(** ** Subtrees and stores without garbage *)

Module Reach.

Import Monitor Heap Shape.

(** [x] is a node of the subtree at [a]. *)
Definition below (h : gmap addr Tree) (a x : addr) : Prop :=
  ∃ cs, resolve h a cs = Some x.

(** Every allocated node is a node of the tree at [root]. *)
Definition rooted (h : gmap addr Tree) (root : addr) : Prop :=
  ∀ x, is_Some (h !! x) → below h root x.

(** A tree whose nodes may be in use: [wf] without the rest. *)
Definition shaped (h : gmap addr Tree) (root : addr) : Prop :=
  is_Some (h !! root) ∧ closed h ∧ tree_shaped h root.

#[global] Instance shaped_dec h root : Decision (shaped h root).
Proof. unfold shaped, closed, tree_shaped. apply _. Defined.

(** No thread is in a node of the subtree at [a] or waits for one. *)
Definition idle_below (h : gmap addr Tree) (a : addr) : Prop :=
  ∀ x n, below h a x → h !! x = Some n → busy (sync n) = false.

End Reach.

(** ** More small states to run the code on *)

Module MoreExamples.

Import PathUtils Monitor Heap TreeOps Shape Examples.

(** A writer inside a node that two threads use, the other thread waiting
    on [readers]; and the same node after the writer has left. *)
Definition writer_and_reader : config :=
  mkConfig (mkSync 0 1 1 0 0 false) [Writing; ParkedReader].

Definition handed_over : config :=
  mkConfig (mkSync 0 0 1 0 1 false) [Out; ParkedReader].

(** A node that a writer has left with the baton for one waiting reader
    while another writer waits; and the same node after that reader has
    woken and gone in. *)
Definition baton_out : config :=
  mkConfig (mkSync 0 0 1 1 1 false) [Out; ParkedReader; ParkedWriter].

Definition baton_taken : config :=
  mkConfig (mkSync 1 0 0 1 0 false) [Out; Reading; ParkedWriter].

(** The tree with the folders [/a/] and [/a/b/] while a reader is inside
    the node of [/a/b/]. *)
Definition h_busy : gmap addr Tree :=
  {[ 0 := mkTree {[ "a" := 1 ]} sync_new;
     1 := mkTree {[ "b" := 2 ]} sync_new;
     2 := mkTree ∅ rlocked ]}.

(** The same tree while a writer is inside the node of [/a/]. *)
Definition h_writing : gmap addr Tree :=
  {[ 0 := mkTree {[ "a" := 1 ]} sync_new;
     1 := mkTree {[ "b" := 2 ]} wlocked;
     2 := leaf ]}.

(** The states after [/a/c/] is made in [h_ab], after [/a/b/] is removed
    from it, and the state of a program that has made [/a/] and [/a/b/]
    and has listed the root. *)
Definition st_created : state :=
  final (tree_create limit 0 "/a/c/" (mkState h_ab [])).

Definition st_removed : state :=
  final (tree_remove limit 0 "/a/b/" (mkState h_ab [])).

Definition st_new : state := final (tree_new (mkState ∅ [])).

Definition st_a : state := final (tree_create limit 0 "/a/" st_new).

Definition st_run : state := final (tree_create limit 0 "/a/b/" st_a).

End MoreExamples.

(** * Properties *)

(** ** The monitor *)

Section MonitorFacts.

Import Monitor.

Local Open Scope Z_scope.

Lemma tally_nonneg p l : 0 ≤ tally p l.
Proof. induction l as [|x l IH]; simpl; [lia|]. case_decide; lia. Qed.

Lemma tally_app p l1 l2 : tally p (l1 ++ l2) = tally p l1 + tally p l2.
Proof. induction l1 as [|x l1 IH]; simpl; [lia|]. rewrite IH. lia. Qed.

Lemma tally_replicate_ne p q n : p ≠ q → tally p (replicate n q) = 0.
Proof.
  intros Hne. induction n as [|n IH]; simpl; [done|].
  rewrite IH. case_decide; [congruence|lia].
Qed.

Lemma consistent_initial n : consistent (initial n).
Proof.
  unfold consistent, initial; simpl.
  rewrite !tally_replicate_ne by discriminate. lia.
Qed.

Ltac crush_sync :=
  repeat match goal with
  | |- context [Z.ltb ?a ?b] => destruct (Z.ltb_spec a b)
  | |- context [Z.leb ?a ?b] => destruct (Z.leb_spec a b)
  | |- context [Z.eqb ?a ?b] => destruct (Z.eqb_spec a b)
  | |- context [if ?b then _ else _] => is_var b; destruct b
  | H : context [Z.ltb ?a ?b] |- _ => destruct (Z.ltb_spec a b)
  | H : context [Z.leb ?a ?b] |- _ => destruct (Z.leb_spec a b)
  | _ => progress (simpl in *)
  end.

(** Every atomic segment keeps the counters equal to the numbers of
    threads they count, and with that the exclusion. *)
Lemma consistent_step c c' : consistent c → step c c' → consistent c'.
Proof.
  intros Hc Hstep. destruct Hstep as [s s' x y l1 l2 Hts].
  unfold consistent in *; simpl in *.
  rewrite !tally_app in *; simpl in *.
  pose proof (tally_nonneg Reading l1). pose proof (tally_nonneg Reading l2).
  pose proof (tally_nonneg Writing l1). pose proof (tally_nonneg Writing l2).
  destruct Hc as (Hr & Hw & H01 & Hex & Hch).
  destruct s as [rc wc rw ww ch cw]; simpl in *.
  inversion Hts; subst; clear Hts;
    unfold reader_must_wait, writer_must_wait, busy, reader_enter,
      reader_exit, writer_enter, writer_exit, reader_park, reader_unpark,
      writer_park, writer_unpark, clear_park, clear_unpark, set_rcount,
      set_wcount, set_rwait, set_wwait, set_change, set_cwait in *;
    simpl in *;
    repeat case_decide; try congruence;
    crush_sync; try congruence; simpl in *; lia.
Qed.

Lemma reachable_consistent c : reachable c → consistent c.
Proof.
  induction 1 as [n|c c' _ IH Hstep].
  - apply consistent_initial.
  - eapply consistent_step; eauto.
Qed.

Lemma consistent_exclusion c : consistent c → exclusion (sync_of c).
Proof. unfold consistent, exclusion. tauto. Qed.

(** C1. In every reachable state of a node with its threads, [wcount] is 0
    or 1 and [rcount] is 0 whenever [wcount] is 1; and every step of the
    entry and exit protocols (and of the wait for quiescence) taken from
    such a state leads to a state with the same property. *)
Theorem exclusion_invariant (c : config) :
  reachable c →
  exclusion (sync_of c) ∧ ∀ c', step c c' → exclusion (sync_of c').
Proof.
  intros Hr. split.
  - apply consistent_exclusion, reachable_consistent, Hr.
  - intros c' Hstep.
    eapply consistent_exclusion, consistent_step;
      [apply reachable_consistent, Hr | exact Hstep].
Qed.

(** C2. [writer_exit_protocol] takes one from [wcount] in every case and
    leaves the other counters and [cwait] alone; it hands the baton to the
    waiting readers first ([change] becomes [rwait], [readers] is
    signalled), else to a waiting writer ([change] becomes -1, [writers] is
    signalled), else it signals [clear] when [cwait] holds, and else it
    signals nothing. *)
Theorem writer_exit_priority (s : Sync) :
  let s' := (writer_exit s).1 in
  let signal := (writer_exit s).2 in
  wcount s' = wcount s - 1 ∧
  rcount s' = rcount s ∧ rwait s' = rwait s ∧ wwait s' = wwait s ∧
  cwait s' = cwait s ∧
  (0 < rwait s → change s' = rwait s ∧ signal = Some Readers) ∧
  (rwait s ≤ 0 → 0 < wwait s → change s' = -1 ∧ signal = Some Writers) ∧
  (rwait s ≤ 0 → wwait s ≤ 0 → cwait s = true →
     change s' = change s ∧ signal = Some Clear) ∧
  (rwait s ≤ 0 → wwait s ≤ 0 → cwait s = false →
     change s' = change s ∧ signal = None).
Proof.
  destruct s as [rc wc rw ww ch cw]. unfold writer_exit; simpl.
  destruct (Z.ltb_spec 0 rw); simpl.
  { repeat split; intros; try lia; done. }
  destruct (Z.ltb_spec 0 ww); simpl.
  { repeat split; intros; try lia; done. }
  destruct cw; simpl; repeat split; intros; try lia; try done.
Qed.

End MonitorFacts.

(** ** The counters and the threads *)

Section AccountingFacts.

Import Monitor Accounting.

Local Open Scope Z_scope.

Lemma accounted_initial n : accounted (initial n).
Proof.
  unfold accounted, initial; simpl.
  rewrite !tally_replicate_ne by discriminate. lia.
Qed.

Ltac crush_counters :=
  repeat match goal with
  | |- context [Z.ltb ?a ?b] => destruct (Z.ltb_spec a b)
  | |- context [Z.leb ?a ?b] => destruct (Z.leb_spec a b)
  | |- context [Z.eqb ?a ?b] => destruct (Z.eqb_spec a b)
  | |- context [if ?b then _ else _] => is_var b; destruct b
  | H : context [Z.ltb ?a ?b] |- _ => destruct (Z.ltb_spec a b)
  | H : context [Z.leb ?a ?b] |- _ => destruct (Z.leb_spec a b)
  | _ => progress (simpl in *)
  end.

(** Every atomic segment keeps the account. *)
Lemma accounted_step c c' : accounted c → step c c' → accounted c'.
Proof.
  intros Hc Hstep. destruct Hstep as [s s' x y l1 l2 Hts].
  unfold accounted in *; simpl in *.
  rewrite !tally_app in *; simpl in *.
  pose proof (tally_nonneg Reading l1). pose proof (tally_nonneg Reading l2).
  pose proof (tally_nonneg Writing l1). pose proof (tally_nonneg Writing l2).
  pose proof (tally_nonneg ParkedReader l1).
  pose proof (tally_nonneg ParkedReader l2).
  pose proof (tally_nonneg ParkedWriter l1).
  pose proof (tally_nonneg ParkedWriter l2).
  destruct Hc as (Hr & Hw & Hrw & Hww & Hch).
  destruct s as [rc wc rw ww ch cw]; simpl in *.
  inversion Hts; subst; clear Hts;
    unfold reader_must_wait, writer_must_wait, busy, reader_enter,
      reader_exit, writer_enter, writer_exit, reader_park, reader_unpark,
      writer_park, writer_unpark, clear_park, clear_unpark, set_rcount,
      set_wcount, set_rwait, set_wwait, set_change, set_cwait in *;
    simpl in *;
    repeat case_decide; try congruence;
    crush_counters; try congruence; simpl in *; lia.
Qed.

Lemma reachable_accounted c : reachable c → accounted c.
Proof.
  induction 1 as [n|c c' _ IH Hstep].
  - apply accounted_initial.
  - eapply accounted_step; eauto.
Qed.

Lemma tally_le_length p l : tally p l ≤ Z.of_nat (length l).
Proof. induction l as [|x l IH]; simpl; [lia|]. case_decide; lia. Qed.

Lemma tally_zero p l : tally p l = 0 ↔ p ∉ l.
Proof.
  induction l as [|x l IH]; simpl.
  - split; [intros _; apply not_elem_of_nil|done].
  - pose proof (tally_nonneg p l). rewrite not_elem_of_cons, <- IH.
    case_decide; subst.
    + split; [lia|]. by intros [? _].
    + split; [intros; split; [congruence|lia]|]. intros [_ ?]; lia.
Qed.

Lemma tally_pos_split p l :
  0 < tally p l → ∃ l1 l2, l = l1 ++ p :: l2.
Proof.
  intros Hpos. apply list_elem_of_split.
  destruct (decide (p ∈ l)) as [|Hn]; [done|].
  apply tally_zero in Hn. lia.
Qed.

Lemma idle_tally l :
  idle l ↔
  tally Reading l = 0 ∧ tally Writing l = 0 ∧
  tally ParkedReader l = 0 ∧ tally ParkedWriter l = 0.
Proof.
  rewrite !tally_zero. unfold idle. rewrite Forall_forall. split.
  - intros Hall. repeat split; intros Hin; by destruct (Hall _ Hin).
  - intros (Hr & Hw & Hpr & Hpw) p Hin.
    destruct p; auto; by exfalso.
Qed.

(** X1. In every reachable state of a node with its threads, [rcount],
    [wcount], [rwait] and [wwait] are the numbers of threads that are inside
    as readers, inside as writers, waiting on [readers] and waiting on
    [writers]: no counter is negative or exceeds the number of threads. *)
Theorem counters_count_threads (c : config) :
  reachable c →
  rcount (sync_of c) = tally Reading (pool c) ∧
  wcount (sync_of c) = tally Writing (pool c) ∧
  rwait (sync_of c) = tally ParkedReader (pool c) ∧
  wwait (sync_of c) = tally ParkedWriter (pool c) ∧
  ∀ v, v ∈ [rcount (sync_of c); wcount (sync_of c);
            rwait (sync_of c); wwait (sync_of c)] →
       0 ≤ v ≤ Z.of_nat (length (pool c)).
Proof.
  intros Hr. destruct (reachable_accounted c Hr) as (H1 & H2 & H3 & H4 & _).
  repeat (split; [done|]).
  intros v Hv. rewrite H1, H2, H3, H4 in Hv.
  repeat (apply elem_of_cons in Hv as [->|Hv];
          [split; [apply tally_nonneg|apply tally_le_length]|]).
  by apply elem_of_nil in Hv.
Qed.

(** X2. In every reachable state of a node with its threads at most one
    thread is inside as a writer, and while one is, no thread is inside as
    a reader. *)
Theorem writer_is_alone (c : config) :
  reachable c →
  tally Writing (pool c) ≤ 1 ∧
  (0 < tally Writing (pool c) → tally Reading (pool c) = 0).
Proof.
  intros Hr.
  destruct (reachable_accounted c Hr) as (H1 & H2 & _).
  destruct (reachable_consistent c Hr) as (_ & _ & H01 & Hex & _).
  pose proof (tally_nonneg Writing (pool c)).
  rewrite <- H1, <- H2. split; [lia|]. intros Hw. apply Hex. lia.
Qed.

(** X3. In every reachable state the baton [change] is -1, 0, or a positive
    number that does not exceed the number of threads waiting on [readers];
    while it is positive no writer is inside. *)
Theorem baton_bounded (c : config) :
  reachable c →
  -1 ≤ change (sync_of c) ≤ tally ParkedReader (pool c) ∧
  (0 < change (sync_of c) → tally Writing (pool c) = 0).
Proof.
  intros Hr.
  destruct (reachable_accounted c Hr) as (_ & Hw & Hrw & _ & Hch).
  destruct (reachable_consistent c Hr) as (_ & _ & _ & _ & Hpos).
  split; [lia|]. intros Hc. rewrite <- Hw. by apply Hpos.
Qed.

(** X4. In every reachable state the test of the wait for quiescence
    (line 268 of [tree_remove], line 296 of [bfs_clear]) is false exactly
    when no thread is inside the node or waits to enter it; the flag
    [cwait], which a woken thread resets before it tests again, has no part
    in the test. *)
Theorem clear_test_exact (c : config) :
  reachable c →
  (busy (sync_of c) = false ↔ idle (pool c)) ∧
  busy (clear_unpark (sync_of c)) = busy (sync_of c).
Proof.
  intros Hr. split; [|done].
  destruct (reachable_accounted c Hr) as (H1 & H2 & H3 & H4 & _).
  rewrite idle_tally, <- H1, <- H2, <- H3, <- H4.
  pose proof (tally_nonneg Reading (pool c)).
  pose proof (tally_nonneg Writing (pool c)).
  pose proof (tally_nonneg ParkedReader (pool c)).
  pose proof (tally_nonneg ParkedWriter (pool c)).
  unfold busy. rewrite !orb_false_iff, !Z.ltb_ge. lia.
Qed.

(** X5. In every reachable state in which no thread is inside the node and
    some thread waits on [readers] or on [writers], one of the waiting
    threads finds the condition of its loop false when it wakes: it has a
    step that takes it inside. *)
Theorem waiting_thread_admitted (c : config) :
  reachable c →
  inside (pool c) = 0 → 0 < waiting (pool c) →
  ∃ c', step c c' ∧
        inside (pool c') = 1 ∧ waiting (pool c') = waiting (pool c) - 1.
Proof.
  intros Hr Hin Hwait.
  destruct (reachable_accounted c Hr) as (H1 & H2 & H3 & H4 & Hch).
  destruct c as [s l]; unfold inside, waiting in *; simpl in *.
  pose proof (tally_nonneg Reading l). pose proof (tally_nonneg Writing l).
  pose proof (tally_nonneg ParkedReader l).
  pose proof (tally_nonneg ParkedWriter l).
  assert (Hreader : 0 < tally ParkedReader l →
            (0 < change s ∨ tally ParkedWriter l = 0) →
            ∃ c', step (mkConfig s l) c' ∧
                  tally Reading (pool c') + tally Writing (pool c') = 1 ∧
                  tally ParkedReader (pool c') + tally ParkedWriter (pool c')
                  = tally ParkedReader l + tally ParkedWriter l - 1).
  { intros Hpos Hopen. destruct (tally_pos_split _ _ Hpos) as (l1 & l2 & ->).
    exists (mkConfig (reader_enter (reader_unpark s)).1
              (l1 ++ Reading :: l2)).
    split.
    - apply step_thread, ts_reader_wake_enter.
      unfold reader_must_wait, reader_unpark, set_rwait; simpl.
      rewrite andb_false_iff, orb_false_iff, !Z.ltb_ge, Z.leb_gt.
      rewrite !tally_app in *; simpl in *. lia.
    - simpl. rewrite !tally_app in *; simpl in *.
      repeat case_decide; try congruence. lia. }
  destruct (decide (0 < change s)) as [Hc|Hc]; [apply Hreader; lia|].
  destruct (decide (tally ParkedWriter l = 0)) as [Hw|Hw];
    [apply Hreader; lia|].
  assert (Hpos : 0 < tally ParkedWriter l) by lia.
  destruct (tally_pos_split _ _ Hpos) as (l1 & l2 & ->).
  exists (mkConfig (writer_enter (writer_unpark s)) (l1 ++ Writing :: l2)).
  split.
  - apply step_thread, ts_writer_wake_enter.
    unfold writer_must_wait, writer_unpark, set_wwait; simpl.
    rewrite !orb_false_iff, !Z.ltb_ge.
    rewrite !tally_app in *; simpl in *. lia.
  - simpl. rewrite !tally_app in *; simpl in *.
    repeat case_decide; try congruence. lia.
Qed.

(** X6. The thread an exit wakes can go on. In every reachable state: when
    the writer inside leaves, [writer_exit_protocol] signals [readers] if a
    reader waits, and a woken reader then finds its loop condition false;
    else it signals [writers] if a writer waits, and a woken writer finds
    its loop condition false; else it signals [clear] if [cwait] holds, and
    the woken thread finds the node quiescent. When a reader inside leaves
    as the last one while a writer waits, [reader_exit_protocol] signals
    [writers] and a woken writer finds its loop condition false; and when
    it leaves the node quiescent while [cwait] holds, it signals [clear]. *)
Theorem exit_wakes_waiter (c : config) :
  reachable c →
  (0 < tally Writing (pool c) →
   let s' := (writer_exit (sync_of c)).1 in
   let signal := (writer_exit (sync_of c)).2 in
   (0 < rwait s' →
      signal = Some Readers ∧ reader_must_wait (reader_unpark s') = false) ∧
   (rwait s' = 0 → 0 < wwait s' →
      signal = Some Writers ∧ writer_must_wait (writer_unpark s') = false) ∧
   (rwait s' = 0 → wwait s' = 0 → cwait s' = true →
      signal = Some Clear ∧ busy (clear_unpark s') = false)) ∧
  (0 < tally Reading (pool c) →
   let s' := (reader_exit (sync_of c)).1 in
   let signal := (reader_exit (sync_of c)).2 in
   (rcount s' = 0 → 0 < wwait s' →
      signal = Some Writers ∧ writer_must_wait (writer_unpark s') = false) ∧
   (busy s' = false → cwait s' = true → signal = Some Clear)).
Proof.
  intros Hr.
  destruct (reachable_accounted c Hr) as (H1 & H2 & H3 & H4 & Hch).
  destruct (reachable_consistent c Hr) as (_ & _ & H01 & Hex & Hpos).
  destruct c as [[rc wc rw ww ch cw] l]; simpl in *.
  pose proof (tally_nonneg Reading l). pose proof (tally_nonneg Writing l).
  pose proof (tally_nonneg ParkedReader l).
  pose proof (tally_nonneg ParkedWriter l).
  assert (Hor : ∀ a b, a || b = false ↔ a = false ∧ b = false)
    by (intros; apply orb_false_iff).
  split; intros Hin.
  - unfold writer_exit, reader_must_wait, writer_must_wait, busy; simpl.
    destruct (Z.ltb_spec 0 rw); simpl;
      [|destruct (Z.ltb_spec 0 ww); simpl; [|destruct cw; simpl]].
    all: repeat split; intros; try lia; try done.
    all: rewrite ?andb_false_iff, ?Hor, ?Z.ltb_ge, ?Z.leb_gt; lia.
  - unfold reader_exit, writer_must_wait, busy; simpl.
    destruct (Z.eqb_spec (rc - 1) 0); simpl;
      [destruct (Z.ltb_spec 0 ww); simpl|]; try destruct cw; simpl.
    all: repeat split; intros; try lia; try done.
    all: repeat match goal with
         | H : _ || _ = false |- _ => apply orb_false_iff in H as [? ?]
         | H : (_ <? _) = false |- _ => apply Z.ltb_ge in H
         end.
    all: rewrite ?andb_false_iff, ?Hor, ?Z.ltb_ge, ?Z.leb_gt; lia.
Qed.

(** X7. Readers and writers take turns. In a step that takes a reader
    inside while a writer waits, the baton [change] was positive and the
    reader has taken one from it, so no more readers overtake a waiting
    writer than the baton counts. In a step that takes a writer inside, no
    thread was inside and the baton was not positive, and the writer has
    set it to 0. *)
Theorem admission_takes_turns (c c' : config) :
  step c c' →
  (tally Reading (pool c') = tally Reading (pool c) + 1 →
   0 < wwait (sync_of c) →
   0 < change (sync_of c) ∧
   change (sync_of c') = change (sync_of c) - 1 ∧
   wwait (sync_of c') = wwait (sync_of c)) ∧
  (tally Writing (pool c') = tally Writing (pool c) + 1 →
   rcount (sync_of c) ≤ 0 ∧ wcount (sync_of c) ≤ 0 ∧
   change (sync_of c) ≤ 0 ∧ change (sync_of c') = 0).
Proof.
  intros Hstep. destruct Hstep as [s s' x y l1 l2 Hts].
  simpl. rewrite !tally_app. simpl.
  destruct s as [rc wc rw ww ch cw].
  split; intros Htally; [intros Hww|].
  - inversion Hts; subst; clear Hts;
      repeat case_decide; try congruence; try lia;
      unfold reader_must_wait, reader_enter, reader_unpark, set_rcount,
        set_rwait, set_change in *; simpl in *.
    all: destruct (Z.ltb_spec 0 ch); simpl;
      [destruct (Z.ltb_spec 0 (ch - 1)); simpl; lia|].
    all: destruct (Z.ltb_spec 0 wc); destruct (Z.ltb_spec 0 ww);
      destruct (Z.leb_spec ch 0); simpl in *; try lia; discriminate.
  - inversion Hts; subst; clear Hts;
      repeat case_decide; try congruence; try lia;
      unfold writer_must_wait, writer_enter, writer_unpark, set_wcount,
        set_wwait, set_change in *; simpl in *.
    all: destruct (Z.ltb_spec 0 rc); destruct (Z.ltb_spec 0 wc);
      destruct (Z.ltb_spec 0 ch); simpl in *; try lia; discriminate.
Qed.

End AccountingFacts.

(** ** Paths *)

Section PathFacts.

Import PathUtils.

Variable MAX_FOLDER_NAME_LENGTH : nat.

Local Abbreviation is_path_valid := (is_path_valid MAX_FOLDER_NAME_LENGTH).
Local Abbreviation is_name_valid := (is_name_valid MAX_FOLDER_NAME_LENGTH).

Lemma app_empty_l s : EmptyString +:+ s = s.
Proof. reflexivity. Qed.

Lemma app_cons c s t : String c s +:+ t = String c (s +:+ t).
Proof. reflexivity. Qed.

Lemma app_empty_r s : s +:+ EmptyString = s.
Proof. induction s as [|c s IH]; [done|]. by rewrite app_cons, IH. Qed.

Lemma app_assoc_str s t u : (s +:+ t) +:+ u = s +:+ (t +:+ u).
Proof. induction s as [|c s IH]; [done|]. by rewrite !app_cons, IH. Qed.

Lemma length_app_str s t :
  String.length (s +:+ t) = String.length s + String.length t.
Proof. induction s as [|c s IH]; [done|]. rewrite app_cons; simpl. lia. Qed.

Lemma permitted_not_slash c : is_permitted c = true → is_slash c = false.
Proof.
  unfold is_permitted, is_slash. intros H.
  destruct (Ascii.eqb_spec c "/"%char) as [->|]; [|done].
  vm_compute in H. discriminate.
Qed.

Lemma all_permitted_no_slash s : all_permitted s = true → no_slash s = true.
Proof.
  induction s as [|c s IH]; simpl; [done|].
  intros [Hc Hs]%andb_true_iff.
  by rewrite (permitted_not_slash c Hc), IH.
Qed.

Lemma name_valid_no_slash c : is_name_valid c = true → no_slash c = true.
Proof.
  unfold PathUtils.is_name_valid. intros [_ H]%andb_true_iff.
  by apply all_permitted_no_slash.
Qed.

Lemma name_valid_nonempty c : is_name_valid c = true → c ≠ EmptyString.
Proof. intros H ->. discriminate. Qed.

Lemma all_permitted_app s t :
  all_permitted (s +:+ t) = all_permitted s && all_permitted t.
Proof.
  induction s as [|c s IH]; [done|].
  rewrite app_cons; simpl. rewrite IH. by rewrite andb_assoc.
Qed.

Lemma until_slash_name name rest :
  no_slash name = true →
  until_slash (name +:+ String "/"%char rest)
  = Some (name, String "/"%char rest).
Proof.
  induction name as [|c name IH]; [done|].
  rewrite app_cons; simpl. intros [Hc Hs]%andb_true_iff.
  apply negb_true_iff in Hc. rewrite Hc, IH; done.
Qed.

Lemma split_path_root : split_path (render []) = None.
Proof. reflexivity. Qed.

Lemma split_path_render c cs :
  no_slash c = true → split_path (render (c :: cs)) = Some (c, render cs).
Proof. intros Hc. unfold render; simpl. by apply until_slash_name. Qed.

Lemma scan_names_name cur name rest :
  no_slash name = true →
  scan_names cur (name +:+ String "/"%char rest)
  = (cur +:+ name) :: scan_names EmptyString rest.
Proof.
  revert cur. induction name as [|c name IH]; intros cur.
  - intros _. rewrite app_empty_l, app_empty_r. reflexivity.
  - rewrite app_cons; simpl. intros [Hc Hs]%andb_true_iff.
    apply negb_true_iff in Hc. rewrite Hc, IH by done.
    by rewrite app_assoc_str.
Qed.

Lemma scan_names_render_tail cs :
  Forall (λ c, no_slash c = true) cs →
  scan_names EmptyString (render_tail cs) = cs.
Proof.
  induction 1 as [|c cs Hc _ IH]; [done|].
  simpl. rewrite scan_names_name by done. by rewrite IH.
Qed.

Lemma components_render cs :
  Forall (λ c, no_slash c = true) cs → components (render cs) = cs.
Proof. apply scan_names_render_tail. Qed.

Lemma count_slashes_app s t :
  count_slashes (s +:+ t) = (count_slashes s + count_slashes t)%N.
Proof.
  induction s as [|c s IH]; [done|].
  rewrite app_cons; simpl. rewrite IH. lia.
Qed.

Lemma count_slashes_name c : no_slash c = true → count_slashes c = 0%N.
Proof.
  induction c as [|a c IH]; simpl; [done|].
  intros [Ha Hc]%andb_true_iff. apply negb_true_iff in Ha.
  rewrite Ha, IH; done.
Qed.

Lemma count_slashes_render cs :
  Forall (λ c, no_slash c = true) cs →
  count_slashes (render cs) = (N.of_nat (length cs) + 1)%N.
Proof.
  unfold render. induction 1 as [|c cs Hc _ IH]; [done|].
  simpl in *. rewrite count_slashes_app, count_slashes_name by done.
  simpl. destruct (count_slashes (render_tail cs)); lia.
Qed.

Lemma render_tail_app cs1 cs2 :
  render_tail (cs1 ++ cs2) = render_tail cs1 +:+ render_tail cs2.
Proof.
  induction cs1 as [|c cs1 IH]; [done|].
  simpl. rewrite IH. by rewrite app_assoc_str, app_cons.
Qed.

Lemma render_app cs1 cs2 : render (cs1 ++ cs2) = render cs1 +:+ render_tail cs2.
Proof. unfold render. by rewrite render_tail_app, app_cons. Qed.

Lemma render_tail_nonempty c cs : render_tail (c :: cs) ≠ EmptyString.
Proof. simpl. destruct c; discriminate. Qed.

Lemma is_root_render cs :
  is_root (render cs) = match cs with [] => true | _ => false end.
Proof.
  destruct cs as [|c cs]; [done|].
  unfold is_root, render. apply String.eqb_neq. intros [=H].
  by apply render_tail_nonempty in H.
Qed.

Lemma make_path_to_parent_render cs c :
  Forall (λ c, no_slash c = true) (cs ++ [c]) →
  make_path_to_parent (render (cs ++ [c])) = Some (render cs, c).
Proof.
  intros H. unfold make_path_to_parent.
  rewrite components_render by done.
  by rewrite reverse_snoc, reverse_involutive.
Qed.

Lemma common_files_render cs1 cs2 :
  Forall (λ c, no_slash c = true) cs1 →
  Forall (λ c, no_slash c = true) cs2 →
  common_files (render cs1) (render cs2)
  = (N.of_nat (length (shared_prefix cs1 cs2)) + 1)%N.
Proof.
  intros H1 H2. unfold common_files. by rewrite !components_render.
Qed.

(** A valid path is the path of a list of valid names. *)
Lemma valid_scan_render s : ∀ cur,
  valid_scan MAX_FOLDER_NAME_LENGTH (String.length cur) s = true →
  all_permitted cur = true →
  (s = EmptyString ∧ cur = EmptyString) ∨
  ∃ c cs, cur +:+ s = render_tail (c :: cs) ∧
          Forall (λ c, is_name_valid c = true) (c :: cs).
Proof.
  induction s as [|a s IH]; intros cur Hscan Hcur; simpl in Hscan.
  - left. split; [done|]. destruct cur; [done|discriminate].
  - right. destruct (is_slash a) eqn:Ha.
    + apply andb_true_iff in Hscan as [[Hlo Hhi]%andb_true_iff Hscan].
      apply Ascii.eqb_eq in Ha; subst a.
      assert (Hname : is_name_valid cur = true).
      { unfold PathUtils.is_name_valid.
        apply andb_true_iff; split; [apply andb_true_iff; split|].
        - exact Hlo.
        - exact Hhi.
        - exact Hcur. }
      destruct (IH EmptyString Hscan eq_refl) as [[-> _]|(c & cs & Heq & Hall)].
      * exists cur, []. split; [done|]. by constructor.
      * exists cur, (c :: cs). rewrite app_empty_l in Heq.
        split; [by rewrite Heq|]. by constructor.
    + apply andb_true_iff in Hscan as [Hperm Hscan].
      destruct (IH (cur +:+ String a EmptyString))
        as [[_ Hc]|(c & cs & Heq & Hall)].
      * rewrite length_app_str; simpl.
        by replace (String.length cur + 1) with (S (String.length cur)) by lia.
      * rewrite all_permitted_app; simpl. by rewrite Hcur, Hperm.
      * destruct cur; discriminate.
      * exists c, cs. split; [|done].
        by rewrite <- Heq, app_assoc_str, app_cons, app_empty_l.
Qed.

Lemma valid_path_render p :
  is_path_valid p = true →
  ∃ cs, p = render cs ∧ Forall (λ c, is_name_valid c = true) cs.
Proof.
  destruct p as [|a s]; [done|]. simpl.
  intros [Ha Hscan]%andb_true_iff. apply Ascii.eqb_eq in Ha; subst a.
  destruct (valid_scan_render s EmptyString Hscan eq_refl)
    as [[-> _]|(c & cs & Heq & Hall)].
  - by exists [].
  - exists (c :: cs). rewrite app_empty_l in Heq. unfold render. by rewrite Heq.
Qed.

Lemma names_valid_no_slash cs :
  Forall (λ c, is_name_valid c = true) cs →
  Forall (λ c, no_slash c = true) cs.
Proof. intros H. eapply Forall_impl; [exact H|]. apply name_valid_no_slash. Qed.

(** The test of lines 418 and 419 on a path and a longer path under it. *)
Lemma strncmp_eq_app s r : strncmp_eq s (s +:+ r) (strlen s) = true.
Proof.
  induction s as [|c s IH]; [done|].
  rewrite app_cons; simpl. by rewrite Ascii.eqb_refl, IH.
Qed.

Lemma strncmp_eq_prefix s t :
  strncmp_eq s t (strlen s) = true → strlen s ≤ strlen t →
  ∃ r, t = s +:+ r.
Proof.
  revert t. induction s as [|c s IH]; intros t; simpl.
  - intros _ _. by exists t.
  - destruct t as [|d t]; [simpl; lia|].
    intros [Hc Hs]%andb_true_iff Hlen. simpl in Hlen.
    apply Ascii.eqb_eq in Hc; subst d.
    destruct (IH t Hs ltac:(unfold strlen in *; lia)) as [r ->].
    by exists r.
Qed.

(** The path of a list of valid names is valid. *)
Lemma valid_scan_name name rest : ∀ len,
  all_permitted name = true →
  (1 ≤ len + String.length name)%nat →
  (len + String.length name ≤ MAX_FOLDER_NAME_LENGTH)%nat →
  valid_scan MAX_FOLDER_NAME_LENGTH len (name +:+ String "/"%char rest)
  = valid_scan MAX_FOLDER_NAME_LENGTH 0 rest.
Proof.
  induction name as [|a name IH]; intros len Hperm Hlo Hhi.
  - rewrite app_empty_l. simpl in *.
    replace (len + 0)%nat with len in * by lia.
    destruct len as [|len]; [lia|].
    apply Nat.leb_le in Hhi. by rewrite Hhi.
  - rewrite app_cons. simpl in *.
    apply andb_true_iff in Hperm as [Ha Hperm].
    rewrite (permitted_not_slash a Ha), Ha. simpl.
    apply IH; [done|lia|lia].
Qed.

Lemma render_valid cs :
  Forall (λ c, is_name_valid c = true) cs → is_path_valid (render cs) = true.
Proof.
  unfold PathUtils.is_path_valid, render. simpl.
  induction 1 as [|c cs Hc _ IH]; [done|].
  simpl. unfold PathUtils.is_name_valid in Hc.
  apply andb_true_iff in Hc as [[Hlo Hhi]%andb_true_iff Hperm].
  apply Nat.leb_le in Hlo, Hhi.
  rewrite valid_scan_name by (done || lia). done.
Qed.

Lemma valid_path_snoc p :
  is_path_valid p = true → is_root p = false →
  ∃ cs c, p = render (cs ++ [c]) ∧
          Forall (λ c, is_name_valid c = true) (cs ++ [c]).
Proof.
  intros Hvalid Hroot.
  destruct (valid_path_render p Hvalid) as (cs & -> & Hall).
  rewrite is_root_render in Hroot.
  destruct cs as [|c0 cs _] using rev_ind; [done|].
  by exists cs, c0.
Qed.

End PathFacts.

(** ** The monad, the locks and the protocols *)

Section HeapFacts.

Import PathUtils Monitor Heap TreeOps Shape.

Local Open Scope Z_scope.

Lemma bind_run {A B} (m : M A) (f : A → M B) st :
  (m ≫= f) st = match m st with Ret a st' => f a st' | Fail e => Fail e end.
Proof. reflexivity. Qed.

Lemma bind_Ret {A B} (m : M A) (f : A → M B) st a st' :
  m st = Ret a st' → (m ≫= f) st = f a st'.
Proof. intros H. by rewrite bind_run, H. Qed.

Lemma bind_Fail {A B} (m : M A) (f : A → M B) st e :
  m st = Fail e → (m ≫= f) st = Fail e.
Proof. intros H. by rewrite bind_run, H. Qed.

Lemma mret_run {A} (a : A) st : (mret a : M A) st = Ret a st.
Proof. reflexivity. Qed.

Lemma bind_mret {A B} (a : A) (f : A → M B) st : (mret a ≫= f) st = f a st.
Proof. reflexivity. Qed.

Lemma lock_lookup s a h b :
  lock s a h !! b
  = if decide (a = b) then (λ n, mkTree (map n) s) <$> h !! b else h !! b.
Proof.
  unfold lock. case_decide as Hab.
  - subst. by rewrite lookup_alter_eq.
  - by rewrite lookup_alter_ne.
Qed.

Lemma lock_lookup_eq s a h n :
  h !! a = Some n → lock s a h !! a = Some (mkTree (map n) s).
Proof. intros H. rewrite lock_lookup, decide_True by done. by rewrite H. Qed.

Lemma lock_lookup_ne s a h b : a ≠ b → lock s a h !! b = h !! b.
Proof. intros H. by rewrite lock_lookup, decide_False. Qed.

Lemma lock_lock s s' a h : lock s a (lock s' a h) = lock s a h.
Proof.
  apply map_eq; intros k. rewrite !lock_lookup.
  case_decide; [|done]. by destruct (h !! k).
Qed.

Lemma lock_comm s s' a b h :
  a ≠ b → lock s a (lock s' b h) = lock s' b (lock s a h).
Proof.
  intros Hab. apply map_eq; intros k. rewrite !lock_lookup.
  repeat case_decide; congruence.
Qed.

Lemma lock_id s a h n : h !! a = Some n → sync n = s → lock s a h = h.
Proof.
  intros Ha Hs. apply map_eq; intros k. rewrite lock_lookup.
  case_decide; [|done]. subst. rewrite Ha. by destruct n.
Qed.

Lemma insert_lock s a h n :
  h !! a = Some n → <[a := mkTree (map n) s]> h = lock s a h.
Proof.
  intros Ha. apply map_eq; intros k. rewrite lock_lookup, lookup_insert.
  case_decide; [|done]. subst. by rewrite Ha.
Qed.

Lemma dom_lock s a h : dom (lock s a h) = dom h.
Proof. unfold lock. apply leibniz_equiv, dom_alter. Qed.

Lemma size_lock s a h : size (lock s a h) = size h.
Proof.
  rewrite <- !size_dom. by rewrite dom_lock.
Qed.

Lemma hmap_get_run a key n st :
  heap st !! a = Some n → hmap_get a key st = Ret (map n !! key) st.
Proof. intros H. unfold hmap_get, get_node. by rewrite bind_run, H. Qed.

Lemma hmap_size_run a n st :
  heap st !! a = Some n → hmap_size a st = Ret (size (map n)) st.
Proof. intros H. unfold hmap_size, get_node. by rewrite bind_run, H. Qed.

Lemma reader_entry_run a n st :
  heap st !! a = Some n → sync n = sync_new →
  reader_entry_protocol a st
  = Ret () (mkState (lock rlocked a (heap st))
                    (trace st ++ [EvReaderEntry a])).
Proof.
  intros Ha Hs. unfold reader_entry_protocol, get_node.
  rewrite bind_run, Ha, Hs. simpl.
  unfold put_node, emit. rewrite bind_run. simpl.
  by rewrite <- (insert_lock _ _ _ _ Ha).
Qed.

Lemma reader_exit_run a n st :
  heap st !! a = Some n → sync n = rlocked →
  reader_exit_protocol a st
  = Ret () (mkState (lock sync_new a (heap st))
                    (trace st ++ [EvReaderExit a])).
Proof.
  intros Ha Hs. unfold reader_exit_protocol, get_node.
  rewrite bind_run, Ha, Hs. simpl.
  unfold put_node, emit. rewrite bind_run. simpl.
  by rewrite <- (insert_lock _ _ _ _ Ha).
Qed.

Lemma writer_entry_run a n st :
  heap st !! a = Some n → sync n = sync_new →
  writer_entry_protocol a st
  = Ret () (mkState (lock wlocked a (heap st))
                    (trace st ++ [EvWriterEntry a])).
Proof.
  intros Ha Hs. unfold writer_entry_protocol, get_node.
  rewrite bind_run, Ha, Hs. simpl.
  unfold put_node, emit. rewrite bind_run. simpl.
  by rewrite <- (insert_lock _ _ _ _ Ha).
Qed.

Lemma writer_exit_run a n st :
  heap st !! a = Some n → sync n = wlocked →
  writer_exit_protocol a st
  = Ret () (mkState (lock sync_new a (heap st))
                    (trace st ++ [EvWriterExit a])).
Proof.
  intros Ha Hs. unfold writer_exit_protocol, get_node.
  rewrite bind_run, Ha, Hs. simpl.
  unfold put_node, emit. rewrite bind_run. simpl.
  by rewrite <- (insert_lock _ _ _ _ Ha).
Qed.

Lemma wait_clear_run a n st :
  heap st !! a = Some n → sync n = sync_new → wait_clear a st = Ret () st.
Proof.
  intros Ha Hs. unfold wait_clear, get_node. by rewrite bind_run, Ha, Hs.
Qed.

(** A protocol call that returns in a sequential run is a step of the
    monitor of its node, taken by a thread that goes in or comes out. *)
Lemma protocol_call_steps a st st' :
  (reader_entry_protocol a st = Ret () st' →
   ∃ n, heap st !! a = Some n ∧
        heap st' !! a = Some (mkTree (map n) (reader_enter (sync n)).1) ∧
        thread_step (sync n) Out (reader_enter (sync n)).1 Reading) ∧
  (reader_exit_protocol a st = Ret () st' →
   ∃ n, heap st !! a = Some n ∧
        heap st' !! a = Some (mkTree (map n) (reader_exit (sync n)).1) ∧
        thread_step (sync n) Reading (reader_exit (sync n)).1 Out) ∧
  (writer_entry_protocol a st = Ret () st' →
   ∃ n, heap st !! a = Some n ∧
        heap st' !! a = Some (mkTree (map n) (writer_enter (sync n))) ∧
        thread_step (sync n) Out (writer_enter (sync n)) Writing) ∧
  (writer_exit_protocol a st = Ret () st' →
   ∃ n, heap st !! a = Some n ∧
        heap st' !! a = Some (mkTree (map n) (writer_exit (sync n)).1) ∧
        thread_step (sync n) Writing (writer_exit (sync n)).1 Out).
Proof.
  unfold reader_entry_protocol, reader_exit_protocol, writer_entry_protocol,
    writer_exit_protocol, get_node, put_node, emit.
  split; [|split; [|split]]; rewrite bind_run;
    destruct (heap st !! a) as [n|] eqn:Hn; try done.
  - destruct (reader_must_wait (sync n)) eqn:Hw; [done|].
    intros [= <-]. exists n. cbn [heap]. rewrite lookup_insert_eq.
    split; [done|]. split; [done|]. by apply ts_reader_enter.
  - intros [= <-]. exists n. cbn [heap]. rewrite lookup_insert_eq.
    split; [done|]. split; [done|]. apply ts_reader_exit.
  - destruct (writer_must_wait (sync n)) eqn:Hw; [done|].
    intros [= <-]. exists n. cbn [heap]. rewrite lookup_insert_eq.
    split; [done|]. split; [done|]. by apply ts_writer_enter.
  - intros [= <-]. exists n. cbn [heap]. rewrite lookup_insert_eq.
    split; [done|]. split; [done|]. apply ts_writer_exit.
Qed.

(** The walks read the maps only. *)
Lemma children_lock s a h b c :
  (lock s a h !! b ≫= λ n, map n !! c) = (h !! b ≫= λ n, map n !! c).
Proof.
  rewrite lock_lookup. case_decide; [|done]. by destruct (h !! b).
Qed.

Lemma resolve_lock s a h b cs : resolve (lock s a h) b cs = resolve h b cs.
Proof.
  revert b. induction cs as [|c cs IH]; intros b; simpl; [done|].
  rewrite children_lock. destruct (h !! b ≫= _); auto.
Qed.

Lemma size_pred_succ n : size_pred (N.of_nat (S n)) = N.of_nat n.
Proof.
  unfold size_pred, size_sub.
  destruct (N.leb_spec 1 (N.of_nat (S n))); lia.
Qed.

Lemma of_nat_length_eqb {A} (l : list A) :
  (N.of_nat (length l) =? 0)%N = match l with [] => true | _ => false end.
Proof. by destruct l. Qed.

Lemma length_render_tail cs :
  Forall (λ c, no_slash c = true) cs →
  (length cs ≤ String.length (render_tail cs))%nat.
Proof.
  induction 1 as [|c cs _ _ IH]; simpl; [lia|].
  rewrite length_app_str. simpl. lia.
Qed.

End HeapFacts.

(** ** Trees in the store *)

Section ShapeFacts.

Import PathUtils Monitor Heap TreeOps Shape.

Lemma children_edge h a c b :
  (h !! a ≫= λ n, map n !! c) = Some b ↔ edge h a c b.
Proof.
  unfold edge. split.
  - destruct (h !! a) as [n|] eqn:Ha; simpl; [|done]. intros Hc. by exists n.
  - intros (n & Ha & Hc). by rewrite Ha.
Qed.

Lemma tree_shaped_root h root a c : tree_shaped h root → ¬ edge h a c root.
Proof.
  intros Hts (n & Ha & Hc).
  by destruct (map_Forall_lookup_1 _ _ _ _
               (map_Forall_lookup_1 _ _ _ _ Hts Ha) Hc) as [Hne _].
Qed.

Lemma tree_shaped_unique h root a1 c1 a2 c2 b :
  tree_shaped h root → edge h a1 c1 b → edge h a2 c2 b → a1 = a2 ∧ c1 = c2.
Proof.
  intros Hts (n1 & Ha1 & Hc1) (n2 & Ha2 & Hc2).
  destruct (map_Forall_lookup_1 _ _ _ _
              (map_Forall_lookup_1 _ _ _ _ Hts Ha1) Hc1) as [_ Hall].
  by apply (map_Forall_lookup_1 _ _ _ _
              (map_Forall_lookup_1 _ _ _ _ Hall Ha2) Hc2).
Qed.

Lemma tree_shaped_intro h root :
  (∀ a c, ¬ edge h a c root) →
  (∀ a1 c1 a2 c2 b, edge h a1 c1 b → edge h a2 c2 b → a1 = a2 ∧ c1 = c2) →
  tree_shaped h root.
Proof.
  intros Hroot Huniq a1 n1 Ha1 c1 b1 Hc1. split.
  - intros ->. apply (Hroot a1 c1). by exists n1.
  - intros a2 n2 Ha2 c2 b2 Hc2 ->.
    apply (Huniq a1 c1 a2 c2 b2); [by exists n1|by exists n2].
Qed.

Lemma closed_edge h a c b : closed h → edge h a c b → is_Some (h !! b).
Proof.
  intros Hcl (n & Ha & Hc).
  apply (map_Forall_lookup_1 _ _ _ _ (map_Forall_lookup_1 _ _ _ _ Hcl Ha) Hc).
Qed.

Lemma closed_intro h :
  (∀ a c b, edge h a c b → is_Some (h !! b)) → closed h.
Proof. intros H a n Ha c b Hc. apply (H a c b). by exists n. Qed.

Lemma quiescent_lookup h a n :
  quiescent h → h !! a = Some n → sync n = sync_new.
Proof. intros Hq Ha. by apply (map_Forall_lookup_1 _ _ _ _ Hq Ha). Qed.

Lemma resolve_app h a cs1 cs2 :
  resolve h a (cs1 ++ cs2) = resolve h a cs1 ≫= λ b, resolve h b cs2.
Proof.
  revert a. induction cs1 as [|c cs1 IH]; intros a; simpl; [done|].
  destruct (h !! a ≫= _); [apply IH|done].
Qed.

Lemma resolve_snoc h a cs c b :
  resolve h a (cs ++ [c]) = Some b ↔
  ∃ p, resolve h a cs = Some p ∧ edge h p c b.
Proof.
  rewrite resolve_app. split.
  - destruct (resolve h a cs) as [p|]; simpl; [|done].
    destruct (h !! p ≫= _) as [b'|] eqn:E; [|done].
    intros [= ->]. exists p. split; [done|]. by apply children_edge.
  - intros (p & -> & He). simpl. apply children_edge in He. by rewrite He.
Qed.

(** In a tree a node has one path from the root. *)
Lemma resolve_inj h root cs1 : ∀ cs2 a,
  tree_shaped h root →
  resolve h root cs1 = Some a → resolve h root cs2 = Some a → cs1 = cs2.
Proof.
  induction cs1 as [|c1 cs1 IH] using rev_ind; intros cs2 a Hts H1 H2.
  - simpl in H1. injection H1 as <-.
    destruct cs2 as [|c2 cs2 _] using rev_ind; [done|].
    apply resolve_snoc in H2 as (p & _ & He).
    by apply tree_shaped_root with (root := root) in He.
  - apply resolve_snoc in H1 as (p1 & Hp1 & He1).
    destruct cs2 as [|c2 cs2 _] using rev_ind.
    + simpl in H2. injection H2 as <-.
      by apply tree_shaped_root with (root := root) in He1.
    + apply resolve_snoc in H2 as (p2 & Hp2 & He2).
      destruct (tree_shaped_unique h root p1 c1 p2 c2 a Hts He1 He2)
        as [<- <-].
      by rewrite (IH cs2 p1 Hts Hp1 Hp2).
Qed.

Lemma wf_node h root cs b :
  wf h root → resolve h root cs = Some b →
  ∃ n, h !! b = Some n ∧ sync n = sync_new.
Proof.
  intros (Hroot & Hq & Hcl & Hts) Hres.
  assert (Hb : is_Some (h !! b)).
  { destruct cs as [|c cs _] using rev_ind.
    - simpl in Hres. by injection Hres as <-.
    - apply resolve_snoc in Hres as (p & _ & He). by eapply closed_edge. }
  destruct Hb as [n Hn]. exists n. split; [done|]. by eapply quiescent_lookup.
Qed.

Lemma wf_child_ne h root pre cur c b :
  wf h root → resolve h root pre = Some cur → edge h cur c b → b ≠ cur.
Proof.
  intros (_ & _ & _ & Hts) Hpre He ->.
  assert (Hsnoc : resolve h root (pre ++ [c]) = Some cur).
  { apply resolve_snoc. by exists cur. }
  pose proof (resolve_inj h root _ _ _ Hts Hsnoc Hpre) as Heq.
  apply (f_equal length) in Heq. rewrite length_app in Heq. simpl in Heq. lia.
Qed.

(** In a tree at rest every walk from a node under the root finds the
    nodes on its way at rest and apart from their parents. *)
Lemma wf_clear_path h root cs : ∀ pre cur,
  wf h root → resolve h root pre = Some cur → clear_path h cur cs.
Proof.
  induction cs as [|c cs IH]; intros pre cur Hwf Hpre; simpl; [done|].
  destruct (h !! cur ≫= _) as [b|] eqn:Hb; [|done].
  apply children_edge in Hb.
  assert (Hsnoc : resolve h root (pre ++ [c]) = Some b).
  { apply resolve_snoc. by exists cur. }
  split; [by eapply wf_child_ne|].
  split; [by eapply wf_node|].
  by apply (IH (pre ++ [c])).
Qed.

End ShapeFacts.

(** ** The hand-over-hand walks *)

Section DescentFacts.

Import PathUtils Monitor Heap TreeOps Shape.

Local Open Scope Z_scope.

Lemma find_node_loop_unfold fuel tree path k :
  find_node_loop (S fuel) tree path k
  = match split_path path with
    | None => mret (0, Some tree)
    | Some (component, path') =>
        next ← hmap_get tree component;
        match next with
        | None => reader_exit_protocol tree ;; mret (ENOENT, None)
        | Some tree' =>
            (if (size_pred k =? 0)%N then writer_entry_protocol tree'
             else reader_entry_protocol tree') ;;
            reader_exit_protocol tree ;;
            find_node_loop fuel tree' path' (size_pred k)
        end
    end.
Proof. reflexivity. Qed.

(** Taking the lock the walk takes on the next node. *)
Lemma entry_run cs a n st :
  heap st !! a = Some n → sync n = sync_new →
  (if (N.of_nat (length cs) =? 0)%N then writer_entry_protocol a
   else reader_entry_protocol a) st
  = Ret () (mkState (lock (mode cs) a (heap st))
                    (trace st ++ [entry_event cs a])).
Proof.
  intros Ha Hs. rewrite of_nat_length_eqb. destruct cs; simpl.
  - by apply writer_entry_run with n.
  - by apply reader_entry_run with n.
Qed.

(** One step of a walk: the child is taken, then the parent released. *)
Lemma hand_over_hand {B} H cs cur next n n' t (k : M B) :
  H !! cur = Some n → sync n = sync_new →
  H !! next = Some n' → sync n' = sync_new → next ≠ cur →
  ((if (N.of_nat (length cs) =? 0)%N then writer_entry_protocol next
    else reader_entry_protocol next) ;;
   reader_exit_protocol cur ;; k) (mkState (lock rlocked cur H) t)
  = k (mkState (lock (mode cs) next H)
               (t ++ [entry_event cs next; EvReaderExit cur])).
Proof.
  intros Hcur Hn Hnext Hn' Hne.
  erewrite bind_Ret; cycle 1.
  { apply entry_run with n'; simpl; [|done].
    by rewrite lock_lookup_ne. }
  erewrite bind_Ret; cycle 1.
  erewrite reader_exit_run; cycle 1.
  { simpl. rewrite lock_lookup_ne by done. by apply lock_lookup_eq. }
  { done. }
  { reflexivity. }
  simpl. rewrite (lock_comm sync_new), lock_lock by done.
  rewrite (lock_id sync_new cur H n) by done.
  by rewrite <- app_assoc.
Qed.

Lemma release_reader H cur n t :
  H !! cur = Some n → sync n = sync_new →
  reader_exit_protocol cur (mkState (lock rlocked cur H) t)
  = Ret () (mkState H (t ++ [EvReaderExit cur])).
Proof.
  intros Hcur Hn. erewrite reader_exit_run; cycle 1.
  { simpl. by apply lock_lookup_eq. }
  { done. }
  simpl. by rewrite lock_lock, (lock_id sync_new cur H n).
Qed.

Lemma release_writer H cur n t :
  H !! cur = Some n → sync n = sync_new →
  writer_exit_protocol cur (mkState (lock wlocked cur H) t)
  = Ret () (mkState H (t ++ [EvWriterExit cur])).
Proof.
  intros Hcur Hn. erewrite writer_exit_run; cycle 1.
  { simpl. by apply lock_lookup_eq. }
  { done. }
  simpl. by rewrite lock_lock, (lock_id sync_new cur H n).
Qed.

(** [find_node] from a node that is held, with as many steps as the path
    has components: the walk ends with the writer lock on the node the
    path names, or, when a component is missing, with no lock at all. *)
Lemma find_node_loop_spec H cs : ∀ cur n t fuel,
  Forall (λ c, no_slash c = true) cs →
  (length cs < fuel)%nat →
  H !! cur = Some n → sync n = sync_new →
  clear_path H cur cs →
  find_node_loop fuel cur (render cs) (N.of_nat (length cs))
    (mkState (lock (mode cs) cur H) t)
  = match resolve H cur cs with
    | Some b =>
        Ret (0, Some b)
          (mkState (lock wlocked b H) (t ++ descent_events H cur cs))
    | None =>
        Ret (ENOENT, None) (mkState H (t ++ descent_events H cur cs))
    end.
Proof.
  induction cs as [|c cs IH]; intros cur n t fuel Hcs Hfuel Hcur Hn Hclear.
  - destruct fuel as [|fuel]; [simpl in Hfuel; lia|].
    rewrite find_node_loop_unfold, split_path_root. simpl.
    by rewrite app_nil_r.
  - destruct fuel as [|fuel]; [simpl in Hfuel; lia|].
    apply Forall_cons in Hcs as [Hc Hcs].
    rewrite find_node_loop_unfold, split_path_render by done.
    erewrite bind_Ret; cycle 1.
    { apply hmap_get_run. simpl. by apply lock_lookup_eq. }
    simpl in *. rewrite Hcur in *. simpl in *.
    destruct (map n !! c) as [next|] eqn:Hnext.
    + destruct Hclear as (Hne & (n' & Hn' & Hs') & Hclear).
      rewrite size_pred_succ.
      rewrite (hand_over_hand H cs cur next n n') by done.
      rewrite (IH next n') by (done || lia).
      destruct (resolve H next cs); by rewrite <- app_assoc.
    + erewrite bind_Ret; cycle 1.
      { by apply release_reader with n. }
      done.
Qed.

Lemma count_slashes_budget cs :
  Forall (λ c, no_slash c = true) cs →
  size_sub (count_slashes (render cs)) 1 = N.of_nat (length cs).
Proof.
  intros Hcs. rewrite count_slashes_render by done. unfold size_sub.
  destruct (N.leb_spec 1 (N.of_nat (length cs) + 1)); lia.
Qed.

Lemma length_render cs :
  Forall (λ c, no_slash c = true) cs →
  (length cs < S (String.length (render cs)))%nat.
Proof. intros H. apply length_render_tail in H. unfold render. simpl. lia. Qed.

(** [find_node] as [tree_create] and [tree_remove] call it. *)
Lemma find_node_spec H cs root n t :
  Forall (λ c, no_slash c = true) cs →
  H !! root = Some n → sync n = sync_new →
  clear_path H root cs →
  find_node root (render cs) (size_sub (count_slashes (render cs)) 1)
    (mkState H t)
  = match resolve H root cs with
    | Some b =>
        Ret (0, Some b)
          (mkState (lock wlocked b H)
             (t ++ entry_event cs root :: descent_events H root cs))
    | None =>
        Ret (ENOENT, None)
          (mkState H (t ++ entry_event cs root :: descent_events H root cs))
    end.
Proof.
  intros Hcs Hroot Hn Hclear. unfold find_node.
  rewrite count_slashes_budget by done.
  erewrite bind_Ret; cycle 1.
  { by apply entry_run with n. }
  cbn [heap trace].
  rewrite (find_node_loop_spec H cs root n) by (done || by apply length_render).
  destruct (resolve H root cs); by rewrite <- app_assoc.
Qed.

Lemma tree_list_loop_unfold fuel tree path :
  tree_list_loop (S fuel) tree path
  = match split_path path with
    | Some (component, path') =>
        next ← hmap_get tree component;
        match next with
        | None => reader_exit_protocol tree ;; mret None
        | Some new_tree =>
            reader_entry_protocol new_tree ;;
            reader_exit_protocol tree ;;
            tree_list_loop fuel new_tree path'
        end
    | None =>
        n ← get_node tree;
        let res := make_map_contents_string (map n) in
        reader_exit_protocol tree ;;
        mret (Some res)
    end.
Proof. reflexivity. Qed.

Lemma listing_cons h a c cs :
  listing h a (c :: cs)
  = match h !! a ≫= λ n, map n !! c with
    | Some b => listing h b cs
    | None => None
    end.
Proof. unfold listing. simpl. by destruct (h !! a ≫= _). Qed.

Lemma tree_list_loop_spec H cs : ∀ cur n t fuel,
  Forall (λ c, no_slash c = true) cs →
  (length cs < fuel)%nat →
  H !! cur = Some n → sync n = sync_new →
  clear_path H cur cs →
  tree_list_loop fuel cur (render cs) (mkState (lock rlocked cur H) t)
  = Ret (listing H cur cs) (mkState H (t ++ reader_events H cur cs)).
Proof.
  induction cs as [|c cs IH]; intros cur n t fuel Hcs Hfuel Hcur Hn Hclear.
  - destruct fuel as [|fuel]; [simpl in Hfuel; lia|].
    rewrite tree_list_loop_unfold, split_path_root.
    erewrite bind_Ret; cycle 1.
    { unfold get_node. simpl. by rewrite (lock_lookup_eq _ _ _ _ Hcur). }
    simpl. erewrite bind_Ret; cycle 1.
    { by apply release_reader with n. }
    unfold listing. simpl. by rewrite Hcur.
  - destruct fuel as [|fuel]; [simpl in Hfuel; lia|].
    apply Forall_cons in Hcs as [Hc Hcs].
    rewrite tree_list_loop_unfold, split_path_render by done.
    erewrite bind_Ret; cycle 1.
    { apply hmap_get_run. simpl. by apply lock_lookup_eq. }
    rewrite listing_cons. simpl in *. rewrite Hcur in *. simpl in *.
    destruct (map n !! c) as [next|] eqn:Hnext.
    + destruct Hclear as (Hne & (n' & Hn' & Hs') & Hclear).
      rewrite (hand_over_hand H [c] cur next n n') by done.
      rewrite (IH next n') by (done || lia).
      by rewrite <- app_assoc.
    + erewrite bind_Ret; cycle 1.
      { by apply release_reader with n. }
      done.
Qed.

(** Below the first node [move_dfs] walks as [find_node] does. *)
Lemma move_dfs_loop_reader fuel : ∀ tree path k st,
  move_dfs_loop fuel tree path k false st = find_node_loop fuel tree path k st.
Proof.
  induction fuel as [|fuel IH]; intros tree path k st; [done|].
  simpl. destruct (split_path path) as [[component path']|]; [|done].
  rewrite !bind_run.
  destruct (hmap_get tree component st) as [[next|] st1|e]; try done.
  rewrite !bind_run.
  destruct ((if (size_pred k =? 0)%N then writer_entry_protocol next
             else reader_entry_protocol next) st1) as [[] st2|e]; [|done].
  rewrite !bind_run.
  destruct (reader_exit_protocol tree st2) as [[] st3|e]; [|done].
  apply IH.
Qed.

Lemma move_dfs_loop_unfold fuel tree path k :
  move_dfs_loop (S fuel) tree path k true
  = match split_path path with
    | None => mret (0, Some tree)
    | Some (component, path') =>
        next ← hmap_get tree component;
        match next with
        | None => mret () ;; mret (ENOENT, None)
        | Some tree' =>
            (if (size_pred k =? 0)%N then writer_entry_protocol tree'
             else reader_entry_protocol tree') ;;
            mret () ;;
            move_dfs_loop fuel tree' path' (size_pred k) false
        end
    end.
Proof. reflexivity. Qed.

(** [move_dfs] from a node the caller holds, with as many steps as the
    branch has components. *)
Lemma move_dfs_spec G cs lca nl t :
  Forall (λ c, no_slash c = true) cs →
  G !! lca = Some nl →
  clear_path G lca cs →
  move_dfs lca (Some (render cs)) (N.of_nat (length cs)) (mkState G t)
  = match resolve G lca cs with
    | Some b =>
        Ret (0, Some b)
          (mkState (branch_lock cs b G) (t ++ branch_events G lca cs))
    | None =>
        Ret (ENOENT, None) (mkState G (t ++ branch_events G lca cs))
    end.
Proof.
  intros Hcs Hlca Hclear. unfold move_dfs.
  rewrite move_dfs_loop_unfold.
  destruct cs as [|c cs].
  { rewrite split_path_root. simpl. by rewrite app_nil_r. }
  apply Forall_cons in Hcs as [Hc Hcs].
  rewrite split_path_render by done.
  erewrite bind_Ret; cycle 1.
  { by apply hmap_get_run. }
  assert (Hchild : (G !! lca ≫= λ n, map n !! c) = map nl !! c)
    by (by rewrite Hlca).
  cbn [clear_path resolve branch_events branch_lock] in Hclear |- *.
  rewrite Hchild in *. cbn [length].
  destruct (map nl !! c) as [next|] eqn:Hnext.
  - destruct Hclear as (Hne & (n' & Hn' & Hs') & Hclear).
    rewrite size_pred_succ.
    erewrite bind_Ret; cycle 1.
    { by apply entry_run with n'. }
    rewrite bind_run, mret_run. cbn [heap trace].
    rewrite move_dfs_loop_reader.
    rewrite (find_node_loop_spec G cs next n'); try done.
    + destruct (resolve G next cs); by rewrite <- app_assoc.
    + pose proof (length_render cs Hcs) as Hlen.
      unfold render in *. simpl in *. rewrite length_app_str. simpl. lia.
  - rewrite bind_run, mret_run, mret_run. by rewrite app_nil_r.
Qed.

Lemma shared_loop_unfold fuel common source target source_tree target_tree :
  shared_loop (S fuel) common source target source_tree target_tree
  = if (0 <? common)%N then
      s ← split_ptr source;
      t ← split_ptr target;
      match s with
      | None => mret (0, None, snd <$> t, target_tree)
      | Some (source_component, source') =>
          next ← hmap_get source_tree
                   match t with
                   | Some (target_component, _) => target_component
                   | None => source_component
                   end;
          match next with
          | None =>
              reader_exit_protocol source_tree ;;
              mret (ENOENT, Some source', snd <$> t, target_tree)
          | Some tree' =>
              (if (size_pred common =? 0)%N then writer_entry_protocol tree'
               else reader_entry_protocol tree') ;;
              reader_exit_protocol source_tree ;;
              shared_loop fuel (size_pred common) (Some source') (snd <$> t)
                tree' tree'
          end
      end
    else mret (0, source, target, target_tree).
Proof. reflexivity. Qed.

(** The walk of [tree_move] down the components its two paths share. *)
Lemma shared_loop_spec H pre S' T' : ∀ cur n t fuel,
  Forall (λ c, no_slash c = true) pre →
  (length pre < fuel)%nat →
  H !! cur = Some n → sync n = sync_new →
  clear_path H cur pre →
  match resolve H cur pre with
  | Some lca =>
      shared_loop fuel (N.of_nat (length pre))
        (Some (render (pre ++ S'))) (Some (render (pre ++ T'))) cur cur
        (mkState (lock (mode pre) cur H) t)
      = Ret (0, Some (render S'), Some (render T'), lca)
          (mkState (lock wlocked lca H) (t ++ descent_events H cur pre))
  | None =>
      ∃ src tgt tt,
        shared_loop fuel (N.of_nat (length pre))
          (Some (render (pre ++ S'))) (Some (render (pre ++ T'))) cur cur
          (mkState (lock (mode pre) cur H) t)
        = Ret (ENOENT, src, tgt, tt)
            (mkState H (t ++ descent_events H cur pre))
  end.
Proof.
  induction pre as [|c pre IH]; intros cur n t fuel Hpre Hfuel Hcur Hn Hclear.
  - destruct fuel as [|fuel]; [simpl in Hfuel; lia|].
    rewrite shared_loop_unfold. simpl. by rewrite app_nil_r.
  - destruct fuel as [|fuel]; [simpl in Hfuel; lia|].
    apply Forall_cons in Hpre as [Hc Hpre].
    assert (Hchild : (H !! cur ≫= λ n, map n !! c) = map n !! c)
      by (by rewrite Hcur).
    cbn [clear_path resolve descent_events] in Hclear |- *.
    rewrite Hchild in *.
    rewrite shared_loop_unfold. cbn [length].
    replace (0 <? N.of_nat (S (length pre)))%N with true
      by (symmetry; apply N.ltb_lt; lia).
    rewrite <- !app_comm_cons.
    unfold split_ptr. rewrite !split_path_render by done.
    rewrite !bind_mret. cbn [fmap option_fmap option_map snd].
    erewrite bind_Ret; cycle 1.
    { apply hmap_get_run. cbn [heap]. by apply lock_lookup_eq. }
    cbn [map].
    destruct (map n !! c) as [next|] eqn:Hnext.
    + destruct Hclear as (Hne & (n' & Hn' & Hs') & Hclear).
      rewrite size_pred_succ.
      rewrite (hand_over_hand H pre cur next n n') by done.
      cbn [length] in Hfuel.
      specialize (IH next n' (t ++ [entry_event pre next; EvReaderExit cur])
                    fuel Hpre ltac:(lia) Hn' Hs' Hclear).
      destruct (resolve H next pre).
      * rewrite IH. by rewrite <- app_assoc.
      * destruct IH as (src & tgt & tt & IH). exists src, tgt, tt.
        rewrite IH. by rewrite <- app_assoc.
    + erewrite bind_Ret; cycle 1.
      { by apply release_reader with n. }
      by eexists _, _, _.
Qed.

End DescentFacts.

(** ** [tree_list], [tree_create] and [tree_remove] on a tree at rest *)

Section CreateRemoveFacts.

Import PathUtils Monitor Heap TreeOps Shape.

Variable MAX_FOLDER_NAME_LENGTH : nat.

Local Abbreviation is_path_valid := (is_path_valid MAX_FOLDER_NAME_LENGTH).
Local Abbreviation is_name_valid := (is_name_valid MAX_FOLDER_NAME_LENGTH).
Local Abbreviation tree_list := (tree_list MAX_FOLDER_NAME_LENGTH).
Local Abbreviation tree_create := (tree_create MAX_FOLDER_NAME_LENGTH).
Local Abbreviation tree_remove := (tree_remove MAX_FOLDER_NAME_LENGTH).

Local Open Scope Z_scope.

Lemma link_lookup c x b h k :
  link c x b h !! k
  = if decide (b = k)
    then (λ n, mkTree (<[c := x]> (map n)) (sync n)) <$> h !! k
    else h !! k.
Proof.
  unfold link. case_decide as Hab.
  - subst. by rewrite lookup_alter_eq.
  - by rewrite lookup_alter_ne.
Qed.

Lemma unlink_lookup c b h k :
  unlink c b h !! k
  = if decide (b = k)
    then (λ n, mkTree (delete c (map n)) (sync n)) <$> h !! k
    else h !! k.
Proof.
  unfold unlink. case_decide as Hab.
  - subst. by rewrite lookup_alter_eq.
  - by rewrite lookup_alter_ne.
Qed.

Lemma hmap_insert_run b key v nb st :
  heap st !! b = Some nb →
  hmap_insert b key v st = Ret () (mkState (link key v b (heap st)) (trace st)).
Proof.
  intros Hb. unfold hmap_insert, get_node, put_node.
  rewrite bind_run, Hb. do 2 f_equal.
  apply map_eq; intros k. rewrite link_lookup, lookup_insert.
  case_decide; [|done]. subst. by rewrite Hb.
Qed.

Lemma hmap_remove_run b key nb st :
  heap st !! b = Some nb →
  hmap_remove b key st = Ret () (mkState (unlink key b (heap st)) (trace st)).
Proof.
  intros Hb. unfold hmap_remove, get_node, put_node.
  rewrite bind_run, Hb. do 2 f_equal.
  apply map_eq; intros k. rewrite unlink_lookup, lookup_insert.
  case_decide; [|done]. subst. by rewrite Hb.
Qed.

Lemma hmap_insert_some b key v st :
  is_Some (heap st !! b) →
  hmap_insert b key v st = Ret () (mkState (link key v b (heap st)) (trace st)).
Proof. intros [nb Hb]. by apply hmap_insert_run with nb. Qed.

Lemma hmap_remove_some b key st :
  is_Some (heap st !! b) →
  hmap_remove b key st = Ret () (mkState (unlink key b (heap st)) (trace st)).
Proof. intros [nb Hb]. by apply hmap_remove_run with nb. Qed.

Lemma lock_link s a c x b h : lock s a (link c x b h) = link c x b (lock s a h).
Proof.
  apply map_eq; intros k. rewrite !lock_lookup, !link_lookup, !lock_lookup.
  repeat case_decide; try done; by destruct (h !! k).
Qed.

Lemma lock_unlink s a c b h : lock s a (unlink c b h) = unlink c b (lock s a h).
Proof.
  apply map_eq; intros k. rewrite !lock_lookup, !unlink_lookup, !lock_lookup.
  repeat case_decide; try done; by destruct (h !! k).
Qed.

Lemma lock_insert_ne s a x v h :
  a ≠ x → lock s a (<[x := v]> h) = <[x := v]> (lock s a h).
Proof.
  intros Hne. apply map_eq; intros k.
  rewrite !lock_lookup, !lookup_insert, !lock_lookup.
  repeat case_decide; try done; congruence.
Qed.

Lemma lock_delete_ne s a x h :
  a ≠ x → lock s a (delete x h) = delete x (lock s a h).
Proof.
  intros Hne. apply map_eq; intros k.
  rewrite !lock_lookup, !lookup_delete, !lock_lookup.
  repeat case_decide; try done; congruence.
Qed.

Lemma unlock_after s a h n :
  h !! a = Some n → sync n = sync_new → lock sync_new a (lock s a h) = h.
Proof. intros Ha Hs. rewrite lock_lock. by apply lock_id with n. Qed.

Lemma fresh_not_in (h : gmap addr Tree) : h !! fresh (dom h) = None.
Proof. apply not_elem_of_dom, is_fresh. Qed.

Lemma is_root_render_snoc cs c : is_root (render (cs ++ [c])) = false.
Proof. rewrite is_root_render. by destruct cs. Qed.

Lemma tree_list_spec h root cs t :
  wf h root →
  is_path_valid (render cs) = true →
  Forall (λ c, no_slash c = true) cs →
  tree_list root (render cs) (mkState h t)
  = Ret (listing h root cs)
        (mkState h (t ++ EvReaderEntry root :: reader_events h root cs)).
Proof.
  intros Hwf Hvalid Hcs. unfold TreeOps.tree_list. rewrite Hvalid. cbn [negb].
  destruct (wf_node h root [] root Hwf eq_refl) as (n & Hroot & Hn).
  erewrite bind_Ret; cycle 1.
  { by apply reader_entry_run with n. }
  cbn [heap trace].
  rewrite (tree_list_loop_spec h cs root n); try done.
  - by rewrite <- app_assoc.
  - by apply length_render.
  - by apply wf_clear_path with root [].
Qed.

Lemma tree_create_spec h root cs c t :
  wf h root →
  is_path_valid (render (cs ++ [c])) = true →
  Forall (λ c, no_slash c = true) (cs ++ [c]) →
  ∃ t',
    tree_create root (render (cs ++ [c])) (mkState h t)
    = Ret (create_outcome h root cs c).1
          (mkState (create_outcome h root cs c).2 t').
Proof.
  intros Hwf Hvalid Hall. unfold TreeOps.tree_create, create_outcome.
  rewrite Hvalid. cbn [negb].
  rewrite is_root_render_snoc.
  rewrite make_path_to_parent_render by done.
  apply Forall_app in Hall as [Hcs Hc].
  destruct (wf_node h root [] root Hwf eq_refl) as (n & Hroot & Hn).
  rewrite bind_run, (find_node_spec h cs root n)
    by (done || by apply wf_clear_path with root []).
  destruct (resolve h root cs) as [b|] eqn:Hres; cbn [fst snd].
  2: { rewrite decide_True by done. by eexists. }
  rewrite decide_False by (intros H; by apply H).
  destruct (wf_node h root cs b Hwf Hres) as (nb & Hb & Hnb).
  erewrite bind_Ret; cycle 1.
  { apply hmap_get_run. cbn [heap]. by apply lock_lookup_eq. }
  rewrite Hb. cbn [map mbind option_bind].
  destruct (map nb !! c) as [x|] eqn:Hx; cbn [fst snd].
  - rewrite bind_run, mret_run.
    erewrite bind_Ret; cycle 1.
    { by apply release_writer with nb. }
    by eexists.
  - rewrite bind_run. rewrite (bind_run tree_new).
    unfold tree_new at 1. cbn [heap trace].
    rewrite dom_lock.
    pose proof (fresh_not_in h) as Hfresh.
    set (son := fresh (dom h)) in *.
    assert (Hne : b ≠ son) by congruence.
    erewrite bind_Ret; cycle 1.
    { eapply hmap_insert_run. cbn [heap].
      rewrite lookup_insert_ne by done. by apply lock_lookup_eq. }
    rewrite mret_run. cbn [heap trace].
    erewrite bind_Ret; cycle 1.
    { eapply writer_exit_run; cbn [heap].
      - rewrite link_lookup, decide_True by done.
        rewrite lookup_insert_ne by done.
        by rewrite (lock_lookup_eq _ _ _ _ Hb).
      - done. }
    cbn [heap trace]. rewrite mret_run. eexists. do 2 f_equal.
    unfold created. fold son.
    rewrite lock_link, lock_insert_ne by done.
    by rewrite (unlock_after _ _ _ nb).
Qed.

Lemma tree_free_leaf fuel son ns st :
  fuel ≠ 0%nat → heap st !! son = Some ns → map ns = ∅ →
  tree_free fuel son st = Ret () (mkState (delete son (heap st)) (trace st)).
Proof.
  intros Hfuel Hson Hempty. destruct fuel as [|fuel]; [done|].
  simpl. unfold get_node at 1. rewrite bind_run, Hson, Hempty.
  rewrite map_to_list_empty. simpl.
  rewrite bind_run, mret_run. unfold free_node. by rewrite Hson.
Qed.

Lemma size_heap_nonzero (h : gmap addr Tree) a n :
  h !! a = Some n → size h ≠ 0%nat.
Proof.
  intros Ha Hsize. apply map_size_empty_inv in Hsize. subst.
  by rewrite lookup_empty in Ha.
Qed.

Lemma tree_remove_spec h root cs c t :
  wf h root →
  is_path_valid (render (cs ++ [c])) = true →
  Forall (λ c, no_slash c = true) (cs ++ [c]) →
  ∃ t',
    tree_remove root (render (cs ++ [c])) (mkState h t)
    = Ret (remove_outcome h root cs c).1
          (mkState (remove_outcome h root cs c).2 t').
Proof.
  intros Hwf Hvalid Hall. unfold TreeOps.tree_remove, remove_outcome.
  rewrite Hvalid. cbn [negb].
  rewrite is_root_render_snoc.
  rewrite make_path_to_parent_render by done.
  apply Forall_app in Hall as [Hcs Hc].
  destruct (wf_node h root [] root Hwf eq_refl) as (n & Hroot & Hn).
  rewrite bind_run, (find_node_spec h cs root n)
    by (done || by apply wf_clear_path with root []).
  destruct (resolve h root cs) as [b|] eqn:Hres; cbn [fst snd].
  2: { rewrite decide_True by done. by eexists. }
  rewrite decide_False by (intros H; by apply H).
  destruct (wf_node h root cs b Hwf Hres) as (nb & Hb & Hnb).
  erewrite bind_Ret; cycle 1.
  { apply hmap_get_run. cbn [heap]. by apply lock_lookup_eq. }
  rewrite Hb. cbn [map mbind option_bind].
  destruct (map nb !! c) as [son|] eqn:Hson; cbn [fst snd].
  - assert (He : edge h b c son) by (by exists nb).
    assert (Hres' : resolve h root (cs ++ [c]) = Some son).
    { apply resolve_snoc. by exists b. }
    destruct (wf_node h root _ son Hwf Hres') as (ns & Hs & Hns).
    pose proof (wf_child_ne h root cs b c son Hwf Hres He) as Hne.
    rewrite Hs.
    rewrite bind_run.
    erewrite bind_Ret; cycle 1.
    { apply wait_clear_run with ns; cbn [heap]; [|done].
      by rewrite lock_lookup_ne. }
    erewrite bind_Ret; cycle 1.
    { apply hmap_size_run. cbn [heap]. by rewrite lock_lookup_ne. }
    destruct (decide (size (map ns) ≠ 0%nat)) as [Hsize|Hsize].
    + rewrite mret_run. cbn [fst snd].
      rewrite bind_run, mret_run.
      erewrite bind_Ret; cycle 1.
      { by apply release_writer with nb. }
      by eexists.
    + rewrite mret_run. cbn [fst snd].
      assert (Hempty : map ns = ∅).
      { apply map_size_empty_inv.
        destruct (decide (size (map ns) = 0%nat)); [done|by destruct Hsize]. }
      erewrite bind_Ret; cycle 1.
      { erewrite bind_Ret; cycle 1.
        { eapply hmap_remove_run. cbn [heap]. by apply lock_lookup_eq. }
        rewrite bind_run. unfold heap_size at 1. cbn [heap trace].
        eapply tree_free_leaf; cbn [heap].
        - eapply size_heap_nonzero.
          rewrite unlink_lookup, decide_False by done.
          by rewrite lock_lookup_ne.
        - rewrite unlink_lookup, decide_False by done.
          by rewrite lock_lookup_ne.
        - done. }
      cbn [heap trace].
      erewrite bind_Ret; cycle 1.
      { eapply writer_exit_run; cbn [heap].
        - rewrite lookup_delete_ne by done.
          rewrite unlink_lookup, decide_True by done.
          by rewrite (lock_lookup_eq _ _ _ _ Hb).
        - done. }
      cbn [heap trace]. rewrite mret_run. eexists. do 2 f_equal.
      unfold removed.
      rewrite lock_delete_ne, lock_unlink by done.
      by rewrite (unlock_after _ _ _ nb).
  - rewrite bind_run, mret_run. cbn [fst snd].
    rewrite bind_run, mret_run.
    erewrite bind_Ret; cycle 1.
    { by apply release_writer with nb. }
    by eexists.
Qed.

(** *** The stores left by [tree_create] and [tree_remove] are trees at rest *)

Lemma created_lookup h b c k :
  created h b c !! k
  = if decide (b = k)
    then (λ n, mkTree (<[c := fresh (dom h)]> (map n)) (sync n))
           <$> (<[fresh (dom h) := mkTree ∅ sync_new]> h) !! k
    else (<[fresh (dom h) := mkTree ∅ sync_new]> h) !! k.
Proof. unfold created. by rewrite link_lookup. Qed.

Lemma edge_created h b c nb a k x :
  h !! b = Some nb → map nb !! c = None →
  edge (created h b c) a k x ↔
  edge h a k x ∨ (a = b ∧ k = c ∧ x = fresh (dom h)).
Proof.
  intros Hb Hc. pose proof (fresh_not_in h) as Hfresh.
  set (son := fresh (dom h)) in *.
  assert (Hne : b ≠ son) by congruence.
  unfold edge. rewrite created_lookup. fold son. split.
  - intros (n & Hn & Hk). case_decide as Hab.
    + subst a. rewrite lookup_insert_ne, Hb in Hn by done.
      injection Hn as <-. cbn [map] in Hk.
      apply lookup_insert_Some in Hk as [[<- <-]|[Hck Hk]]; [by right|].
      left. by exists nb.
    + apply lookup_insert_Some in Hn as [[<- <-]|[_ Hn]].
      * cbn [map] in Hk. by rewrite lookup_empty in Hk.
      * left. by exists n.
  - intros [(n & Hn & Hk)|(-> & -> & ->)].
    + case_decide as Hab.
      * subst a. rewrite lookup_insert_ne, Hb by done.
        eexists. split; [done|]. cbn [map].
        assert (n = nb) by congruence. subst n.
        rewrite lookup_insert_ne; [done|]. intros ->. congruence.
      * exists n. split; [|done].
        rewrite lookup_insert_ne; [done|]. intros <-. congruence.
    + rewrite decide_True by done. rewrite lookup_insert_ne, Hb by done.
      eexists. split; [done|]. cbn [map]. by rewrite lookup_insert_eq.
Qed.

Lemma created_is_Some h b c x :
  is_Some (h !! x) ∨ x = fresh (dom h) → is_Some (created h b c !! x).
Proof.
  intros Hx. rewrite created_lookup.
  assert (is_Some ((<[fresh (dom h) := mkTree ∅ sync_new]> h) !! x))
    as [n Hn].
  { destruct Hx as [[n Hn]| ->].
    - rewrite lookup_insert. case_decide; eauto.
    - rewrite lookup_insert_eq. eauto. }
  rewrite Hn. case_decide; simpl; eauto.
Qed.

Lemma wf_created h root b c nb :
  wf h root → h !! b = Some nb → map nb !! c = None →
  wf (created h b c) root.
Proof.
  intros (Hroot & Hq & Hcl & Hts) Hb Hc.
  pose proof (fresh_not_in h) as Hfresh.
  pose proof (λ a k x, edge_created h b c nb a k x Hb Hc) as Hedge.
  split; [|split; [|split]].
  - apply created_is_Some. by left.
  - intros a n. rewrite created_lookup. intros Hn.
    assert (∃ n0, (<[fresh (dom h) := mkTree ∅ sync_new]> h) !! a = Some n0
                  ∧ sync n = sync n0) as (n0 & Hn0 & ->).
    { case_decide; [|by exists n].
      destruct (_ !! a) as [n0|]; [|done]. injection Hn as <-. by exists n0. }
    apply lookup_insert_Some in Hn0 as [[_ Heq]|[_ Hn0]]; [by subst n0|].
    by eapply quiescent_lookup.
  - apply closed_intro. intros a k x He.
    apply Hedge in He as [He|(_ & _ & ->)].
    + apply created_is_Some. left. by eapply closed_edge.
    + apply created_is_Some. by right.
  - apply tree_shaped_intro.
    + intros a k He. apply Hedge in He as [He|(_ & _ & Hx)].
      * by apply tree_shaped_root with (root := root) in He.
      * destruct Hroot as [nr Hnr]. congruence.
    + intros a1 k1 a2 k2 x He1 He2.
      apply Hedge in He1 as [He1|(-> & -> & ->)];
        apply Hedge in He2 as [He2|(-> & -> & Hx)]; try done.
      * by eapply tree_shaped_unique.
      * subst x. destruct (closed_edge _ _ _ _ Hcl He1). congruence.
      * destruct (closed_edge _ _ _ _ Hcl He2). congruence.
Qed.

Lemma removed_lookup h b c son k :
  removed h b c son !! k
  = if decide (son = k) then None
    else if decide (b = k)
         then (λ n, mkTree (delete c (map n)) (sync n)) <$> h !! k
         else h !! k.
Proof.
  unfold removed. rewrite lookup_delete. case_decide; [done|].
  by rewrite unlink_lookup.
Qed.

Lemma edge_removed h b c son nb ns a k x :
  h !! b = Some nb → map nb !! c = Some son →
  h !! son = Some ns → map ns = ∅ → son ≠ b →
  edge (removed h b c son) a k x ↔ edge h a k x ∧ ¬ (a = b ∧ k = c).
Proof.
  intros Hb Hc Hs Hempty Hne. unfold edge. rewrite removed_lookup. split.
  - intros (n & Hn & Hk). case_decide as Hsa; [done|].
    case_decide as Hba.
    + subst a. rewrite Hb in Hn. injection Hn as <-. cbn [map] in Hk.
      apply lookup_delete_Some in Hk as [Hck Hk].
      split; [by exists nb|]. intros [_ ->]. done.
    + split; [by exists n|]. intros [-> _]. done.
  - intros [(n & Hn & Hk) Hnot]. case_decide as Hsa.
    { subst a. assert (n = ns) by congruence. subst n.
      by rewrite Hempty, lookup_empty in Hk. }
    case_decide as Hba.
    + subst a. rewrite Hn. eexists. split; [done|]. cbn [map].
      rewrite lookup_delete_ne; [done|]. intros ->. by apply Hnot.
    + by exists n.
Qed.

Lemma wf_removed h root b c son nb ns :
  wf h root → h !! b = Some nb → map nb !! c = Some son →
  h !! son = Some ns → map ns = ∅ →
  wf (removed h b c son) root.
Proof.
  intros (Hroot & Hq & Hcl & Hts) Hb Hc Hs Hempty.
  assert (He : edge h b c son) by (by exists nb).
  assert (Hne : son ≠ b).
  { intros ->. assert (nb = ns) by congruence. subst nb.
    by rewrite Hempty, lookup_empty in Hc. }
  assert (Hsr : son ≠ root).
  { intros ->. by apply tree_shaped_root with (root := root) in He. }
  pose proof (λ a k x, edge_removed h b c son nb ns a k x Hb Hc Hs Hempty Hne)
    as Hedge.
  assert (Hsome : ∀ x, is_Some (h !! x) → x ≠ son →
                       is_Some (removed h b c son !! x)).
  { intros x [n Hn] Hx. rewrite removed_lookup.
    rewrite decide_False by done. rewrite Hn. case_decide; simpl; eauto. }
  split; [|split; [|split]].
  - by apply Hsome.
  - intros a n. rewrite removed_lookup. intros Hn.
    case_decide; [done|].
    assert (∃ n0, h !! a = Some n0 ∧ sync n = sync n0) as (n0 & Hn0 & ->).
    { case_decide; [|by exists n].
      destruct (h !! a) as [n0|]; [|done]. injection Hn as <-. by exists n0. }
    by eapply quiescent_lookup.
  - apply closed_intro. intros a k x Hx.
    apply Hedge in Hx as [Hx Hnot].
    apply Hsome; [by eapply closed_edge|]. intros ->.
    apply Hnot. by eapply tree_shaped_unique.
  - apply tree_shaped_intro.
    + intros a k Hx. apply Hedge in Hx as [Hx _].
      by apply tree_shaped_root with (root := root) in Hx.
    + intros a1 k1 a2 k2 x He1 He2.
      apply Hedge in He1 as [He1 _].
      apply Hedge in He2 as [He2 _].
      by eapply tree_shaped_unique.
Qed.

End CreateRemoveFacts.

(** ** The string [tree_list] returns *)

Section ListingFacts.

Import PathUtils Monitor Heap TreeOps Shape.

Variable MAX_FOLDER_NAME_LENGTH : nat.

Local Abbreviation is_name_valid := (is_name_valid MAX_FOLDER_NAME_LENGTH).

Lemma entries_go_name cur k :
  no_comma k = true → entries_go cur k = [cur +:+ k].
Proof.
  revert cur. induction k as [|a k IH]; intros cur; simpl.
  - intros _. by rewrite app_empty_r.
  - intros [Ha Hk]%andb_true_iff. apply negb_true_iff in Ha.
    rewrite Ha, IH by done. by rewrite app_assoc_str.
Qed.

Lemma entries_go_sep cur k rest :
  no_comma k = true →
  entries_go cur (k +:+ String ","%char rest)
  = (cur +:+ k) :: entries_go EmptyString rest.
Proof.
  revert cur. induction k as [|a k IH]; intros cur.
  - intros _. by rewrite app_empty_l, app_empty_r.
  - rewrite app_cons; simpl. intros [Ha Hk]%andb_true_iff.
    apply negb_true_iff in Ha. rewrite Ha, IH by done.
    by rewrite app_assoc_str.
Qed.

Lemma entries_go_join k ks :
  Forall (λ k, no_comma k = true) (k :: ks) →
  entries_go EmptyString (join_commas (k :: ks)) = k :: ks.
Proof.
  revert k. induction ks as [|k' ks IH]; intros k Hall.
  - apply Forall_cons in Hall as [Hk _]. simpl.
    by rewrite entries_go_name.
  - apply Forall_cons in Hall as [Hk Hall].
    change (join_commas (k :: k' :: ks))
      with (k +:+ String ","%char (join_commas (k' :: ks))).
    rewrite entries_go_sep by done. by rewrite IH.
Qed.

Lemma entries_join ks :
  Forall (λ k, no_comma k = true) ks → Forall (λ k, k ≠ EmptyString) ks →
  entries (join_commas ks) = ks.
Proof.
  intros Hall Hne. destruct ks as [|k ks]; [done|].
  unfold entries. rewrite entries_go_join by done.
  destruct (join_commas (k :: ks)) eqn:E; [|done].
  apply Forall_cons in Hne as [Hk _].
  destruct ks; simpl in E; [done|]. by destruct k.
Qed.

Lemma permitted_not_comma c :
  is_permitted c = true → Ascii.eqb c ","%char = false.
Proof.
  unfold is_permitted. intros H.
  destruct (Ascii.eqb_spec c ","%char) as [->|]; [|done].
  vm_compute in H. discriminate.
Qed.

Lemma name_valid_no_comma c : is_name_valid c = true → no_comma c = true.
Proof.
  unfold PathUtils.is_name_valid. intros [_ H]%andb_true_iff.
  induction c as [|a c IH]; simpl in *; [done|].
  apply andb_true_iff in H as [Ha Hc].
  by rewrite (permitted_not_comma a Ha), IH.
Qed.

(** The names a listing shows are the keys of the map. *)
Lemma elem_of_entries (m : gmap string addr) c :
  map_Forall (λ k _, is_name_valid k = true) m →
  c ∈ entries (make_map_contents_string m) ↔ is_Some (m !! c).
Proof.
  intros Hm. unfold make_map_contents_string.
  assert (Hkeys : ∀ k, k ∈ (map_to_list m).*1 → is_name_valid k = true).
  { intros k Hk. apply list_elem_of_fmap in Hk as ([k' x] & -> & Hkx).
    apply elem_of_map_to_list in Hkx. by apply (Hm k' x). }
  rewrite entries_join.
  - split.
    + intros Hk. apply list_elem_of_fmap in Hk as ([k' x] & -> & Hkx).
      apply elem_of_map_to_list in Hkx. by exists x.
    + intros [x Hx]. apply list_elem_of_fmap. exists (c, x).
      split; [done|]. by apply elem_of_map_to_list.
  - apply Forall_forall. intros k Hk.
    by apply name_valid_no_comma, Hkeys.
  - apply Forall_forall. intros k Hk.
    by apply (name_valid_nonempty MAX_FOLDER_NAME_LENGTH), Hkeys.
Qed.

End ListingFacts.

(** ** Several nodes held at once *)

Section LockSetFacts.

Import PathUtils Monitor Heap TreeOps Shape.

Local Open Scope Z_scope.

Lemma lock_set_lookup X h a :
  lock_set X h !! a
  = (λ n, if decide (a ∈ X) then mkTree (map n) wlocked else n) <$> h !! a.
Proof.
  unfold lock_set. rewrite map_lookup_imap. by destruct (h !! a).
Qed.

Lemma lock_set_empty h : lock_set ∅ h = h.
Proof.
  apply map_eq; intros a. rewrite lock_set_lookup.
  destruct (h !! a); [|done]. simpl. by rewrite decide_False by set_solver.
Qed.

Lemma lock_lock_set a X h :
  lock wlocked a (lock_set X h) = lock_set ({[a]} ∪ X) h.
Proof.
  apply map_eq; intros k. rewrite lock_lookup, !lock_set_lookup.
  destruct (h !! k) as [n|]; [|by case_decide]. simpl.
  case_decide as Hak.
  - subst. rewrite (decide_True (P := k ∈ {[k]} ∪ X)) by set_solver.
    by case_decide.
  - destruct (decide (k ∈ X)).
    + by rewrite decide_True by set_solver.
    + by rewrite decide_False by set_solver.
Qed.

Lemma lock_set_singleton a h : lock wlocked a h = lock_set {[a]} h.
Proof.
  rewrite <- (lock_set_empty h) at 1. rewrite lock_lock_set.
  f_equal. set_solver.
Qed.

Lemma unlock_lock_set a X h n :
  h !! a = Some n → sync n = sync_new →
  lock sync_new a (lock_set X h) = lock_set (X ∖ {[a]}) h.
Proof.
  intros Ha Hn. apply map_eq; intros k. rewrite lock_lookup, !lock_set_lookup.
  case_decide as Hak.
  - subst. rewrite Ha. simpl.
    rewrite (decide_False (P := k ∈ X ∖ {[k]})) by set_solver.
    destruct n; simpl in *; subst. by case_decide.
  - destruct (h !! k) as [n'|]; [|done]. simpl.
    destruct (decide (k ∈ X)).
    + by rewrite decide_True by set_solver.
    + by rewrite decide_False by set_solver.
Qed.

Lemma children_lock_set X h b c :
  (lock_set X h !! b ≫= λ n, map n !! c) = (h !! b ≫= λ n, map n !! c).
Proof.
  rewrite lock_set_lookup. destruct (h !! b); [|done]. simpl. by case_decide.
Qed.

Lemma resolve_lock_set X h b cs : resolve (lock_set X h) b cs = resolve h b cs.
Proof.
  revert b. induction cs as [|c cs IH]; intros b; simpl; [done|].
  rewrite children_lock_set. destruct (h !! b ≫= _); auto.
Qed.

Lemma descent_events_lock_set X h b cs :
  descent_events (lock_set X h) b cs = descent_events h b cs.
Proof.
  revert b. induction cs as [|c cs IH]; intros b; simpl; [done|].
  rewrite children_lock_set. destruct (h !! b ≫= _); [|done]. by rewrite IH.
Qed.

Lemma lock_set_free X h a n :
  h !! a = Some n → a ∉ X → lock_set X h !! a = Some n.
Proof.
  intros Ha Hx. rewrite lock_set_lookup, Ha. simpl. by rewrite decide_False.
Qed.

Lemma lock_set_held X h a n :
  h !! a = Some n → a ∈ X →
  lock_set X h !! a = Some (mkTree (map n) wlocked).
Proof.
  intros Ha Hx. rewrite lock_set_lookup, Ha. simpl. by rewrite decide_True.
Qed.

Lemma lock_set_is_Some X h a : is_Some (h !! a) → is_Some (lock_set X h !! a).
Proof. intros [n Hn]. rewrite lock_set_lookup, Hn. simpl. eauto. Qed.

Lemma dom_lock_set X h : dom (lock_set X h) = dom h.
Proof.
  apply set_eq; intros a. rewrite !elem_of_dom, lock_set_lookup.
  by rewrite fmap_is_Some.
Qed.

Lemma size_lock_set X h : size (lock_set X h) = size h.
Proof. rewrite <- !size_dom. by rewrite dom_lock_set. Qed.

(** A held node is released. *)
Lemma release_held X h a n t :
  h !! a = Some n → sync n = sync_new → a ∈ X →
  writer_exit_protocol a (mkState (lock_set X h) t)
  = Ret () (mkState (lock_set (X ∖ {[a]}) h) (t ++ [EvWriterExit a])).
Proof.
  intros Ha Hn Hx. erewrite writer_exit_run; cycle 1.
  { cbn [heap]. by apply lock_set_held. }
  { done. }
  cbn [heap trace]. by rewrite (unlock_lock_set a X h n).
Qed.

(** The walk below a node finds the nodes at rest when none of them is
    held. *)
Lemma clear_path_lock_set X h cs : ∀ cur,
  clear_path h cur cs →
  (∀ cs1 c x, (cs1 ++ [c]) `prefix_of` cs →
     resolve h cur (cs1 ++ [c]) = Some x → x ∉ X) →
  clear_path (lock_set X h) cur cs.
Proof.
  induction cs as [|c cs IH]; intros cur Hclear Hfree; simpl; [done|].
  rewrite children_lock_set. simpl in Hclear.
  destruct (h !! cur ≫= _) as [b|] eqn:Hb; [|done].
  destruct Hclear as (Hne & (n & Hn & Hs) & Hclear).
  split; [done|]. split.
  - exists n. split; [|done]. apply lock_set_free; [done|].
    apply (Hfree [] c b).
    + by apply prefix_cons, prefix_nil.
    + simpl. by rewrite Hb.
  - apply IH; [done|]. intros cs1 c1 x Hpre Hres.
    apply (Hfree (c :: cs1) c1 x).
    + simpl. by apply prefix_cons.
    + simpl. by rewrite Hb.
Qed.

Lemma lock_set_link X c x b h :
  link c x b (lock_set X h) = lock_set X (link c x b h).
Proof.
  apply map_eq; intros k.
  rewrite link_lookup, !lock_set_lookup, link_lookup.
  destruct (h !! k) as [n|]; [|by case_decide]. simpl.
  repeat case_decide; done.
Qed.

Lemma lock_set_unlink X c b h :
  unlink c b (lock_set X h) = lock_set X (unlink c b h).
Proof.
  apply map_eq; intros k.
  rewrite unlink_lookup, !lock_set_lookup, unlink_lookup.
  destruct (h !! k) as [n|]; [|by case_decide]. simpl.
  repeat case_decide; done.
Qed.

Lemma release_then {B} X h a n t (k : M B) :
  h !! a = Some n → sync n = sync_new → a ∈ X →
  (writer_exit_protocol a ;; k) (mkState (lock_set X h) t)
  = k (mkState (lock_set (X ∖ {[a]}) h) (t ++ [EvWriterExit a])).
Proof.
  intros Ha Hn Hx. erewrite bind_Ret; [done|]. by apply release_held with n.
Qed.

(** A conditional release, as [source_dfs] and [target_dfs] write them. *)
Lemma release_if {B} (P : Prop) `{!Decision P} X h a n t (k : M B) :
  h !! a = Some n → sync n = sync_new → (P → a ∈ X) →
  ((if decide P then writer_exit_protocol a else mret ()) ;; k)
    (mkState (lock_set X h) t)
  = k (mkState (lock_set (if decide P then X ∖ {[a]} else X) h)
               (t ++ if decide P then [EvWriterExit a] else [])).
Proof.
  intros Ha Hn Hx. destruct (decide P) as [HP|HP].
  - apply release_then with n; auto.
  - rewrite bind_mret. by rewrite app_nil_r.
Qed.

Lemma hmap_get_children a key st :
  is_Some (heap st !! a) →
  hmap_get a key st = Ret (heap st !! a ≫= λ n, map n !! key) st.
Proof.
  intros [n Hn]. rewrite (hmap_get_run a key n) by done. by rewrite Hn.
Qed.

End LockSetFacts.

(** ** [tree_move] on a tree at rest *)

Section MoveFacts.

Import PathUtils Monitor Heap TreeOps Shape.

Local Open Scope Z_scope.

(** *** Depth of a tree and [bfs_clear] *)

Lemma trail_length h a cs x :
  resolve h a cs = Some x → length (trail h a cs) = S (length cs).
Proof.
  revert a. induction cs as [|c cs IH]; intros a; simpl; [done|].
  destruct (h !! a ≫= _) as [b|]; [|done]. intros Hres. by rewrite (IH b).
Qed.

Lemma trail_elem h a cs y :
  y ∈ trail h a cs → ∃ cs1, cs1 `prefix_of` cs ∧ resolve h a cs1 = Some y.
Proof.
  revert a. induction cs as [|c cs IH]; intros a; simpl.
  - intros ->%list_elem_of_singleton. by exists [].
  - intros [->|Hy]%elem_of_cons.
    + exists []. split; [apply prefix_nil|done].
    + destruct (h !! a ≫= _) as [b|] eqn:Hb; [|by apply elem_of_nil in Hy].
      destruct (IH b Hy) as (cs1 & Hpre & Hres).
      exists (c :: cs1). split; [by apply prefix_cons|].
      simpl. by rewrite Hb.
Qed.

Lemma trail_NoDup h root cs : ∀ pre a,
  tree_shaped h root → resolve h root pre = Some a → NoDup (trail h a cs).
Proof.
  induction cs as [|c cs IH]; intros pre a Hts Hpre; simpl.
  - apply NoDup_singleton.
  - destruct (h !! a ≫= _) as [b|] eqn:Hb; [|apply NoDup_singleton].
    assert (Hsnoc : resolve h root (pre ++ [c]) = Some b).
    { apply resolve_snoc. exists a. split; [done|]. by apply children_edge. }
    apply NoDup_cons. split; [|by apply (IH (pre ++ [c]))].
    intros Ha. apply trail_elem in Ha as (cs1 & _ & Hres).
    assert (Hlong : resolve h root ((pre ++ [c]) ++ cs1) = Some a).
    { by rewrite resolve_app, Hsnoc. }
    pose proof (resolve_inj h root _ _ _ Hts Hlong Hpre) as Heq.
    apply (f_equal length) in Heq. rewrite !length_app in Heq.
    simpl in Heq. lia.
Qed.

(** In a tree no path is as long as the store has nodes. *)
Lemma wf_depth h root cs x :
  wf h root → resolve h root cs = Some x → (length cs < size h)%nat.
Proof.
  intros Hwf Hres. pose proof Hwf as (_ & _ & _ & Hts).
  pose proof (trail_NoDup h root cs [] root Hts eq_refl) as Hnd.
  assert (Hsub : trail h root cs ⊆+ elements (dom h)).
  { apply NoDup_submseteq; [done|]. intros y Hy.
    apply trail_elem in Hy as (cs1 & _ & Hy).
    destruct (wf_node h root cs1 y Hwf Hy) as (n & Hn & _).
    apply elem_of_elements, elem_of_dom. eauto. }
  apply submseteq_length in Hsub.
  rewrite (trail_length h root cs x Hres) in Hsub.
  change (length (elements (dom h))) with (size (dom h)) in Hsub.
  rewrite size_dom in Hsub. lia.
Qed.

Lemma for_each_unchanged {A} (f : A → M unit) l st :
  (∀ x, x ∈ l → f x st = Ret () st) → for_each f l st = Ret () st.
Proof.
  induction l as [|x l IH]; intros Hall; [done|].
  simpl. rewrite bind_run, Hall by apply list_elem_of_here.
  apply IH. intros y Hy. apply Hall. by apply list_elem_of_further.
Qed.

(** [bfs_clear] returns, and changes nothing, on a subtree at rest that is
    less deep than the fuel. *)
Lemma bfs_clear_spec G t fuel : ∀ a,
  (∀ cs x, resolve G a cs = Some x →
     (length cs < fuel)%nat ∧ ∃ n, G !! x = Some n ∧ sync n = sync_new) →
  bfs_clear fuel a (mkState G t) = Ret () (mkState G t).
Proof.
  induction fuel as [|fuel IH]; intros a Hsub.
  { destruct (Hsub [] a eq_refl) as [Hlt _]. simpl in Hlt. lia. }
  destruct (Hsub [] a eq_refl) as [_ (n & Hn & Hs)].
  simpl. erewrite bind_Ret; cycle 1.
  { by apply wait_clear_run with n. }
  unfold get_node at 1. rewrite bind_run. cbn [heap]. rewrite Hn.
  apply for_each_unchanged. intros [c b] Hcb. simpl.
  apply elem_of_map_to_list in Hcb.
  apply IH. intros cs x Hres.
  destruct (Hsub (c :: cs) x) as [Hlt Hx].
  { simpl. rewrite Hn. simpl. by rewrite Hcb. }
  split; [simpl in Hlt; lia|done].
Qed.

(** *** The two branches of a move below their common ancestor *)

Lemma diverge_prefix S' T' cs1 c :
  diverge S' T' → (cs1 ++ [c]) `prefix_of` S' → T' ≠ cs1 ++ [c].
Proof.
  intros Hdiv [rest ->] ->. unfold diverge in Hdiv.
  destruct cs1; simpl in Hdiv; done.
Qed.

Section Branches.

Variables (h : gmap addr Tree) (root lca : addr).
Variables (pre S' T' : list string) (sc tc : string).

Hypothesis Hwf : wf h root.
Hypothesis Hlca : resolve h root pre = Some lca.
Hypothesis Hdiv : diverge S' T'.
Hypothesis Hanc : ¬ (((pre ++ S') ++ [sc]) `prefix_of` (pre ++ T')).

Lemma under_lca cs x :
  resolve h lca cs = Some x → resolve h root (pre ++ cs) = Some x.
Proof. intros Hres. by rewrite resolve_app, Hlca. Qed.

Lemma below_lca cs x : cs ≠ [] → resolve h lca cs = Some x → x ≠ lca.
Proof.
  intros Hcs Hres ->. apply under_lca in Hres.
  destruct Hwf as (_ & _ & _ & Hts).
  pose proof (resolve_inj h root _ _ _ Hts Hres Hlca) as Heq.
  apply (f_equal length) in Heq. rewrite length_app in Heq.
  destruct cs; [done|]. simpl in Heq. lia.
Qed.

Lemma same_branch cs1 cs2 x :
  resolve h lca cs1 = Some x → resolve h lca cs2 = Some x → cs1 = cs2.
Proof.
  intros H1%under_lca H2%under_lca.
  destruct Hwf as (_ & _ & _ & Hts).
  pose proof (resolve_inj h root _ _ _ Hts H1 H2) as Heq.
  by apply app_inv_head in Heq.
Qed.

Lemma branches_apart src dst :
  resolve h lca S' = Some src → resolve h lca T' = Some dst →
  src ≠ lca → src ≠ dst.
Proof.
  intros HS HT Hne ->.
  pose proof (same_branch _ _ _ HS HT) as ->.
  destruct T' as [|c T'']; [|by simpl in Hdiv].
  simpl in HS. congruence.
Qed.

Lemma clear_target : clear_path (lock_set {[lca]} h) lca T'.
Proof.
  apply clear_path_lock_set; [by apply wf_clear_path with root pre|].
  intros cs1 c x _ Hres. apply not_elem_of_singleton.
  apply (below_lca (cs1 ++ [c])); [by destruct cs1|done].
Qed.

Lemma clear_source dst :
  resolve h lca T' = Some dst →
  clear_path (lock_set {[dst; lca]} h) lca S'.
Proof.
  intros HT. apply clear_path_lock_set; [by apply wf_clear_path with root pre|].
  intros cs1 c x Hpre Hres.
  assert (x ≠ lca)
    by (apply (below_lca (cs1 ++ [c])); [by destruct cs1|done]).
  assert (x ≠ dst).
  { intros ->. apply (diverge_prefix S' T' cs1 c Hdiv Hpre).
    by apply same_branch with dst. }
  set_solver.
Qed.

(** The subtree to move is at rest, apart from the two parents, and less
    deep than the store is large. *)
Lemma subtree_free src dst m cs x :
  resolve h lca S' = Some src → resolve h lca T' = Some dst →
  edge h src sc m → resolve h m cs = Some x →
  (length cs < size h)%nat ∧ (x ≠ src ∧ x ≠ dst) ∧
  ∃ n, h !! x = Some n ∧ sync n = sync_new.
Proof.
  intros HS HT He Hres.
  assert (Hm : resolve h root ((pre ++ S') ++ [sc]) = Some m).
  { apply resolve_snoc. exists src. split; [by apply under_lca|done]. }
  assert (Hx : resolve h root (((pre ++ S') ++ [sc]) ++ cs) = Some x).
  { by rewrite resolve_app, Hm. }
  pose proof Hwf as (_ & _ & _ & Hts).
  split; [|split].
  - pose proof (wf_depth h root _ x Hwf Hx) as Hd.
    rewrite !length_app in Hd. lia.
  - assert (x ≠ src).
    { intros ->. apply under_lca in HS.
      pose proof (resolve_inj h root _ _ _ Hts Hx HS) as Heq.
      apply (f_equal length) in Heq. rewrite !length_app in Heq.
      simpl in Heq. lia. }
    assert (x ≠ dst).
    { intros ->. apply under_lca in HT.
      pose proof (resolve_inj h root _ _ _ Hts Hx HT) as Heq.
      apply Hanc. rewrite <- Heq. by exists cs. }
    done.
  - by apply wf_node with root (((pre ++ S') ++ [sc]) ++ cs).
Qed.

Lemma branch_lock_set cs b X :
  resolve h lca cs = Some b → lca ∈ X →
  branch_lock cs b (lock_set X h) = lock_set ({[b]} ∪ X) h.
Proof.
  intros Hres Hx. destruct cs as [|c cs]; simpl.
  - simpl in Hres. injection Hres as <-. f_equal. set_solver.
  - apply lock_lock_set.
Qed.

(** [source_dfs], called with the common ancestor and the target parent
    held. *)
Lemma source_dfs_spec dst t :
  Forall (λ c, no_slash c = true) S' →
  resolve h lca T' = Some dst →
  ∃ t',
    source_dfs lca dst (Some (render S')) sc tc (N.of_nat (length S'))
      (mkState (lock_set {[dst; lca]} h) t)
    = match resolve h lca S' with
      | None => Ret ENOENT (mkState h t')
      | Some src =>
          match h !! src ≫= λ n, map n !! sc with
          | None => Ret ENOENT (mkState h t')
          | Some m => Ret 0 (mkState (moved h src sc dst tc m) t')
          end
      end.
Proof.
  intros HS' HT.
  destruct (wf_node h root pre lca Hwf Hlca) as (nl & Hnl & Hsl).
  destruct (wf_node h root _ dst Hwf (under_lca _ _ HT)) as (nd & Hnd & Hsd).
  unfold source_dfs. rewrite bind_run.
  rewrite (move_dfs_spec _ S' lca (mkTree (map nl) wlocked)); try done.
  2: { apply lock_set_held; [done|set_solver]. }
  2: { by apply clear_source. }
  rewrite resolve_lock_set.
  destruct (resolve h lca S') as [src|] eqn:HS.
  - rewrite decide_False by (intros H; by apply H).
    destruct (wf_node h root _ src Hwf (under_lca _ _ HS)) as (ns & Hns & Hss).
    rewrite (branch_lock_set S' src) by (done || set_solver).
    rewrite bind_run, hmap_get_children
      by (cbn [heap]; apply lock_set_is_Some; eauto).
    cbn [heap]. rewrite children_lock_set.
    destruct (h !! src ≫= _) as [m|] eqn:Hm.
    + rewrite (release_if _ _ h lca nl) by (done || set_solver).
      apply children_edge in Hm.
      erewrite bind_Ret; cycle 1.
      { unfold heap_size. cbn [heap]. reflexivity. }
      rewrite size_lock_set.
      erewrite bind_Ret; cycle 1.
      { apply bfs_clear_spec. intros cs x Hres.
        rewrite resolve_lock_set in Hres.
        destruct (subtree_free src dst m cs x HS HT Hm Hres)
          as (Hd & [Hx1 Hx2] & n & Hn & Hs).
        split; [done|]. exists n. split; [|done].
        apply lock_set_free; [done|]. case_decide; set_solver. }
      erewrite bind_Ret; cycle 1.
      { apply hmap_remove_some. cbn [heap]. apply lock_set_is_Some. eauto. }
      cbn [heap trace]. rewrite lock_set_unlink.
      erewrite bind_Ret; cycle 1.
      { apply hmap_insert_some. cbn [heap]. apply lock_set_is_Some.
        rewrite unlink_lookup, Hnd. case_decide; simpl; eauto. }
      cbn [heap trace]. rewrite lock_set_link. fold (moved h src sc dst tc m).
      assert (Hmoved : ∀ a n, h !! a = Some n → sync n = sync_new →
                ∃ n', moved h src sc dst tc m !! a = Some n'
                      ∧ sync n' = sync_new).
      { intros a n Hn Hs. unfold moved.
        rewrite link_lookup, unlink_lookup, Hn.
        repeat case_decide; simpl; eauto. }
      destruct (Hmoved src ns Hns Hss) as (ns' & Hns' & Hss').
      destruct (Hmoved dst nd Hnd Hsd) as (nd' & Hnd' & Hsd').
      rewrite (release_if _ _ _ src ns')
        by (done || (intros; case_decide; set_solver)).
      rewrite (release_then _ _ dst nd')
        by (done || (repeat case_decide; set_solver)).
      rewrite mret_run. eexists. do 2 f_equal.
      rewrite <- (lock_set_empty (moved h src sc dst tc m)) at 2.
      f_equal. repeat case_decide; set_solver.
    + pose proof (branches_apart src dst HS HT) as Hapart.
      rewrite (release_if _ _ h src ns) by (done || set_solver).
      rewrite (release_if _ _ h dst nd)
        by (done || (intros; case_decide; set_solver)).
      rewrite (release_then _ _ lca nl)
        by (done || (repeat case_decide; set_solver)).
      rewrite mret_run. eexists. do 2 f_equal.
      rewrite <- (lock_set_empty h) at 2.
      f_equal. repeat case_decide; set_solver.
  - rewrite decide_True by done.
    rewrite (release_if _ _ h dst nd) by (done || set_solver).
    rewrite (release_then _ _ lca nl)
      by (done || (case_decide; set_solver)).
    rewrite mret_run. eexists. do 2 f_equal.
    rewrite <- (lock_set_empty h) at 2.
    f_equal. case_decide; set_solver.
Qed.

(** [target_dfs], called with the common ancestor held. *)
Lemma target_dfs_spec t :
  Forall (λ c, no_slash c = true) S' →
  Forall (λ c, no_slash c = true) T' →
  ∃ t',
    target_dfs lca (Some (render T')) tc (Some (render S')) sc
      (N.of_nat (length T')) (N.of_nat (length S'))
      (mkState (lock_set {[lca]} h) t)
    = Ret (move_outcome h lca S' sc T' tc).1
          (mkState (move_outcome h lca S' sc T' tc).2 t').
Proof.
  intros HS' HT'. unfold move_outcome.
  destruct (wf_node h root pre lca Hwf Hlca) as (nl & Hnl & Hsl).
  unfold target_dfs. rewrite bind_run.
  rewrite (move_dfs_spec _ T' lca (mkTree (map nl) wlocked)); try done.
  2: { apply lock_set_held; [done|set_solver]. }
  2: { by apply clear_target. }
  rewrite resolve_lock_set.
  destruct (resolve h lca T') as [dst|] eqn:HT.
  - rewrite decide_False by (intros H; by apply H).
    destruct (wf_node h root _ dst Hwf (under_lca _ _ HT)) as (nd & Hnd & Hsd).
    rewrite (branch_lock_set T' dst) by (done || set_solver).
    rewrite bind_run, hmap_get_children
      by (cbn [heap]; apply lock_set_is_Some; eauto).
    cbn [heap]. rewrite children_lock_set.
    destruct (h !! dst ≫= _) as [x|] eqn:Hx.
    + rewrite (release_if _ _ h dst nd) by (done || set_solver).
      rewrite (release_then _ _ lca nl)
        by (done || (case_decide; set_solver)).
      rewrite mret_run. eexists. cbn [fst snd]. do 2 f_equal.
      rewrite <- (lock_set_empty h) at 2.
      f_equal. case_decide; set_solver.
    + destruct (source_dfs_spec dst
                  (t ++ branch_events (lock_set {[lca]} h) lca T') HS' HT)
        as [t' Hsrc].
      rewrite Hsrc. exists t'.
      destruct (resolve h lca S') as [src|]; [|done].
      by destruct (h !! src ≫= _).
  - rewrite decide_True by done.
    rewrite (release_then _ _ lca nl) by (done || set_solver).
    rewrite mret_run. eexists. cbn [fst snd]. do 2 f_equal.
    rewrite <- (lock_set_empty h) at 2.
    f_equal. set_solver.
Qed.

End Branches.

(** *** The whole of [tree_move] *)

Lemma shared_prefix_split xs ys :
  ∃ xs' ys',
    xs = shared_prefix xs ys ++ xs' ∧ ys = shared_prefix xs ys ++ ys' ∧
    diverge xs' ys'.
Proof.
  revert ys. induction xs as [|x xs IH]; intros ys.
  - by exists [], ys.
  - destruct ys as [|y ys]; [by exists (x :: xs), []|].
    simpl. case_decide as Hxy.
    + subst y. destruct (IH ys) as (xs' & ys' & Hx & Hy & Hd).
      exists xs', ys'. simpl. by rewrite <- Hx, <- Hy.
    + by exists (x :: xs), (y :: ys).
Qed.

Lemma render_tail_length_pos c cs :
  (0 < String.length (render_tail (c :: cs)))%nat.
Proof. simpl. rewrite length_app_str. simpl. lia. Qed.

(** The test of lines 418 and 419 holds for an ancestor. *)
Lemma ancestor_check cs1 cs2 :
  cs2 ≠ [] →
  (strlen (render cs1) <? strlen (render (cs1 ++ cs2)))%nat
  && strncmp_eq (render cs1) (render (cs1 ++ cs2)) (strlen (render cs1))
  = true.
Proof.
  intros Hcs2. rewrite render_app, strncmp_eq_app, andb_true_r.
  apply Nat.ltb_lt. unfold strlen. rewrite length_app_str.
  destruct cs2 as [|c cs2]; [done|].
  pose proof (render_tail_length_pos c cs2). lia.
Qed.

Lemma size_sub_of_nat a b :
  size_sub (N.of_nat (a + b)) (N.of_nat a) = N.of_nat b.
Proof.
  unfold size_sub. destruct (N.leb_spec (N.of_nat a) (N.of_nat (a + b))); lia.
Qed.

End MoveFacts.

Section MoveSpec.

Import PathUtils Monitor Heap TreeOps Shape.

Variable MAX_FOLDER_NAME_LENGTH : nat.

Local Abbreviation is_path_valid := (is_path_valid MAX_FOLDER_NAME_LENGTH).
Local Abbreviation is_name_valid := (is_name_valid MAX_FOLDER_NAME_LENGTH).
Local Abbreviation tree_move := (tree_move MAX_FOLDER_NAME_LENGTH).

Local Open Scope Z_scope.

Lemma move_outcome_under h root pre lca S' sc T' tc :
  resolve h root pre = Some lca →
  move_outcome h root (pre ++ S') sc (pre ++ T') tc
  = move_outcome h lca S' sc T' tc.
Proof.
  intros Hlca. unfold move_outcome. by rewrite !resolve_app, Hlca.
Qed.

Lemma move_outcome_lost h root pre S' sc T' tc :
  resolve h root pre = None →
  move_outcome h root (pre ++ S') sc (pre ++ T') tc = (ENOENT, h).
Proof.
  intros Hlca. unfold move_outcome. by rewrite !resolve_app, Hlca.
Qed.

(** [tree_move] on a tree at rest, for two valid paths other than the root
    path of which the first is no ancestor of the second. *)
Lemma tree_move_spec h root sp sc tp tc t :
  wf h root →
  is_path_valid (render (sp ++ [sc])) = true →
  is_path_valid (render (tp ++ [tc])) = true →
  Forall (λ c, no_slash c = true) (sp ++ [sc]) →
  Forall (λ c, no_slash c = true) (tp ++ [tc]) →
  is_ancestor (render (sp ++ [sc])) (render (tp ++ [tc])) = false →
  ∃ t',
    tree_move root (render (sp ++ [sc])) (render (tp ++ [tc])) (mkState h t)
    = Ret (move_outcome h root sp sc tp tc).1
          (mkState (move_outcome h root sp sc tp tc).2 t').
Proof.
  intros Hwf Hvs Hvt Hns Hnt Hcheck.
  unfold TreeOps.tree_move. rewrite Hvs, Hvt. cbn [negb orb].
  rewrite !is_root_render_snoc.
  unfold is_ancestor in Hcheck. rewrite Hcheck.
  rewrite !make_path_to_parent_render by done.
  apply Forall_app in Hns as [Hsp Hsc]. apply Forall_app in Hnt as [Htp Htc].
  assert (Hanc : ¬ ((sp ++ [sc]) `prefix_of` tp)).
  { intros [rest ->].
    rewrite <- (app_assoc (sp ++ [sc]) rest [tc]), ancestor_check in Hcheck;
      [done|by destruct rest]. }
  destruct (shared_prefix_split sp tp) as (S' & T' & HS & HT & Hdiv).
  rewrite common_files_render by done.
  remember (shared_prefix sp tp) as pre eqn:Hdef. clear Hdef. subst sp tp.
  replace (size_sub (N.of_nat (length pre) + 1) 1) with (N.of_nat (length pre))
    by (unfold size_sub;
        destruct (N.leb_spec 1 (N.of_nat (length pre) + 1)); lia).
  rewrite !count_slashes_budget by done.
  apply Forall_app in Hsp as [Hpre HS']. apply Forall_app in Htp as [_ HT'].
  assert (Hfuel : (length pre < S (String.length (render (pre ++ S'))))%nat).
  { pose proof (length_render (pre ++ S')) as Hlen.
    rewrite length_app in Hlen.
    assert (Forall (λ c, no_slash c = true) (pre ++ S')) as Hall
      by (by apply Forall_app).
    specialize (Hlen Hall). lia. }
  rewrite !length_app, !size_sub_of_nat.
  destruct (wf_node h root [] root Hwf eq_refl) as (n & Hroot & Hn).
  erewrite bind_Ret; cycle 1.
  { by apply entry_run with n. }
  cbn [heap trace].
  pose proof (shared_loop_spec h pre S' T' root n
                (t ++ [entry_event pre root]) _ Hpre Hfuel Hroot Hn
                (wf_clear_path h root pre [] root Hwf eq_refl)) as Hloop.
  destruct (resolve h root pre) as [lca|] eqn:Hlca.
  - rewrite bind_run, Hloop.
    rewrite decide_False by (intros H; by apply H).
    rewrite lock_set_singleton.
    destruct (target_dfs_spec h root lca pre S' T' sc tc Hwf Hlca Hdiv Hanc
                ((t ++ [entry_event pre root]) ++ descent_events h root pre)
                HS' HT') as [t' Htarget].
    rewrite Htarget.
    rewrite (move_outcome_under h root pre lca) by done. by exists t'.
  - destruct Hloop as (src & tgt & tt & Hloop).
    rewrite bind_run, Hloop. rewrite decide_True by done.
    rewrite move_outcome_lost by done. by eexists.
Qed.

End MoveSpec.

(** ** Creating, removing and listing *)

Section CreateRemoveClaims.

Import PathUtils Monitor Heap TreeOps Shape.

Variable MAX_FOLDER_NAME_LENGTH : nat.

Local Abbreviation is_path_valid := (is_path_valid MAX_FOLDER_NAME_LENGTH).
Local Abbreviation is_name_valid := (is_name_valid MAX_FOLDER_NAME_LENGTH).
Local Abbreviation tree_list := (tree_list MAX_FOLDER_NAME_LENGTH).
Local Abbreviation tree_create := (tree_create MAX_FOLDER_NAME_LENGTH).
Local Abbreviation tree_remove := (tree_remove MAX_FOLDER_NAME_LENGTH).
Local Abbreviation names_ok := (names_ok MAX_FOLDER_NAME_LENGTH).

Local Open Scope Z_scope.

Lemma resolve_created h b c nb cs : ∀ a x,
  h !! b = Some nb → map nb !! c = None →
  resolve h a cs = Some x → resolve (created h b c) a cs = Some x.
Proof.
  induction cs as [|k cs IH]; intros a x Hb Hc; simpl; [done|].
  destruct (h !! a ≫= _) as [a'|] eqn:Ha; [|done].
  intros Hres. apply children_edge in Ha.
  assert (He : edge (created h b c) a k a').
  { apply (edge_created h b c nb); auto. }
  apply children_edge in He. rewrite He. by apply IH.
Qed.

Lemma resolve_removed h b c son nb ns cs : ∀ a x,
  h !! b = Some nb → map nb !! c = Some son →
  h !! son = Some ns → map ns = ∅ → son ≠ b → x ≠ son →
  resolve h a cs = Some x → resolve (removed h b c son) a cs = Some x.
Proof.
  induction cs as [|k cs IH]; intros a x Hb Hc Hs Hempty Hne Hx; simpl;
    [done|].
  destruct (h !! a ≫= _) as [a'|] eqn:Ha; [|done].
  intros Hres. apply children_edge in Ha.
  assert (He : edge (removed h b c son) a k a').
  { apply (edge_removed h b c son nb ns); auto. split; [done|].
    intros [-> ->]. destruct Ha as (n & Hn & Hk).
    assert (a' = son) by congruence. subst a'.
    destruct cs as [|k' cs]; simpl in Hres; [congruence|].
    by rewrite Hs in Hres; simpl in Hres;
      rewrite Hempty, lookup_empty in Hres. }
  apply children_edge in He. rewrite He. by apply IH.
Qed.

Lemma names_ok_lookup h a n :
  names_ok h → h !! a = Some n →
  map_Forall (λ k _, is_name_valid k = true) (map n).
Proof. intros Hok Ha. by apply (map_Forall_lookup_1 _ _ _ _ Hok Ha). Qed.

(** C4. For a valid path other than the root path, in a tree at rest: when
    [tree_create] returns 0, [tree_list] of the parent path, run next,
    returns a string that has the last component among its entries; and
    when [tree_remove] returns 0, the string [tree_list] of the parent path
    returns next does not have it. Both calls do return 0: [tree_create]
    when the parent folder is in the tree and the path is not, and
    [tree_remove] when the path names a folder with an empty map. *)
Theorem create_remove_listed h root p t :
  wf h root → names_ok h →
  is_path_valid p = true → is_root p = false →
  ∃ parent c,
    make_path_to_parent p = Some (parent, c) ∧
    (∀ st1, tree_create root p (mkState h t) = Ret 0 st1 →
       ∃ res st2,
         tree_list root parent st1 = Ret (Some res) st2 ∧
         c ∈ entries res) ∧
    (∀ st1, tree_remove root p (mkState h t) = Ret 0 st1 →
       ∃ res st2,
         tree_list root parent st1 = Ret (Some res) st2 ∧
         c ∉ entries res) ∧
    (is_Some (resolve h root (components parent)) →
     resolve h root (components p) = None →
       ∃ st1, tree_create root p (mkState h t) = Ret 0 st1) ∧
    (∀ a na,
       resolve h root (components p) = Some a →
       h !! a = Some na → map na = ∅ →
       ∃ st1, tree_remove root p (mkState h t) = Ret 0 st1).
Proof.
  intros Hwf Hok Hvalid Hroot.
  destruct (valid_path_snoc _ p Hvalid Hroot) as (cs & c & -> & Hall).
  pose proof (names_valid_no_slash _ _ Hall) as Hns.
  exists (render cs), c.
  split; [by apply make_path_to_parent_render|].
  apply Forall_app in Hall as [Hcs Hc]. rewrite Forall_singleton in Hc.
  pose proof (render_valid _ cs Hcs) as Hparent.
  pose proof (names_valid_no_slash _ _ Hcs) as Hcs'.
  split; [|split; [|split]].
  - intros st1 Hrun.
    destruct (tree_create_spec _ h root cs c t Hwf Hvalid Hns) as [t' Hspec].
    rewrite Hspec in Hrun. unfold create_outcome in Hrun.
    destruct (resolve h root cs) as [b|] eqn:Hres; [|done].
    destruct (wf_node h root cs b Hwf Hres) as (nb & Hb & Hnb).
    rewrite Hb in Hrun. cbn [mbind option_bind] in Hrun.
    destruct (map nb !! c) as [x|] eqn:Hx; [done|].
    cbn [fst snd] in Hrun. injection Hrun as <-.
    pose proof (wf_created h root b c nb Hwf Hb Hx) as Hwf'.
    rewrite (tree_list_spec _ _ root cs t' Hwf' Hparent Hcs').
    unfold listing.
    rewrite (resolve_created h b c nb cs root b Hb Hx Hres).
    cbn [mbind option_bind]. rewrite created_lookup, decide_True by done.
    rewrite lookup_insert_ne, Hb by (pose proof (fresh_not_in h); congruence).
    simpl.
    eexists _, _. split; [done|].
    apply (elem_of_entries MAX_FOLDER_NAME_LENGTH).
    + apply map_Forall_insert_2; [done|]. by apply names_ok_lookup with h b.
    + rewrite lookup_insert_eq. eauto.
  - intros st1 Hrun.
    destruct (tree_remove_spec _ h root cs c t Hwf Hvalid Hns) as [t' Hspec].
    rewrite Hspec in Hrun. unfold remove_outcome in Hrun.
    destruct (resolve h root cs) as [b|] eqn:Hres; [|done].
    destruct (wf_node h root cs b Hwf Hres) as (nb & Hb & Hnb).
    rewrite Hb in Hrun. cbn [mbind option_bind] in Hrun.
    destruct (map nb !! c) as [son|] eqn:Hson; [|done].
    destruct (h !! son) as [ns|] eqn:Hs; [|done].
    destruct (decide (size (map ns) ≠ 0%nat)) as [|Hsize]; [done|].
    cbn [fst snd] in Hrun. injection Hrun as <-.
    assert (Hempty : map ns = ∅).
    { apply map_size_empty_inv.
      destruct (decide (size (map ns) = 0%nat)); [done|by destruct Hsize]. }
    assert (Hne : son ≠ b).
    { intros ->. assert (nb = ns) by congruence. subst nb.
      by rewrite Hempty, lookup_empty in Hson. }
    pose proof (wf_removed h root b c son nb ns Hwf Hb Hson Hs Hempty)
      as Hwf'.
    rewrite (tree_list_spec _ _ root cs t' Hwf' Hparent Hcs').
    unfold listing.
    rewrite (resolve_removed h b c son nb ns cs root b) by (done || congruence).
    cbn [mbind option_bind]. rewrite removed_lookup.
    rewrite decide_False, decide_True, Hb by done.
    simpl.
    eexists _, _. split; [done|].
    rewrite (elem_of_entries MAX_FOLDER_NAME_LENGTH).
    + rewrite lookup_delete_eq. by intros [? ?].
    + apply map_Forall_delete. by apply names_ok_lookup with h b.
  - intros [b Hres] Hnone.
    rewrite components_render in Hres by done.
    rewrite components_render in Hnone by done.
    destruct (wf_node h root cs b Hwf Hres) as (nb & Hb & Hnb).
    assert (Hx : map nb !! c = None).
    { destruct (map nb !! c) as [x|] eqn:Hx; [|done].
      assert (resolve h root (cs ++ [c]) = Some x); [|congruence].
      apply resolve_snoc. exists b. split; [done|]. by exists nb. }
    destruct (tree_create_spec _ h root cs c t Hwf Hvalid Hns) as [t' Hspec].
    unfold create_outcome in Hspec. rewrite Hres, Hb in Hspec.
    cbn [mbind option_bind] in Hspec. rewrite Hx in Hspec.
    cbn [fst snd] in Hspec. eauto.
  - intros a na Hres Ha Hempty.
    rewrite components_render in Hres by done.
    destruct (tree_remove_spec _ h root cs c t Hwf Hvalid Hns) as [t' Hspec].
    unfold remove_outcome in Hspec.
    apply resolve_snoc in Hres as (b & Hb & He).
    apply children_edge in He. rewrite Hb, He, Ha in Hspec.
    rewrite decide_False in Hspec
      by (rewrite Hempty, map_size_empty; by intros H).
    cbn [fst snd] in Hspec. eauto.
Qed.

(** C5, for paths other than the root path. For a valid path other than
    the root path that names a folder with a non-empty map, in a tree at
    rest, [tree_remove] returns [ENOTEMPTY] and the store is what it was:
    every map and every node. *)
Theorem remove_nonempty h root p a na t :
  wf h root →
  is_path_valid p = true → is_root p = false →
  resolve h root (components p) = Some a →
  h !! a = Some na → map na ≠ ∅ →
  ∃ t', tree_remove root p (mkState h t) = Ret ENOTEMPTY (mkState h t').
Proof.
  intros Hwf Hvalid Hroot Hres Ha Hne.
  destruct (valid_path_snoc _ p Hvalid Hroot) as (cs & c & -> & Hall).
  pose proof (names_valid_no_slash _ _ Hall) as Hns.
  rewrite components_render in Hres by done.
  destruct (tree_remove_spec _ h root cs c t Hwf Hvalid Hns) as [t' Hspec].
  exists t'. rewrite Hspec. unfold remove_outcome.
  apply resolve_snoc in Hres as (b & -> & He).
  apply children_edge in He. rewrite He, Ha.
  rewrite decide_True; [done|].
  intros Hsize. by apply map_size_empty_inv in Hsize.
Qed.

Lemma created_parent h b c nb :
  h !! b = Some nb →
  created h b c !! b
  = Some (mkTree (<[c := fresh (dom h)]> (map nb)) (sync nb)).
Proof.
  intros Hb. pose proof (fresh_not_in h) as Hfresh.
  rewrite created_lookup, decide_True by done.
  by rewrite lookup_insert_ne, Hb by congruence.
Qed.

Lemma created_son h b c nb :
  h !! b = Some nb →
  created h b c !! fresh (dom h) = Some (mkTree ∅ sync_new).
Proof.
  intros Hb. pose proof (fresh_not_in h) as Hfresh.
  rewrite created_lookup, decide_False by congruence.
  by rewrite lookup_insert_eq.
Qed.

Lemma removed_created h b c nb :
  h !! b = Some nb → map nb !! c = None →
  removed (created h b c) b c (fresh (dom h)) = h.
Proof.
  intros Hb Hc. pose proof (fresh_not_in h) as Hfresh.
  apply map_eq; intros k. rewrite removed_lookup, created_lookup.
  case_decide as Hk; [by subst|].
  rewrite lookup_insert_ne by done.
  case_decide as Hbk; [|done]. subst k. rewrite Hb. simpl.
  rewrite delete_insert_eq, delete_id by done. by destruct nb.
Qed.

(** C9. For a valid path whose parent folder is in the tree and which is
    not itself in the tree, in a tree at rest: [tree_create] returns 0,
    [tree_remove] run next returns 0, and the store is then what it was
    before the two calls. *)
Theorem create_remove_roundtrip h root p parent c b t :
  wf h root →
  is_path_valid p = true → is_root p = false →
  make_path_to_parent p = Some (parent, c) →
  resolve h root (components parent) = Some b →
  resolve h root (components p) = None →
  ∃ st1 t2,
    tree_create root p (mkState h t) = Ret 0 st1 ∧
    tree_remove root p st1 = Ret 0 (mkState h t2).
Proof.
  intros Hwf Hvalid Hroot Hparent Hres Hnone.
  destruct (valid_path_snoc _ p Hvalid Hroot) as (cs & c' & -> & Hall).
  pose proof (names_valid_no_slash _ _ Hall) as Hns.
  rewrite make_path_to_parent_render in Hparent by done.
  injection Hparent as <- <-.
  rewrite components_render in Hnone by done.
  apply Forall_app in Hns as [Hcs Hc].
  rewrite components_render in Hres by done.
  assert (Hns : Forall (λ c, no_slash c = true) (cs ++ [c']))
    by (by apply Forall_app).
  destruct (wf_node h root cs b Hwf Hres) as (nb & Hb & Hnb).
  assert (Hx : map nb !! c' = None).
  { destruct (map nb !! c') as [x|] eqn:Hx; [|done].
    assert (resolve h root (cs ++ [c']) = Some x); [|congruence].
    apply resolve_snoc. exists b. split; [done|]. by exists nb. }
  destruct (tree_create_spec _ h root cs c' t Hwf Hvalid Hns) as [t1 Hcreate].
  unfold create_outcome in Hcreate. rewrite Hres, Hb in Hcreate.
  cbn [mbind option_bind] in Hcreate. rewrite Hx in Hcreate.
  cbn [fst snd] in Hcreate.
  pose proof (wf_created h root b c' nb Hwf Hb Hx) as Hwf'.
  destruct (tree_remove_spec _ _ root cs c' t1 Hwf' Hvalid Hns)
    as [t2 Hremove].
  unfold remove_outcome in Hremove.
  rewrite (resolve_created h b c' nb cs root b Hb Hx Hres) in Hremove.
  pose proof (fresh_not_in h) as Hfresh.
  assert (Hne : b ≠ fresh (dom h)) by congruence.
  rewrite (created_parent h b c' nb Hb) in Hremove.
  simpl in Hremove. rewrite lookup_insert_eq in Hremove.
  rewrite (created_son h b c' nb Hb) in Hremove.
  simpl in Hremove.
  rewrite (removed_created h b c' nb Hb Hx) in Hremove.
  eexists _, t2. split; [exact Hcreate|exact Hremove].
Qed.

End CreateRemoveClaims.

(** ** Moving *)

Section MoveClaims.

Import PathUtils Monitor Heap TreeOps Shape.

Variable MAX_FOLDER_NAME_LENGTH : nat.

Local Abbreviation is_path_valid := (is_path_valid MAX_FOLDER_NAME_LENGTH).
Local Abbreviation is_name_valid := (is_name_valid MAX_FOLDER_NAME_LENGTH).
Local Abbreviation tree_list := (tree_list MAX_FOLDER_NAME_LENGTH).
Local Abbreviation tree_create := (tree_create MAX_FOLDER_NAME_LENGTH).
Local Abbreviation tree_remove := (tree_remove MAX_FOLDER_NAME_LENGTH).
Local Abbreviation tree_move := (tree_move MAX_FOLDER_NAME_LENGTH).

Local Open Scope Z_scope.

Lemma moved_lookup h src sc dst tc m k :
  moved h src sc dst tc m !! k
  = if decide (dst = k)
    then (λ n, mkTree (<[tc := m]> (map n)) (sync n)) <$> unlink sc src h !! k
    else unlink sc src h !! k.
Proof. unfold moved. by rewrite link_lookup. Qed.

Lemma moved_lookup_other h src sc dst tc m k :
  k ≠ src → k ≠ dst → moved h src sc dst tc m !! k = h !! k.
Proof.
  intros Hs Hd. rewrite moved_lookup, decide_False by done.
  by rewrite unlink_lookup, decide_False.
Qed.

(** The edges of the store after a move. *)
Lemma edge_moved_old h src sc dst tc m a k x :
  (h !! dst ≫= λ n, map n !! tc) = None →
  edge h a k x → ¬ (a = src ∧ k = sc) →
  edge (moved h src sc dst tc m) a k x.
Proof.
  intros Htc (n & Hn & Hk) Hnot. unfold edge.
  rewrite moved_lookup, unlink_lookup, Hn.
  assert (Hdel : a = src → delete sc (map n) !! k = Some x).
  { intros ->. rewrite lookup_delete_ne; [done|]. intros ->. by apply Hnot. }
  assert (Hins : a = dst → k ≠ tc).
  { intros -> ->. rewrite Hn in Htc. simpl in Htc. congruence. }
  repeat case_decide; subst; simpl; eexists; split; try done; simpl;
    rewrite ?lookup_insert_ne by (apply not_eq_sym; auto); auto.
Qed.

Lemma edge_moved_new h src sc dst tc m :
  is_Some (h !! dst) → edge (moved h src sc dst tc m) dst tc m.
Proof.
  intros [n Hn]. unfold edge. rewrite moved_lookup, decide_True by done.
  rewrite unlink_lookup, Hn.
  case_decide; simpl; eexists; (split; [done|]); simpl;
    by rewrite lookup_insert_eq.
Qed.

(** A path that does not pass the edge taken out leads where it led. *)
Lemma resolve_moved h root sp sc tc src dst m cs : ∀ pre a x,
  tree_shaped h root →
  resolve h root sp = Some src →
  (h !! dst ≫= λ n, map n !! tc) = None →
  resolve h root pre = Some a →
  ¬ ((sp ++ [sc]) `prefix_of` (pre ++ cs)) →
  resolve h a cs = Some x →
  resolve (moved h src sc dst tc m) a cs = Some x.
Proof.
  induction cs as [|k cs IH]; intros pre a x Hts Hsrc Htc Hpre Hnot Hres;
    [done|].
  simpl in Hres |- *.
  destruct (h !! a ≫= _) as [a'|] eqn:Ha; [|done].
  apply children_edge in Ha.
  assert (He : edge (moved h src sc dst tc m) a k a').
  { apply edge_moved_old; [done|done|]. intros [-> ->].
    pose proof (resolve_inj h root _ _ _ Hts Hpre Hsrc) as ->.
    apply Hnot. exists cs. by rewrite <- app_assoc. }
  apply children_edge in He. rewrite He.
  apply (IH (pre ++ [k])); try done.
  - apply resolve_snoc. by exists a.
  - by rewrite <- app_assoc.
Qed.

Lemma is_ancestor_refl p : is_ancestor p p = false.
Proof. unfold is_ancestor. by rewrite Nat.ltb_irrefl. Qed.

(** C3. When [tree_move] returns 0 on a tree at rest, the node that was at
    the source path is at the target path afterwards: in the store the last
    component of the source is gone from the map of the source parent and
    the same node is in the map of the target parent under the last
    component of the target, and nothing else has changed; every node of
    the subtree is what it was and stands where it stood under that node. *)
Theorem move_relocates h root s t t0 st' :
  wf h root →
  tree_move root s t (mkState h t0) = Ret 0 st' →
  ∃ sp sc tp tc src dst m,
    make_path_to_parent s = Some (render sp, sc) ∧
    make_path_to_parent t = Some (render tp, tc) ∧
    resolve h root sp = Some src ∧ resolve h root tp = Some dst ∧
    resolve h root (components s) = Some m ∧
    heap st' = moved h src sc dst tc m ∧
    (heap st' !! src ≫= λ n, map n !! sc) = None ∧
    (heap st' !! dst ≫= λ n, map n !! tc) = Some m ∧
    resolve (heap st') root (components t) = Some m ∧
    ∀ cs x, resolve h m cs = Some x →
            heap st' !! x = h !! x ∧ resolve (heap st') m cs = Some x.
Proof.
  intros Hwf Hrun.
  assert (Hvs : is_path_valid s = true).
  { unfold TreeOps.tree_move in Hrun.
    destruct (PathUtils.is_path_valid _ s); [done|]. by injection Hrun. }
  assert (Hvt : is_path_valid t = true).
  { unfold TreeOps.tree_move in Hrun. rewrite Hvs in Hrun.
    destruct (PathUtils.is_path_valid _ t); [done|]. by injection Hrun. }
  assert (Hrs : is_root s = false).
  { unfold TreeOps.tree_move in Hrun. rewrite Hvs, Hvt in Hrun.
    destruct (is_root s); [|done]. by injection Hrun. }
  assert (Hrt : is_root t = false).
  { unfold TreeOps.tree_move in Hrun. rewrite Hvs, Hvt, Hrs in Hrun.
    destruct (is_root t); [|done]. by injection Hrun. }
  assert (Hcheck : is_ancestor s t = false).
  { unfold TreeOps.tree_move in Hrun. rewrite Hvs, Hvt, Hrs, Hrt in Hrun.
    unfold is_ancestor.
    destruct ((strlen s <? strlen t)%nat && _); [|done]. by injection Hrun. }
  destruct (valid_path_snoc _ s Hvs Hrs) as (sp & sc & -> & Halls).
  destruct (valid_path_snoc _ t Hvt Hrt) as (tp & tc & -> & Hallt).
  pose proof (names_valid_no_slash _ _ Halls) as Hns.
  pose proof (names_valid_no_slash _ _ Hallt) as Hnt.
  destruct (tree_move_spec _ h root sp sc tp tc t0 Hwf Hvs Hvt Hns Hnt Hcheck)
    as [t' Hspec].
  rewrite Hspec in Hrun. unfold move_outcome in Hrun.
  destruct (resolve h root tp) as [dst|] eqn:Hdst; [|done].
  destruct (h !! dst ≫= _) as [?|] eqn:Htc; [done|].
  destruct (resolve h root sp) as [src|] eqn:Hsrc; [|done].
  destruct (h !! src ≫= _) as [m|] eqn:Hm; [|done].
  cbn [fst snd] in Hrun. injection Hrun as <-. cbn [heap].
  apply children_edge in Hm.
  assert (Hanc : ¬ ((([] ++ sp) ++ [sc]) `prefix_of` ([] ++ tp))).
  { simpl. intros [rest ->].
    unfold is_ancestor in Hcheck.
    rewrite <- (app_assoc (sp ++ [sc]) rest [tc]), ancestor_check in Hcheck;
      [done|by destruct rest]. }
  pose proof Hwf as (_ & _ & _ & Hts).
  destruct (wf_node h root sp src Hwf Hsrc) as (ns & Hns' & _).
  destruct (wf_node h root tp dst Hwf Hdst) as (nd & Hnd & _).
  assert (Hmres : resolve h root (sp ++ [sc]) = Some m).
  { apply resolve_snoc. by exists src. }
  assert (Hnew : edge (moved h src sc dst tc m) dst tc m).
  { apply edge_moved_new. eauto. }
  exists sp, sc, tp, tc, src, dst, m.
  rewrite (make_path_to_parent_render sp sc Hns).
  rewrite (make_path_to_parent_render tp tc Hnt).
  rewrite (components_render _ Hns), (components_render _ Hnt).
  repeat split; try done.
  - rewrite moved_lookup, unlink_lookup, Hns'.
    rewrite (decide_True (P := src = src)) by done.
    case_decide as Hds; simpl.
    + subst dst. rewrite lookup_insert_ne; [by rewrite lookup_delete_eq|].
      intros ->. destruct Hm as (n & Hn & Hk). rewrite Hn in Htc.
      simpl in Htc. congruence.
    + by rewrite lookup_delete_eq.
  - by apply children_edge.
  - apply resolve_snoc. exists dst. split; [|done].
    apply (resolve_moved h root sp sc tc src dst m tp [] root); done.
  - destruct (subtree_free h root root [] sp tp sc Hwf eq_refl Hanc
                src dst m cs x Hsrc Hdst Hm H) as (_ & [Hx1 Hx2] & _).
    by apply moved_lookup_other.
  - assert (Hgen : ∀ cs pre a,
              resolve h m pre = Some a → resolve h a cs = Some x →
              resolve (moved h src sc dst tc m) a cs = Some x);
      [|by apply (Hgen cs [] m)].
    clear cs H. intros cs.
    induction cs as [|k cs IH]; intros pre a Hpre Hres; [done|].
    simpl in Hres |- *.
    destruct (h !! a ≫= _) as [a'|] eqn:Ha; [|done].
    destruct (subtree_free h root root [] sp tp sc Hwf eq_refl Hanc
                src dst m pre a Hsrc Hdst Hm Hpre) as (_ & [Hx1 Hx2] & _).
    rewrite moved_lookup_other, Ha by done.
    apply (IH (pre ++ [k])); [|done].
    apply resolve_snoc. exists a. split; [done|]. by apply children_edge.
Qed.

(** C6, for sources other than the root path. For two valid paths of which
    the first is not the root path and is a strict ancestor of the second,
    [tree_move] returns -1 and leaves the state as it was. *)
Theorem move_into_descendant st root s t :
  is_path_valid s = true → is_path_valid t = true →
  is_root s = false →
  components s `prefix_of` components t → components s ≠ components t →
  tree_move root s t st = Ret (-1) st.
Proof.
  intros Hvs Hvt Hrs [rest Hpre] Hne.
  destruct (valid_path_render _ s Hvs) as (cs1 & -> & Hall1).
  destruct (valid_path_render _ t Hvt) as (cs2 & -> & Hall2).
  rewrite !components_render in * by (by eapply names_valid_no_slash).
  subst cs2.
  assert (Hrest : rest ≠ []) by (intros ->; by rewrite app_nil_r in Hne).
  unfold TreeOps.tree_move. rewrite Hvs, Hvt, Hrs. cbn [negb orb].
  rewrite is_root_render.
  destruct (cs1 ++ rest) eqn:E; [by destruct cs1, rest|]. rewrite <- E.
  by rewrite ancestor_check.
Qed.

(** C7, with the order of the tests of [tree_move]. In every state:
    [tree_create] of the root path returns [EEXIST] and [tree_remove] of it
    returns [EBUSY]; [tree_move] with the root path as source and a valid
    target returns [EBUSY], and with a valid source other than the root
    path and the root path as target it returns [EEXIST]; with an invalid
    path, [tree_create], [tree_remove] and [tree_move] (the other path
    being any string) return [EINVAL] and [tree_list] returns null. None of
    these calls changes the state. *)
Theorem root_and_invalid_paths st root :
  tree_create root "/" st = Ret EEXIST st ∧
  tree_remove root "/" st = Ret EBUSY st ∧
  (∀ t, is_path_valid t = true → tree_move root "/" t st = Ret EBUSY st) ∧
  (∀ s, is_path_valid s = true → is_root s = false →
        tree_move root s "/" st = Ret EEXIST st) ∧
  (∀ p, is_path_valid p = false →
        tree_create root p st = Ret EINVAL st ∧
        tree_remove root p st = Ret EINVAL st ∧
        tree_list root p st = Ret None st ∧
        ∀ q, tree_move root p q st = Ret EINVAL st ∧
             tree_move root q p st = Ret EINVAL st).
Proof.
  repeat split.
  - intros t Hvt. unfold TreeOps.tree_move. by rewrite Hvt.
  - intros s Hvs Hrs. unfold TreeOps.tree_move. by rewrite Hvs, Hrs.
  - unfold TreeOps.tree_create. by rewrite H.
  - unfold TreeOps.tree_remove. by rewrite H.
  - unfold TreeOps.tree_list. by rewrite H.
  - unfold TreeOps.tree_move. by rewrite H.
  - unfold TreeOps.tree_move. rewrite H. by rewrite orb_true_r.
Qed.

(** C10. For a valid path other than the root path, in a tree at rest:
    when the path names a folder of the tree, [tree_move] of the path to
    itself returns [EEXIST] and leaves the store as it was; when it names
    none, the call returns [ENOENT], and the store is as it was too. *)
Theorem move_onto_itself h root p t :
  wf h root →
  is_path_valid p = true → is_root p = false →
  (is_Some (resolve h root (components p)) →
     ∃ t', tree_move root p p (mkState h t) = Ret EEXIST (mkState h t')) ∧
  (resolve h root (components p) = None →
     ∃ t', tree_move root p p (mkState h t) = Ret ENOENT (mkState h t')).
Proof.
  intros Hwf Hvalid Hroot.
  destruct (valid_path_snoc _ p Hvalid Hroot) as (cs & c & -> & Hall).
  pose proof (names_valid_no_slash _ _ Hall) as Hns.
  rewrite components_render by done.
  destruct (tree_move_spec _ h root cs c cs c t Hwf Hvalid Hvalid Hns Hns
              (is_ancestor_refl _)) as [t' Hspec].
  rewrite Hspec. unfold move_outcome. rewrite resolve_app.
  destruct (resolve h root cs) as [b|] eqn:Hb; simpl.
  - destruct (h !! b ≫= _) as [x|] eqn:Hx; cbn [fst snd].
    + split; [by eexists|done].
    + split; [by intros [? ?]|by eexists].
  - split; [by intros [? ?]|by eexists].
Qed.

End MoveClaims.

(** ** A missing component *)

Section DescentClaims.

Import PathUtils Monitor Heap TreeOps Shape.

Local Open Scope Z_scope.

Lemma entry_event_not_exit cs a : is_writer_exit (entry_event cs a) = false.
Proof. by destruct cs. Qed.

Lemma descent_events_no_writer_exit h cs : ∀ a,
  Forall (λ e, is_writer_exit e = false) (descent_events h a cs).
Proof.
  induction cs as [|c cs IH]; intros a; simpl; [by constructor|].
  destruct (h !! a ≫= _) as [b|].
  - constructor; [apply entry_event_not_exit|]. constructor; [done|apply IH].
  - by constructor.
Qed.

Lemma descent_events_last h cs : ∀ a,
  resolve h a cs = None →
  last (descent_events h a cs) = Some (EvReaderExit (deepest h a cs)).
Proof.
  induction cs as [|c cs IH]; intros a; simpl; [done|].
  destruct (h !! a ≫= _) as [b|]; [|done].
  intros Hres. specialize (IH b Hres).
  destruct (descent_events h b cs) as [|e evs] eqn:E; [done|].
  by rewrite !last_cons_cons.
Qed.

Lemma released_cons e evs a :
  is_writer_exit e = false → evs ≠ [] →
  released_as_reader a evs → released_as_reader a (e :: evs).
Proof.
  intros He Hne [Hlast Hall]. split; [|by constructor].
  destruct evs; [done|]. by rewrite last_cons_cons.
Qed.

Lemma descent_events_released h cs a :
  resolve h a cs = None →
  released_as_reader (deepest h a cs) (descent_events h a cs) ∧
  descent_events h a cs ≠ [].
Proof.
  intros Hres. split; [split|].
  - by apply descent_events_last.
  - apply descent_events_no_writer_exit.
  - apply descent_events_last in Hres. by destruct (descent_events h a cs).
Qed.

Lemma deepest_lock_set X h cs : ∀ a,
  deepest (lock_set X h) a cs = deepest h a cs.
Proof.
  induction cs as [|c cs IH]; intros a; simpl; [done|].
  rewrite children_lock_set. destruct (h !! a ≫= _); [apply IH|done].
Qed.

(** C8, with the common ancestor apart. In a tree at rest, when a
    component of the path is missing: [find_node] with as many steps as the
    path has components, and the walk of [tree_move] down the shared
    components, signal [ENOENT], release the node they hold at that moment
    with the reader exit protocol, and call no writer exit protocol; so
    does [move_dfs] when the first component of its branch is in the map of
    the common ancestor. When that first component is missing, [move_dfs]
    signals [ENOENT] and releases nothing, and its caller then releases the
    common ancestor, which is held by a writer, with the writer exit
    protocol: [target_dfs] at once, and [source_dfs] after the writer exit
    of the target parent it holds besides, when that is another node. *)
Theorem missing_component_release h root :
  wf h root →
  (∀ cs t,
     Forall (λ c, no_slash c = true) cs → resolve h root cs = None →
     ∃ evs,
       find_node root (render cs) (N.of_nat (length cs)) (mkState h t)
       = Ret (ENOENT, None) (mkState h (t ++ evs)) ∧
       released_as_reader (deepest h root cs) evs) ∧
  (∀ pre S' T' t,
     Forall (λ c, no_slash c = true) pre → resolve h root pre = None →
     ∃ evs src tgt tt,
       ((if (N.of_nat (length pre) =? 0)%N then writer_entry_protocol root
         else reader_entry_protocol root) ;;
        shared_loop (S (length pre)) (N.of_nat (length pre))
          (Some (render (pre ++ S'))) (Some (render (pre ++ T')))
          root root) (mkState h t)
       = Ret (ENOENT, src, tgt, tt) (mkState h (t ++ evs)) ∧
       released_as_reader (deepest h root pre) evs) ∧
  (∀ pre lca c cs X t,
     resolve h root pre = Some lca →
     Forall (λ c, no_slash c = true) (c :: cs) →
     resolve h lca (c :: cs) = None →
     (∀ cs1 c1 x, (cs1 ++ [c1]) `prefix_of` (c :: cs) →
        resolve h lca (cs1 ++ [c1]) = Some x → x ∉ X) →
     (is_Some (h !! lca ≫= λ n, map n !! c) →
        ∃ evs,
          move_dfs lca (Some (render (c :: cs)))
            (N.of_nat (length (c :: cs))) (mkState (lock_set X h) t)
          = Ret (ENOENT, None) (mkState (lock_set X h) (t ++ evs)) ∧
          released_as_reader (deepest h lca (c :: cs)) evs) ∧
     ((h !! lca ≫= λ n, map n !! c) = None →
        deepest h lca (c :: cs) = lca ∧
        move_dfs lca (Some (render (c :: cs)))
          (N.of_nat (length (c :: cs))) (mkState (lock_set X h) t)
        = Ret (ENOENT, None) (mkState (lock_set X h) t) ∧
        (∀ tc source sc k,
           target_dfs lca (Some (render (c :: cs))) tc source sc
             (N.of_nat (length (c :: cs))) k (mkState (lock_set {[lca]} h) t)
           = Ret ENOENT (mkState h (t ++ [EvWriterExit lca]))) ∧
        (∀ dst sc tc,
           is_Some (h !! dst) →
           source_dfs lca dst (Some (render (c :: cs))) sc tc
             (N.of_nat (length (c :: cs)))
             (mkState (lock_set {[dst; lca]} h) t)
           = Ret ENOENT
               (mkState h
                  (t ++ (if decide (lca ≠ dst) then [EvWriterExit dst]
                         else []) ++ [EvWriterExit lca]))))).
Proof.
  intros Hwf. split; [|split].
  - intros cs t Hcs Hres.
    destruct (wf_node h root [] root Hwf eq_refl) as (n & Hroot & Hn).
    pose proof (find_node_spec h cs root n t Hcs Hroot Hn
                  (wf_clear_path h root cs [] root Hwf eq_refl)) as Hspec.
    rewrite count_slashes_budget, Hres in Hspec by done.
    eexists. split; [exact Hspec|].
    destruct (descent_events_released h cs root Hres) as [Hrel Hne].
    apply released_cons; [apply entry_event_not_exit|done|done].
  - intros pre S' T' t Hpre Hres.
    destruct (wf_node h root [] root Hwf eq_refl) as (n & Hroot & Hn).
    pose proof (shared_loop_spec h pre S' T' root n
                  (t ++ [entry_event pre root]) (S (length pre)) Hpre
                  ltac:(lia) Hroot Hn
                  (wf_clear_path h root pre [] root Hwf eq_refl)) as Hloop.
    rewrite Hres in Hloop. destruct Hloop as (src & tgt & tt & Hloop).
    exists (entry_event pre root :: descent_events h root pre), src, tgt, tt.
    split.
    + erewrite bind_Ret; cycle 1.
      { by apply entry_run with n. }
      cbn [heap trace]. rewrite Hloop. by rewrite <- app_assoc.
    + destruct (descent_events_released h pre root Hres) as [Hrel Hne].
      apply released_cons; [apply entry_event_not_exit|done|done].
  - intros pre lca c cs X t Hlca Hcs Hres Hfree.
    destruct (wf_node h root pre lca Hwf Hlca) as (nl & Hnl & Hsl).
    assert (Hsome : is_Some (lock_set X h !! lca))
      by (apply lock_set_is_Some; eauto).
    destruct Hsome as [nl' Hnl'].
    pose proof (move_dfs_spec (lock_set X h) (c :: cs) lca nl' t Hcs Hnl'
                  (clear_path_lock_set X h (c :: cs) lca
                     (wf_clear_path h root (c :: cs) pre lca Hwf Hlca) Hfree))
      as Hspec.
    rewrite resolve_lock_set, Hres in Hspec.
    unfold branch_events in Hspec. rewrite children_lock_set in Hspec.
    cbn [resolve deepest] in Hres |- *.
    destruct (h !! lca ≫= _) as [b|] eqn:Hb.
    + split; [|done]. intros _.
      rewrite descent_events_lock_set in Hspec.
      eexists. split; [exact Hspec|].
      destruct (descent_events_released h cs b Hres) as [Hrel Hne].
      apply released_cons; [apply entry_event_not_exit|done|done].
    + split; [by intros [? ?]|]. intros _.
      rewrite app_nil_r in Hspec.
      split; [done|]. split; [exact Hspec|].
      assert (Hmiss : ∀ Y, clear_path (lock_set Y h) lca (c :: cs)).
      { intros Y. apply clear_path_lock_set;
          [by apply wf_clear_path with root pre|].
        intros cs1 c1 x [rest Hpre] Hx.
        destruct cs1 as [|c0 cs1]; simpl in Hpre, Hx;
          injection Hpre as <- _; by rewrite Hb in Hx. }
      split.
      * intros tc source sc k. unfold target_dfs.
        assert (Hsome : is_Some (lock_set {[lca]} h !! lca))
          by (apply lock_set_is_Some; eauto).
        destruct Hsome as [nl1 Hnl1].
        rewrite bind_run.
        rewrite (move_dfs_spec (lock_set {[lca]} h) (c :: cs) lca nl1 t
                   Hcs Hnl1 (Hmiss _)).
        rewrite resolve_lock_set. cbn [resolve branch_events]. rewrite Hb.
        rewrite children_lock_set, Hb.
        rewrite decide_True by done. rewrite app_nil_r.
        rewrite (release_then _ h lca nl) by (done || set_solver).
        rewrite mret_run. do 2 f_equal.
        rewrite <- (lock_set_empty h) at 2. f_equal. set_solver.
      * intros dst sc tc [nd Hnd]. unfold source_dfs.
        assert (Hsd : sync nd = sync_new).
        { destruct Hwf as (_ & Hq & _). exact (Hq dst nd Hnd). }
        assert (Hsome : is_Some (lock_set {[dst; lca]} h !! lca))
          by (apply lock_set_is_Some; eauto).
        destruct Hsome as [nl1 Hnl1].
        rewrite bind_run.
        rewrite (move_dfs_spec (lock_set {[dst; lca]} h) (c :: cs) lca nl1 t
                   Hcs Hnl1 (Hmiss _)).
        rewrite resolve_lock_set. cbn [resolve branch_events]. rewrite Hb.
        rewrite children_lock_set, Hb.
        rewrite decide_True by done. rewrite app_nil_r.
        rewrite (release_if _ _ h dst nd) by (done || set_solver).
        rewrite (release_then _ h lca nl)
          by (done || (case_decide; set_solver)).
        rewrite mret_run. rewrite <- app_assoc. do 2 f_equal.
        rewrite <- (lock_set_empty h) at 2.
        f_equal. case_decide; set_solver.
Qed.

End DescentClaims.

(** ** Sequential runs stay among the trees at rest *)

Section Invariance.

Import PathUtils Monitor Heap TreeOps Shape.

Variable MAX_FOLDER_NAME_LENGTH : nat.

Local Abbreviation is_path_valid := (is_path_valid MAX_FOLDER_NAME_LENGTH).
Local Abbreviation is_name_valid := (is_name_valid MAX_FOLDER_NAME_LENGTH).
Local Abbreviation tree_list := (tree_list MAX_FOLDER_NAME_LENGTH).
Local Abbreviation tree_create := (tree_create MAX_FOLDER_NAME_LENGTH).
Local Abbreviation tree_remove := (tree_remove MAX_FOLDER_NAME_LENGTH).
Local Abbreviation tree_move := (tree_move MAX_FOLDER_NAME_LENGTH).
Local Abbreviation names_ok := (names_ok MAX_FOLDER_NAME_LENGTH).

Local Open Scope Z_scope.

Lemma edge_moved_inv h src sc dst tc m a k x :
  edge (moved h src sc dst tc m) a k x →
  (edge h a k x ∧ ¬ (a = src ∧ k = sc)) ∨ (a = dst ∧ k = tc ∧ x = m).
Proof.
  intros (n & Hn & Hk). rewrite moved_lookup, unlink_lookup in Hn.
  destruct (h !! a) as [n0|] eqn:Ha; [|by repeat case_decide].
  assert (Hcases : map n !! k = Some x →
            (a = dst ∧ k = tc ∧ x = m) ∨
            (map n !! k = (if decide (src = a) then delete sc (map n0)
                           else map n0) !! k ∧ ¬ (a = dst ∧ k = tc))).
  { intros _. repeat case_decide; simpl in Hn; injection Hn as <-;
      simpl in Hk |- *; subst;
      try (apply lookup_insert_Some in Hk as [[<- <-]|[Hne Hk]];
           [by left|right; split;
                    [by rewrite lookup_insert_ne|by intros [_ ?]]]);
      right; split; try done; by intros [? _]. }
  destruct (Hcases Hk) as [?|[Heq Hnot]]; [by right|]. left.
  rewrite Heq in Hk. case_decide.
  - subst a. apply lookup_delete_Some in Hk as [Hne Hk].
    split; [by exists n0|]. by intros [_ ?].
  - split; [by exists n0|]. by intros [? _].
Qed.

Lemma moved_is_Some h src sc dst tc m x :
  is_Some (h !! x) → is_Some (moved h src sc dst tc m !! x).
Proof.
  intros [n Hn]. rewrite moved_lookup, unlink_lookup, Hn.
  repeat case_decide; simpl; eauto.
Qed.

Lemma moved_sync h src sc dst tc m a n :
  moved h src sc dst tc m !! a = Some n →
  ∃ n0, h !! a = Some n0 ∧ sync n = sync n0.
Proof.
  rewrite moved_lookup, unlink_lookup.
  destruct (h !! a) as [n0|]; [|by repeat case_decide].
  intros Hn. exists n0. split; [done|].
  repeat case_decide; simpl in Hn; by injection Hn as <-.
Qed.

(** The store a move leaves is a tree at rest. *)
Lemma wf_moved h root src sc dst tc m :
  wf h root → edge h src sc m →
  wf (moved h src sc dst tc m) root.
Proof.
  intros (Hroot & Hq & Hcl & Hts) Hm.
  split; [|split; [|split]].
  - by apply moved_is_Some.
  - intros a n Hn. apply moved_sync in Hn as (n0 & Hn0 & ->).
    by eapply quiescent_lookup.
  - apply closed_intro. intros a k x He. apply moved_is_Some.
    apply edge_moved_inv in He as [[He _]|(-> & -> & ->)];
      by eapply closed_edge.
  - apply tree_shaped_intro.
    + intros a k He.
      apply edge_moved_inv in He as [[He _]|(-> & -> & <-)];
        by eapply tree_shaped_root.
    + intros a1 k1 a2 k2 x He1 He2.
      apply edge_moved_inv in He1 as [[He1 Hn1]|(-> & -> & ->)];
        apply edge_moved_inv in He2 as [[He2 Hn2]|(-> & -> & Hx)];
        try done.
      * by eapply tree_shaped_unique.
      * subst x. destruct Hn1.
        by apply (tree_shaped_unique h root a1 k1 src sc m).
      * destruct Hn2.
        by apply (tree_shaped_unique h root a2 k2 src sc m).
Qed.

Lemma names_ok_intro h :
  (∀ a k x, edge h a k x → is_name_valid k = true) → names_ok h.
Proof. intros H a n Ha k x Hk. apply (H a k x). by exists n. Qed.

Lemma names_ok_edge h a k x :
  names_ok h → edge h a k x → is_name_valid k = true.
Proof.
  intros Hok (n & Hn & Hk).
  apply (map_Forall_lookup_1 _ _ _ _ (map_Forall_lookup_1 _ _ _ _ Hok Hn) Hk).
Qed.

(** On a tree at rest with valid names every call of the four operations
    returns, and it leaves a tree at rest with valid names. *)
Theorem operations_return h root t :
  wf h root → names_ok h →
  (∀ p, ∃ res t', tree_list root p (mkState h t) = Ret res (mkState h t')) ∧
  (∀ p, ∃ err h' t',
     tree_create root p (mkState h t) = Ret err (mkState h' t') ∧
     wf h' root ∧ names_ok h') ∧
  (∀ p, ∃ err h' t',
     tree_remove root p (mkState h t) = Ret err (mkState h' t') ∧
     wf h' root ∧ names_ok h') ∧
  (∀ source target, ∃ err h' t',
     tree_move root source target (mkState h t) = Ret err (mkState h' t') ∧
     wf h' root ∧ names_ok h').
Proof.
  intros Hwf Hok. split; [|split; [|split]].
  - intros p. destruct (is_path_valid p) eqn:Hvalid.
    + destruct (valid_path_render _ p Hvalid) as (cs & -> & Hall).
      rewrite (tree_list_spec _ h root cs t Hwf Hvalid)
        by (by eapply names_valid_no_slash).
      by eexists _, _.
    + unfold TreeOps.tree_list. rewrite Hvalid. by eexists _, _.
  - intros p. unfold TreeOps.tree_create.
    destruct (is_path_valid p) eqn:Hvalid; [|by eexists _, _, _].
    destruct (is_root p) eqn:Hroot; [by eexists _, _, _|].
    destruct (valid_path_snoc _ p Hvalid Hroot) as (cs & c & -> & Hall).
    pose proof (names_valid_no_slash _ _ Hall) as Hns.
    destruct (tree_create_spec _ h root cs c t Hwf Hvalid Hns) as [t' Hspec].
    unfold TreeOps.tree_create in Hspec. rewrite Hvalid, Hroot in Hspec.
    cbn [negb] in Hspec |- *. rewrite Hspec.
    eexists _, _, _. split; [done|]. unfold create_outcome.
    destruct (resolve h root cs) as [b|] eqn:Hres; [|done].
    destruct (wf_node h root cs b Hwf Hres) as (nb & Hb & _).
    rewrite Hb. simpl. destruct (map nb !! c) as [x|] eqn:Hx; [done|].
    simpl. split; [by apply wf_created with nb|].
    apply names_ok_intro. intros a k x He.
    apply (edge_created h b c nb) in He as [He|(_ & -> & _)]; try done.
    + by eapply names_ok_edge.
    + apply Forall_app in Hall as [_ Hc]. by rewrite Forall_singleton in Hc.
  - intros p. unfold TreeOps.tree_remove.
    destruct (is_path_valid p) eqn:Hvalid; [|by eexists _, _, _].
    destruct (is_root p) eqn:Hroot; [by eexists _, _, _|].
    destruct (valid_path_snoc _ p Hvalid Hroot) as (cs & c & -> & Hall).
    pose proof (names_valid_no_slash _ _ Hall) as Hns.
    destruct (tree_remove_spec _ h root cs c t Hwf Hvalid Hns) as [t' Hspec].
    unfold TreeOps.tree_remove in Hspec. rewrite Hvalid, Hroot in Hspec.
    cbn [negb] in Hspec |- *. rewrite Hspec.
    eexists _, _, _. split; [done|]. unfold remove_outcome.
    destruct (resolve h root cs) as [b|] eqn:Hres; [|done].
    destruct (wf_node h root cs b Hwf Hres) as (nb & Hb & _).
    rewrite Hb. simpl. destruct (map nb !! c) as [son|] eqn:Hson; [|done].
    destruct (h !! son) as [ns|] eqn:Hs; [|done].
    destruct (decide (size (map ns) ≠ 0%nat)) as [|Hsize]; [done|].
    assert (Hempty : map ns = ∅).
    { apply map_size_empty_inv.
      destruct (decide (size (map ns) = 0%nat)); [done|by destruct Hsize]. }
    assert (Hne : son ≠ b).
    { intros ->. assert (nb = ns) by congruence. subst nb.
      by rewrite Hempty, lookup_empty in Hson. }
    simpl. split; [by apply wf_removed with nb ns|].
    apply names_ok_intro. intros a k x He.
    apply (edge_removed h b c son nb ns) in He as [He _]; try done.
    by eapply names_ok_edge.
  - intros source target. unfold TreeOps.tree_move.
    destruct (is_path_valid source) eqn:Hvs; [|by eexists _, _, _].
    destruct (is_path_valid target) eqn:Hvt; [|by eexists _, _, _].
    destruct (is_root source) eqn:Hrs; [by eexists _, _, _|].
    destruct (is_root target) eqn:Hrt; [by eexists _, _, _|].
    cbn [negb orb].
    destruct ((strlen source <? strlen target)%nat && _) eqn:Hcheck;
      [by eexists _, _, _|].
    destruct (valid_path_snoc _ source Hvs Hrs) as (sp & sc & -> & Halls).
    destruct (valid_path_snoc _ target Hvt Hrt) as (tp & tc & -> & Hallt).
    pose proof (names_valid_no_slash _ _ Halls) as Hns.
    pose proof (names_valid_no_slash _ _ Hallt) as Hnt.
    destruct (tree_move_spec _ h root sp sc tp tc t Hwf Hvs Hvt Hns Hnt Hcheck)
      as [t' Hspec].
    unfold TreeOps.tree_move in Hspec.
    rewrite Hvs, Hvt, Hrs, Hrt, Hcheck in Hspec.
    cbn [negb orb] in Hspec. rewrite Hspec.
    eexists _, _, _. split; [done|]. unfold move_outcome.
    destruct (resolve h root tp) as [dst|] eqn:Hdst; [|done].
    destruct (h !! dst ≫= _) as [?|] eqn:Htc; [done|].
    destruct (resolve h root sp) as [src|] eqn:Hsrc; [|done].
    destruct (h !! src ≫= _) as [m|] eqn:Hm; [|done].
    apply children_edge in Hm.
    simpl. split; [by apply wf_moved|].
    apply names_ok_intro. intros a k x He.
    apply edge_moved_inv in He as [[He _]|(_ & -> & _)].
    + by eapply names_ok_edge.
    + apply Forall_app in Hallt as [_ Hc]. by rewrite Forall_singleton in Hc.
Qed.

Lemma wf_new root st :
  tree_new (mkState ∅ []) = Ret root st →
  wf (heap st) root ∧ names_ok (heap st).
Proof.
  unfold tree_new. cbn [heap trace]. intros [= <- <-]. cbn [heap].
  set (root := fresh (dom (∅ : gmap addr Tree))).
  assert (Hnone : ∀ a k x,
            ¬ edge (<[root := mkTree ∅ sync_new]> (∅ : gmap addr Tree)) a k x).
  { intros a k x (n & Hn & Hk).
    apply lookup_insert_Some in Hn as [[_ <-]|[_ Hn]].
    - cbn [map] in Hk. by rewrite lookup_empty in Hk.
    - by rewrite lookup_empty in Hn. }
  split; [split; [|split; [|split]]|].
  - rewrite lookup_insert_eq. eauto.
  - intros a n Hn.
    apply lookup_insert_Some in Hn as [[_ <-]|[_ Hn]];
      [done|by rewrite lookup_empty in Hn].
  - apply closed_intro. intros a k x He. by apply Hnone in He.
  - apply tree_shaped_intro.
    + intros a k He. by apply Hnone in He.
    + intros a1 k1 a2 k2 x He. by apply Hnone in He.
  - apply names_ok_intro. intros a k x He. by apply Hnone in He.
Qed.

(** Every state a sequential program reaches is a tree at rest whose
    names are valid. *)
Theorem sequential_wf root st :
  sequential MAX_FOLDER_NAME_LENGTH root st →
  wf (heap st) root ∧ names_ok (heap st).
Proof.
  induction 1 as [st Hnew|st p res st' _ [Hwf Hok] Hrun
                 |st p err st' _ [Hwf Hok] Hrun
                 |st p err st' _ [Hwf Hok] Hrun
                 |st s t err st' _ [Hwf Hok] Hrun].
  - by apply wf_new.
  - destruct st as [h t0].
    destruct (operations_return h root t0 Hwf Hok) as (Hlist & _).
    destruct (Hlist p) as (r & t' & Heq). cbn [heap] in *.
    rewrite Heq in Hrun. by injection Hrun as _ <-.
  - destruct st as [h t0].
    destruct (operations_return h root t0 Hwf Hok) as (_ & Hcreate & _).
    destruct (Hcreate p) as (e & h' & t' & Heq & Hwf' & Hok').
    rewrite Heq in Hrun. by injection Hrun as _ <-.
  - destruct st as [h t0].
    destruct (operations_return h root t0 Hwf Hok) as (_ & _ & Hremove & _).
    destruct (Hremove p) as (e & h' & t' & Heq & Hwf' & Hok').
    rewrite Heq in Hrun. by injection Hrun as _ <-.
  - destruct st as [h t0].
    destruct (operations_return h root t0 Hwf Hok) as (_ & _ & _ & Hmove).
    destruct (Hmove s t) as (e & h' & t' & Heq & Hwf' & Hok').
    rewrite Heq in Hrun. by injection Hrun as _ <-.
Qed.

End Invariance.
(** ** The four operations on a tree at rest: every outcome *)

Section OperationFacts.

Import PathUtils Monitor Heap TreeOps Shape.

Variable MAX_FOLDER_NAME_LENGTH : nat.

Local Abbreviation is_path_valid := (is_path_valid MAX_FOLDER_NAME_LENGTH).
Local Abbreviation is_name_valid := (is_name_valid MAX_FOLDER_NAME_LENGTH).
Local Abbreviation tree_list := (tree_list MAX_FOLDER_NAME_LENGTH).
Local Abbreviation tree_create := (tree_create MAX_FOLDER_NAME_LENGTH).
Local Abbreviation tree_remove := (tree_remove MAX_FOLDER_NAME_LENGTH).
Local Abbreviation tree_move := (tree_move MAX_FOLDER_NAME_LENGTH).
Local Abbreviation names_ok := (names_ok MAX_FOLDER_NAME_LENGTH).

Local Open Scope Z_scope.

Lemma resolve_one h a c :
  resolve h a [c] = (h !! a ≫= λ n, map n !! c).
Proof. simpl. by destruct (h !! a ≫= _). Qed.

Lemma resolve_one_edge h a c b : resolve h a [c] = Some b ↔ edge h a c b.
Proof. by rewrite resolve_one, children_edge. Qed.

(** X8. For a valid path, in a tree at rest, [tree_list] returns and leaves
    the store as it was. When the path names a folder the result is a
    string whose entries are exactly the names of the children of that
    folder; when it names none the result is null. *)
Theorem list_reads_folder h root p t :
  wf h root → names_ok h → is_path_valid p = true →
  ∃ t',
    match resolve h root (components p) with
    | Some a =>
        ∃ res,
          tree_list root p (mkState h t) = Ret (Some res) (mkState h t') ∧
          ∀ c, c ∈ entries res ↔ ∃ b, edge h a c b
    | None => tree_list root p (mkState h t) = Ret None (mkState h t')
    end.
Proof.
  intros Hwf Hok Hvalid.
  destruct (valid_path_render _ p Hvalid) as (cs & -> & Hall).
  pose proof (names_valid_no_slash _ _ Hall) as Hns.
  rewrite components_render by done.
  exists (t ++ EvReaderEntry root :: reader_events h root cs).
  rewrite (tree_list_spec _ h root cs t Hwf Hvalid Hns). unfold listing.
  destruct (resolve h root cs) as [a|] eqn:Hres; cbn [mbind option_bind];
    [|done].
  destruct (wf_node h root cs a Hwf Hres) as (n & Ha & _).
  rewrite Ha. cbn [mbind option_bind].
  eexists. split; [done|]. intros c.
  rewrite (elem_of_entries MAX_FOLDER_NAME_LENGTH)
    by (by apply names_ok_lookup with h a).
  split.
  - intros [b Hb]. exists b, n. done.
  - intros (b & n' & Hn' & Hb). exists b. congruence.
Qed.

(** X9. For a valid path other than the root path, in a tree at rest:
    [tree_create] returns [ENOENT] when the parent path names no folder and
    [EEXIST] when the path names a folder already; in both cases the store
    is what it was. *)
Theorem create_refused h root p parent c t :
  wf h root → is_path_valid p = true → is_root p = false →
  make_path_to_parent p = Some (parent, c) →
  (resolve h root (components parent) = None →
     ∃ t', tree_create root p (mkState h t) = Ret ENOENT (mkState h t')) ∧
  (is_Some (resolve h root (components p)) →
     ∃ t', tree_create root p (mkState h t) = Ret EEXIST (mkState h t')).
Proof.
  intros Hwf Hvalid Hroot Hparent.
  destruct (valid_path_snoc _ p Hvalid Hroot) as (cs & c' & -> & Hall).
  pose proof (names_valid_no_slash _ _ Hall) as Hns.
  rewrite make_path_to_parent_render in Hparent by done.
  injection Hparent as <- <-.
  pose proof Hns as Hns'. apply Forall_app in Hns' as [Hcs _].
  rewrite !components_render by done.
  destruct (tree_create_spec _ h root cs c' t Hwf Hvalid Hns) as [t' Hspec].
  rewrite Hspec. unfold create_outcome. split.
  - intros ->. by exists t'.
  - intros [x Hx]. apply resolve_snoc in Hx as (b & -> & He).
    apply children_edge in He. rewrite He. by exists t'.
Qed.

(** X10. For a valid path other than the root path whose parent path names a
    folder and which names none itself, in a tree at rest, [tree_create]
    returns 0 after it has allocated one node, which was not in use, has an
    empty map and counters at zero, and is the child of the parent under the
    last component; no other name and no other node has changed. *)
Theorem create_adds_empty_folder h root p parent c b nb t :
  wf h root → is_path_valid p = true → is_root p = false →
  make_path_to_parent p = Some (parent, c) →
  resolve h root (components parent) = Some b → h !! b = Some nb →
  resolve h root (components p) = None →
  ∃ son h' t',
    tree_create root p (mkState h t) = Ret 0 (mkState h' t') ∧
    h !! son = None ∧
    h' !! son = Some (mkTree ∅ sync_new) ∧
    h' !! b = Some (mkTree (<[c := son]> (map nb)) (sync nb)) ∧
    (∀ x, x ≠ son → x ≠ b → h' !! x = h !! x) ∧
    resolve h' root (components p) = Some son.
Proof.
  intros Hwf Hvalid Hroot Hparent Hres Hb Hnone.
  destruct (valid_path_snoc _ p Hvalid Hroot) as (cs & c' & -> & Hall).
  pose proof (names_valid_no_slash _ _ Hall) as Hns.
  rewrite make_path_to_parent_render in Hparent by done.
  injection Hparent as <- <-.
  pose proof Hns as Hns'. apply Forall_app in Hns' as [Hcs _].
  rewrite !components_render in * by done.
  destruct (tree_create_spec _ h root cs c' t Hwf Hvalid Hns) as [t' Hspec].
  unfold create_outcome in Hspec. rewrite Hres, Hb in Hspec.
  cbn [mbind option_bind] in Hspec.
  destruct (map nb !! c') as [x|] eqn:Hx.
  { assert (resolve h root (cs ++ [c']) = Some x); [|congruence].
    apply resolve_snoc. exists b. split; [done|]. by exists nb. }
  cbn [fst snd] in Hspec.
  pose proof (fresh_not_in h) as Hfresh.
  exists (fresh (dom h)), (created h b c'), t'.
  split; [done|]. split; [done|].
  split; [by apply created_son with nb|].
  split; [by apply created_parent|]. split.
  - intros y Hy1 Hy2. rewrite created_lookup, decide_False by done.
    by rewrite lookup_insert_ne.
  - apply resolve_snoc. exists b.
    split; [by apply resolve_created with nb|].
    eexists. split; [by apply created_parent|]. cbn [map].
    by rewrite lookup_insert_eq.
Qed.

(** X11. For a valid path other than the root path that names no folder
    (its parent path names none, or the parent has no child of that name),
    in a tree at rest, [tree_remove] returns [ENOENT] and the store is what
    it was. *)
Theorem remove_missing h root p t :
  wf h root → is_path_valid p = true → is_root p = false →
  resolve h root (components p) = None →
  ∃ t', tree_remove root p (mkState h t) = Ret ENOENT (mkState h t').
Proof.
  intros Hwf Hvalid Hroot Hnone.
  destruct (valid_path_snoc _ p Hvalid Hroot) as (cs & c & -> & Hall).
  pose proof (names_valid_no_slash _ _ Hall) as Hns.
  rewrite components_render in Hnone by done.
  destruct (tree_remove_spec _ h root cs c t Hwf Hvalid Hns) as [t' Hspec].
  exists t'. rewrite Hspec. unfold remove_outcome.
  destruct (resolve h root cs) as [b|] eqn:Hres; [|done].
  destruct (h !! b ≫= _) as [son|] eqn:Hson; [|done].
  assert (resolve h root (cs ++ [c]) = Some son); [|congruence].
  apply resolve_snoc. exists b. split; [done|]. by apply children_edge.
Qed.

(** X12. For a valid path other than the root path that names a folder
    with an empty map, in a tree at rest, [tree_remove] returns 0 after it
    has freed the node of that folder and taken its name out of the map of
    its parent; no other name and no other node has changed, and the path
    names no folder any more. *)
Theorem remove_frees_empty_folder h root p parent c a na t :
  wf h root → is_path_valid p = true → is_root p = false →
  make_path_to_parent p = Some (parent, c) →
  resolve h root (components p) = Some a →
  h !! a = Some na → map na = ∅ →
  ∃ b nb h' t',
    resolve h root (components parent) = Some b ∧ h !! b = Some nb ∧
    tree_remove root p (mkState h t) = Ret 0 (mkState h' t') ∧
    h' !! a = None ∧
    h' !! b = Some (mkTree (delete c (map nb)) (sync nb)) ∧
    (∀ x, x ≠ a → x ≠ b → h' !! x = h !! x) ∧
    size h' = Nat.pred (size h) ∧
    resolve h' root (components p) = None.
Proof.
  intros Hwf Hvalid Hroot Hparent Hres Ha Hempty.
  destruct (valid_path_snoc _ p Hvalid Hroot) as (cs & c' & -> & Hall).
  pose proof (names_valid_no_slash _ _ Hall) as Hns.
  rewrite make_path_to_parent_render in Hparent by done.
  injection Hparent as <- <-.
  pose proof Hns as Hns'. apply Forall_app in Hns' as [Hcs _].
  rewrite !components_render in * by done.
  destruct (tree_remove_spec _ h root cs c' t Hwf Hvalid Hns) as [t' Hspec].
  unfold remove_outcome in Hspec.
  pose proof Hres as Hres'.
  apply resolve_snoc in Hres' as (b & Hb & He).
  pose proof (wf_child_ne h root cs b c' a Hwf Hb He) as Hne.
  pose proof He as (nb & Hnb & Hc).
  apply children_edge in He.
  rewrite Hb, He, Ha, decide_False in Hspec
    by (rewrite Hempty, map_size_empty; intros H; by apply H).
  cbn [fst snd] in Hspec.
  exists b, nb, (removed h b c' a), t'.
  split; [done|]. split; [done|]. split; [done|].
  split; [by rewrite removed_lookup, decide_True|].
  split; [by rewrite removed_lookup, decide_False, decide_True, Hnb by done|].
  split; [intros x Hx1 Hx2; by rewrite removed_lookup, !decide_False by done|].
  split.
  - unfold removed, unlink. rewrite map_size_delete.
    rewrite lookup_alter_ne, Ha by done. f_equal.
    by rewrite <- !size_dom, dom_alter_L.
  - destruct (resolve (removed h b c' a) root (cs ++ [c'])) as [x|] eqn:Hx;
      [|done].
    apply resolve_snoc in Hx as (b' & Hb' & (nb' & Hnb' & Hc')).
    assert (b' = b) as ->.
    { assert (resolve (removed h b c' a) root cs = Some b) as Hb2.
      { apply (resolve_removed h b c' a nb na); auto. }
      congruence. }
    rewrite removed_lookup, decide_False, decide_True, Hnb in Hnb' by done.
    injection Hnb' as <-. cbn [map] in Hc'.
    by rewrite lookup_delete_eq in Hc'.
Qed.

(** The test of lines 418 and 419 on the paths of two lists of names. *)
Lemma render_tail_prefix S : ∀ T r,
  Forall (λ c, no_slash c = true) S → Forall (λ c, no_slash c = true) T →
  render_tail S +:+ r = render_tail T → ∃ rest, T = S ++ rest.
Proof.
  induction S as [|c S IH]; intros T r HS HT Heq; [by exists T|].
  apply Forall_cons in HS as [Hc HS].
  destruct T as [|d T].
  { simpl in Heq. rewrite app_assoc_str in Heq. by destruct c. }
  apply Forall_cons in HT as [Hd HT].
  simpl in Heq. rewrite app_assoc_str, app_cons in Heq.
  assert (Hu : until_slash (c +:+ String "/"%char (render_tail S +:+ r))
               = until_slash (d +:+ String "/"%char (render_tail T)))
    by (by rewrite Heq).
  rewrite !until_slash_name in Hu by done.
  injection Hu as -> Hrest.
  destruct (IH T r HS HT Hrest) as [rest ->]. by exists rest.
Qed.

Lemma is_ancestor_render S T :
  Forall (λ c, no_slash c = true) S → Forall (λ c, no_slash c = true) T →
  is_ancestor (render S) (render T) = true ↔ S `prefix_of` T ∧ S ≠ T.
Proof.
  intros HS HT. unfold is_ancestor. split.
  - intros [Hlen Hcmp]%andb_true_iff. apply Nat.ltb_lt in Hlen.
    destruct (strncmp_eq_prefix _ _ Hcmp ltac:(lia)) as [r Hr].
    unfold render in Hr. rewrite app_cons in Hr. injection Hr as Hr.
    destruct (render_tail_prefix S T r HS HT (eq_sym Hr)) as [rest ->].
    split; [by exists rest|]. intros Heq. rewrite <- Heq in Hlen. lia.
  - intros [[rest ->] Hne]. apply ancestor_check. intros ->.
    by rewrite app_nil_r in Hne.
Qed.

Lemma is_ancestor_components s t :
  is_path_valid s = true → is_path_valid t = true →
  is_ancestor s t = true ↔
  components s `prefix_of` components t ∧ components s ≠ components t.
Proof.
  intros Hs Ht.
  destruct (valid_path_render _ s Hs) as (S & -> & HS).
  destruct (valid_path_render _ t Ht) as (T & -> & HT).
  apply names_valid_no_slash in HS, HT.
  rewrite !components_render by done. by apply is_ancestor_render.
Qed.

Lemma resolve_prefix h a cs1 cs2 :
  is_Some (resolve h a (cs1 ++ cs2)) → is_Some (resolve h a cs1).
Proof.
  rewrite resolve_app. destruct (resolve h a cs1); [eauto|].
  by intros [? ?].
Qed.

(** X13. [tree_move] returns -1 for no other reason than the one of
    line 419: in a tree at rest, a call that returns -1 has a source whose
    components are a proper prefix of the components of the target, and it
    leaves the store as it was. *)
Theorem move_minus_one_only_into_descendant h root s t t0 st' :
  wf h root →
  tree_move root s t (mkState h t0) = Ret (-1) st' →
  components s `prefix_of` components t ∧ components s ≠ components t ∧
  st' = mkState h t0.
Proof.
  intros Hwf Hrun. unfold TreeOps.tree_move in Hrun.
  destruct (PathUtils.is_path_valid _ s) eqn:Hs; [|done].
  destruct (PathUtils.is_path_valid _ t) eqn:Ht; [|done].
  cbn [negb orb] in Hrun.
  destruct (is_root s) eqn:Hrs; [done|].
  destruct (is_root t) eqn:Hrt; [done|].
  fold (is_ancestor s t) in Hrun.
  destruct (is_ancestor s t) eqn:Hanc.
  { apply is_ancestor_components in Hanc as [? ?]; [|done..].
    injection Hrun as <-. done. }
  exfalso.
  destruct (valid_path_snoc _ s Hs Hrs) as (sp & sc & -> & HS).
  destruct (valid_path_snoc _ t Ht Hrt) as (tp & tc & -> & HT).
  pose proof (names_valid_no_slash _ _ HS) as HS'.
  pose proof (names_valid_no_slash _ _ HT) as HT'.
  destruct (tree_move_spec _ h root sp sc tp tc t0 Hwf Hs Ht HS' HT' Hanc)
    as [t' Hspec].
  unfold TreeOps.tree_move in Hspec.
  rewrite Hs, Ht, Hrs, Hrt in Hspec. cbn [negb orb] in Hspec.
  fold (is_ancestor (render (sp ++ [sc])) (render (tp ++ [tc]))) in Hspec.
  rewrite Hanc in Hspec. rewrite Hspec in Hrun.
  unfold move_outcome in Hrun.
  repeat (destruct (_ : option addr) in Hrun; cbn [fst snd] in Hrun);
    discriminate.
Qed.

(** X14. The errors of [tree_move] and their order. For valid paths other
    than the root path, the source not a proper ancestor of the target, in
    a tree at rest: [tree_move] returns [ENOENT] when the parent path of
    the target names no folder; it returns [EEXIST] when the target names a
    folder, whether the source names one or not; and when the target can be
    made and the source names no folder it returns [ENOENT]. In each case
    the store is what it was. *)
Theorem move_refused h root s t tparent tc t0 :
  wf h root →
  is_path_valid s = true → is_path_valid t = true →
  is_root s = false → is_root t = false →
  (components s `prefix_of` components t → components s = components t) →
  make_path_to_parent t = Some (tparent, tc) →
  (resolve h root (components tparent) = None →
     ∃ t', tree_move root s t (mkState h t0) = Ret ENOENT (mkState h t')) ∧
  (is_Some (resolve h root (components t)) →
     ∃ t', tree_move root s t (mkState h t0) = Ret EEXIST (mkState h t')) ∧
  (is_Some (resolve h root (components tparent)) →
   resolve h root (components t) = None →
   resolve h root (components s) = None →
     ∃ t', tree_move root s t (mkState h t0) = Ret ENOENT (mkState h t')).
Proof.
  intros Hwf Hs Ht Hrs Hrt Hnot Hparent.
  assert (Hanc : is_ancestor s t = false).
  { destruct (is_ancestor s t) eqn:E; [|done].
    apply is_ancestor_components in E as [Hpre Hne]; [|done..].
    by destruct Hne; apply Hnot. }
  destruct (valid_path_snoc _ s Hs Hrs) as (sp & sc & -> & HS).
  destruct (valid_path_snoc _ t Ht Hrt) as (tp & tc' & -> & HT).
  pose proof (names_valid_no_slash _ _ HS) as HS'.
  pose proof (names_valid_no_slash _ _ HT) as HT'.
  rewrite make_path_to_parent_render in Hparent by done.
  injection Hparent as <- <-.
  pose proof HT' as HT''. apply Forall_app in HT'' as [Htp _].
  rewrite !components_render by done.
  destruct (tree_move_spec _ h root sp sc tp tc' t0 Hwf Hs Ht HS' HT' Hanc)
    as [t' Hspec].
  rewrite Hspec. unfold move_outcome. split; [|split].
  - intros ->. by exists t'.
  - intros [x Hx]. apply resolve_snoc in Hx as (dst & -> & He).
    apply children_edge in He. rewrite He. by exists t'.
  - intros [dst Hdst] Hnone Hsrc. rewrite Hdst.
    destruct (h !! dst ≫= _) as [x|] eqn:Hx.
    { assert (resolve h root (tp ++ [tc']) = Some x); [|congruence].
      apply resolve_snoc. exists dst. split; [done|]. by apply children_edge. }
    destruct (resolve h root sp) as [src|] eqn:Hsp; [|by exists t'].
    destruct (h !! src ≫= _) as [m|] eqn:Hm; [|by exists t'].
    assert (resolve h root (sp ++ [sc]) = Some m); [|congruence].
    apply resolve_snoc. exists src. split; [done|]. by apply children_edge.
Qed.

Ltac map_cases j :=
  apply map_eq; intros j;
  repeat match goal with
  | |- context [<[?i := _]> _ !! j] =>
      destruct (decide (i = j)) as [<-|];
      [rewrite lookup_insert_eq|rewrite lookup_insert_ne by done]
  | |- context [delete ?i _ !! j] =>
      destruct (decide (i = j)) as [<-|];
      [rewrite lookup_delete_eq|rewrite lookup_delete_ne by done]
  end; try congruence.

(** Putting the node back undoes [moved]. *)
Lemma moved_back h src sc dst tc m ns nd :
  h !! src = Some ns → map ns !! sc = Some m →
  h !! dst = Some nd → map nd !! tc = None →
  moved (moved h src sc dst tc m) dst tc src sc m = h.
Proof.
  intros Hs Hsc Hd Htc. apply map_eq. intros k. unfold moved.
  rewrite !link_lookup, !unlink_lookup, !link_lookup, !unlink_lookup.
  destruct (decide (src = k)) as [Hk1|Hk1];
    destruct (decide (dst = k)) as [Hk2|Hk2]; subst; try done.
  - rewrite Hs in *. injection Hd as <-. cbn. f_equal.
    destruct ns as [mp sy]. cbn in *. f_equal. map_cases j.
  - rewrite Hs. cbn. f_equal.
    destruct ns as [mp sy]. cbn in *. f_equal. map_cases j.
  - rewrite Hd. cbn. f_equal.
    destruct nd as [mp sy]. cbn in *. f_equal. map_cases j.
Qed.

(** X15. Moving back undoes a move. In a tree at rest, when [tree_move]
    from a source to a target returns 0, [tree_move] from the target to the
    source, run next, returns 0 as well and leaves the store the first call
    started from: every map and every node. *)
Theorem move_roundtrip h root s t t0 st1 :
  wf h root →
  tree_move root s t (mkState h t0) = Ret 0 st1 →
  ∃ t2, tree_move root t s st1 = Ret 0 (mkState h t2).
Proof.
  intros Hwf Hrun. pose proof Hrun as Hrun0.
  unfold TreeOps.tree_move in Hrun.
  destruct (PathUtils.is_path_valid _ s) eqn:Hs; [|done].
  destruct (PathUtils.is_path_valid _ t) eqn:Ht; [|done].
  cbn [negb orb] in Hrun.
  destruct (is_root s) eqn:Hrs; [done|].
  destruct (is_root t) eqn:Hrt; [done|].
  fold (is_ancestor s t) in Hrun.
  destruct (is_ancestor s t) eqn:Hanc; [done|]. clear Hrun.
  destruct (valid_path_snoc _ s Hs Hrs) as (sp & sc & -> & HS).
  destruct (valid_path_snoc _ t Ht Hrt) as (tp & tc & -> & HT).
  pose proof (names_valid_no_slash _ _ HS) as HS'.
  pose proof (names_valid_no_slash _ _ HT) as HT'.
  destruct (tree_move_spec _ h root sp sc tp tc t0 Hwf Hs Ht HS' HT' Hanc)
    as [t1 Hspec].
  rewrite Hspec in Hrun0. unfold move_outcome in Hrun0.
  destruct (resolve h root tp) as [dst|] eqn:Hdst; [|done].
  destruct (h !! dst ≫= _) as [x|] eqn:Htc; [done|].
  destruct (resolve h root sp) as [src|] eqn:Hsrc; [|done].
  destruct (h !! src ≫= _) as [m|] eqn:Hsc; [|done].
  cbn [fst snd] in Hrun0. injection Hrun0 as <-.
  pose proof Hsc as He. apply children_edge in He.
  destruct He as (ns & Hns & Hm).
  destruct (wf_node h root tp dst Hwf Hdst) as (nd & Hnd & _).
  assert (Hnd' : map nd !! tc = None) by (by rewrite Hnd in Htc).
  pose proof (wf_moved h root src sc dst tc m Hwf
                ltac:(by exists ns)) as Hwf'.
  assert (Hshape : tree_shaped h root) by apply Hwf.
  assert (Hback : is_ancestor (render (tp ++ [tc])) (render (sp ++ [sc]))
                  = false).
  { destruct (is_ancestor (render (tp ++ [tc])) (render (sp ++ [sc])))
      eqn:E; [|done].
    apply is_ancestor_render in E as [[rest Hrest] _]; [|done..].
    assert (Hsome : is_Some (resolve h root ((tp ++ [tc]) ++ rest))).
    { rewrite <- Hrest. exists m. apply resolve_snoc. exists src.
      split; [done|]. by exists ns. }
    apply resolve_prefix in Hsome as [y Hy].
    apply resolve_snoc in Hy as (dst' & Hdst' & He').
    assert (dst' = dst) by congruence. subst dst'.
    apply children_edge in He'. congruence. }
  destruct (tree_move_spec _ _ root tp tc sp sc t1 Hwf' Ht Hs HT' HS' Hback)
    as [t2 Hspec2].
  exists t2. rewrite Hspec2. unfold move_outcome.
  assert (Hlen : ∀ (l : list string) c, ¬ (l ++ [c]) `prefix_of` l).
  { intros l c [k Hk]. apply (f_equal length) in Hk.
    rewrite !length_app in Hk. simpl in Hk. lia. }
  rewrite (resolve_moved h root sp sc tc src dst m sp [] root src)
    by (done || apply Hlen).
  assert (Hgone : (moved h src sc dst tc m !! src ≫= λ n, map n !! sc)
                  = None).
  { rewrite moved_lookup, unlink_lookup.
    rewrite (decide_True (P := src = src)), Hns by done.
    destruct (decide (dst = src)) as [->|]; cbn.
    - assert (tc ≠ sc) by (intros ->; congruence).
      rewrite lookup_insert_ne by done. apply lookup_delete_eq.
    - apply lookup_delete_eq. }
  rewrite Hgone.
  rewrite (resolve_moved h root sp sc tc src dst m tp [] root dst);
    try done; cycle 1.
  { intros [k Hk]. simpl in Hk.
    assert (is_ancestor (render (sp ++ [sc])) (render (tp ++ [tc])) = true);
      [|congruence].
    apply is_ancestor_render; [done..|]. split.
    - exists (k ++ [tc]). by rewrite Hk, <- app_assoc.
    - intros Heq. apply (Hlen tp tc). exists k.
      rewrite <- Heq. by rewrite Hk at 1. }
  pose proof (edge_moved_new h src sc dst tc m ltac:(by exists nd)) as He.
  apply children_edge in He. rewrite He. cbn [fst snd].
  by rewrite (moved_back h src sc dst tc m ns nd).
Qed.

(** X16. A folder just made is empty and is there. In a tree at rest,
    when [tree_create] of a path returns 0: [tree_list] of that path, run
    next, returns the empty string; and [tree_create] of that path, run
    next instead, returns [EEXIST] and changes nothing. *)
Theorem created_folder_is_empty h root p t st1 :
  wf h root →
  tree_create root p (mkState h t) = Ret 0 st1 →
  (∃ t2, tree_list root p st1 = Ret (Some EmptyString)
                                  (mkState (heap st1) t2)) ∧
  (∃ t2, tree_create root p st1 = Ret EEXIST (mkState (heap st1) t2)).
Proof.
  intros Hwf Hrun. pose proof Hrun as Hrun0.
  unfold TreeOps.tree_create in Hrun.
  destruct (PathUtils.is_path_valid _ p) eqn:Hvalid; [|done].
  cbn [negb] in Hrun.
  destruct (is_root p) eqn:Hroot; [done|]. clear Hrun.
  destruct (valid_path_snoc _ p Hvalid Hroot) as (cs & c & -> & Hall).
  pose proof (names_valid_no_slash _ _ Hall) as Hns.
  destruct (tree_create_spec _ h root cs c t Hwf Hvalid Hns) as [t1 Hspec].
  rewrite Hspec in Hrun0. unfold create_outcome in Hrun0.
  destruct (resolve h root cs) as [b|] eqn:Hres; [|done].
  destruct (wf_node h root cs b Hwf Hres) as (nb & Hb & _).
  rewrite Hb in Hrun0. cbn [mbind option_bind] in Hrun0.
  destruct (map nb !! c) as [x|] eqn:Hx; [done|].
  cbn [fst snd] in Hrun0. injection Hrun0 as <-. cbn [heap].
  pose proof (wf_created h root b c nb Hwf Hb Hx) as Hwf'.
  pose proof (resolve_created h b c nb cs root b Hb Hx Hres) as Hres'.
  pose proof (created_parent h b c nb Hb) as Hb'.
  pose proof (created_son h b c nb Hb) as Hson.
  split.
  - eexists.
    rewrite (tree_list_spec _ _ root (cs ++ [c]) t1 Hwf' Hvalid Hns).
    unfold listing. rewrite resolve_app, Hres'. cbn [mbind option_bind].
    rewrite resolve_one, Hb'. cbn [mbind option_bind map].
    rewrite lookup_insert_eq. cbn [mbind option_bind].
    rewrite Hson. cbn [mbind option_bind map].
    unfold make_map_contents_string. by rewrite map_to_list_empty.
  - destruct (tree_create_spec _ _ root cs c t1 Hwf' Hvalid Hns)
      as [t2 Hspec2].
    exists t2. rewrite Hspec2. unfold create_outcome.
    rewrite Hres', Hb'. cbn [mbind option_bind map].
    by rewrite lookup_insert_eq.
Qed.

(** X17. A folder just removed is gone. In a tree at rest, when
    [tree_remove] of a path returns 0: [tree_list] of that path, run next,
    returns null; and [tree_remove] of that path, run next instead, returns
    [ENOENT] and changes nothing. *)
Theorem removed_folder_is_gone h root p t st1 :
  wf h root →
  tree_remove root p (mkState h t) = Ret 0 st1 →
  (∃ t2, tree_list root p st1 = Ret None (mkState (heap st1) t2)) ∧
  (∃ t2, tree_remove root p st1 = Ret ENOENT (mkState (heap st1) t2)).
Proof.
  intros Hwf Hrun. pose proof Hrun as Hrun0.
  unfold TreeOps.tree_remove in Hrun.
  destruct (PathUtils.is_path_valid _ p) eqn:Hvalid; [|done].
  cbn [negb] in Hrun.
  destruct (is_root p) eqn:Hroot; [done|]. clear Hrun.
  destruct (valid_path_snoc _ p Hvalid Hroot) as (cs & c & -> & Hall).
  pose proof (names_valid_no_slash _ _ Hall) as Hns.
  destruct (tree_remove_spec _ h root cs c t Hwf Hvalid Hns) as [t1 Hspec].
  rewrite Hspec in Hrun0. unfold remove_outcome in Hrun0.
  destruct (resolve h root cs) as [b|] eqn:Hres; [|done].
  destruct (wf_node h root cs b Hwf Hres) as (nb & Hb & _).
  rewrite Hb in Hrun0. cbn [mbind option_bind] in Hrun0.
  destruct (map nb !! c) as [son|] eqn:Hson; [|done].
  destruct (h !! son) as [ns|] eqn:Hs; [|done].
  destruct (decide (size (map ns) ≠ 0%nat)) as [|Hsize]; [done|].
  cbn [fst snd] in Hrun0. injection Hrun0 as <-. cbn [heap].
  assert (Hempty : map ns = ∅).
  { apply map_size_empty_inv.
    destruct (decide (size (map ns) = 0%nat)); [done|by destruct Hsize]. }
  assert (Hne : son ≠ b).
  { intros ->. assert (nb = ns) by congruence. subst nb.
    by rewrite Hempty, lookup_empty in Hson. }
  pose proof (wf_removed h root b c son nb ns Hwf Hb Hson Hs Hempty) as Hwf'.
  assert (Hres' : resolve (removed h b c son) root cs = Some b).
  { apply (resolve_removed h b c son nb ns); auto. }
  assert (Hb' : (removed h b c son !! b ≫= λ n, map n !! c) = None).
  { rewrite removed_lookup, decide_False, decide_True, Hb by done.
    cbn. apply lookup_delete_eq. }
  split.
  - eexists.
    rewrite (tree_list_spec _ _ root (cs ++ [c]) t1 Hwf' Hvalid Hns).
    unfold listing. rewrite resolve_app, Hres'. cbn [mbind option_bind].
    by rewrite resolve_one, Hb'.
  - destruct (tree_remove_spec _ _ root cs c t1 Hwf' Hvalid Hns)
      as [t2 Hspec2].
    exists t2. rewrite Hspec2. unfold remove_outcome.
    by rewrite Hres', Hb'.
Qed.

(** X18. [find_node] with the budget its callers give it, the number of
    components of the path: in a tree at rest it returns 0 and the node the
    path names when there is one, and then that node is held by one writer
    and every other node is as it was; it returns [ENOENT] and a null
    pointer when there is none, and then the store is what it was. *)
Theorem find_node_holds_target h root p t :
  wf h root → is_path_valid p = true →
  ∃ evs,
    match resolve h root (components p) with
    | Some b =>
        ∃ h',
          find_node root p (size_sub (count_slashes p) 1) (mkState h t)
          = Ret (0, Some b) (mkState h' (t ++ evs)) ∧
          (∃ nb, h !! b = Some nb ∧ h' !! b = Some (mkTree (map nb) wlocked)) ∧
          ∀ x, x ≠ b → h' !! x = h !! x
    | None =>
        find_node root p (size_sub (count_slashes p) 1) (mkState h t)
        = Ret (ENOENT, None) (mkState h (t ++ evs))
    end.
Proof.
  intros Hwf Hvalid.
  destruct (valid_path_render _ p Hvalid) as (cs & -> & Hall).
  pose proof (names_valid_no_slash _ _ Hall) as Hns.
  rewrite components_render by done.
  destruct (wf_node h root [] root Hwf eq_refl) as (n & Hroot & Hn).
  exists (entry_event cs root :: descent_events h root cs).
  rewrite (find_node_spec h cs root n)
    by (done || by apply wf_clear_path with root []).
  destruct (resolve h root cs) as [b|] eqn:Hres; [|done].
  destruct (wf_node h root cs b Hwf Hres) as (nb & Hb & _).
  exists (lock wlocked b h). split; [done|]. split.
  - exists nb. split; [done|]. by apply lock_lookup_eq.
  - intros x Hx. by apply lock_lookup_ne.
Qed.

End OperationFacts.

(** ** Lock coupling *)

Section DisciplineFacts.

Import PathUtils Monitor Heap TreeOps Shape Discipline.

Variable MAX_FOLDER_NAME_LENGTH : nat.

Local Abbreviation is_path_valid := (is_path_valid MAX_FOLDER_NAME_LENGTH).
Local Abbreviation tree_list := (tree_list MAX_FOLDER_NAME_LENGTH).

Lemma after_entry cs a b g :
  b ≠ a →
  after {[a := g]} (entry_event cs b)
  = Some (<[b := grip_of cs]> {[a := g]}).
Proof.
  intros Hne. destruct cs; simpl; by rewrite lookup_singleton_ne.
Qed.

Lemma after_handover a b (g : grip) :
  b ≠ a →
  after (<[b := g]> {[a := AsReader]}) (EvReaderExit a) = Some {[b := g]}.
Proof.
  intros Hne. simpl. rewrite lookup_insert_ne, lookup_singleton_eq by done.
  f_equal. rewrite delete_insert_ne by done.
  by rewrite delete_singleton_eq, insert_empty.
Qed.

Lemma coupled_cons held e evs X :
  after held e = Some X →
  (evs ≠ [] → (1 ≤ size X ≤ 2)%nat ∧ coupled X evs) →
  coupled held (e :: evs).
Proof.
  intros He Hrest k Hk. destruct k as [|k]; [lia|]. simpl in *.
  rewrite He. destruct Hrest as [Hsize Hc].
  { intros ->. simpl in Hk. lia. }
  destruct k as [|k]; [by exists X|]. apply Hc. lia.
Qed.

Lemma coupled_nil held : coupled held [].
Proof. intros k Hk. simpl in Hk. lia. Qed.

(** The calls of a walk by [find_node], after the entry into [a]. *)
Lemma descent_replay h cs : ∀ a,
  clear_path h a cs →
  replay {[a := grip_of cs]} (descent_events h a cs)
  = Some (match resolve h a cs with
          | Some b => {[b := AsWriter]}
          | None => ∅
          end) ∧
  coupled {[a := grip_of cs]} (descent_events h a cs).
Proof.
  induction cs as [|c cs IH]; intros a Hclear; simpl.
  { split; [done|apply coupled_nil]. }
  simpl in Hclear.
  destruct (h !! a ≫= _) as [b|] eqn:Hb.
  - destruct Hclear as (Hne & _ & Hclear).
    destruct (IH b Hclear) as [Hfinal Hcoupled].
    split.
    + cbn [replay]. rewrite after_entry by done.
      rewrite after_handover by done. exact Hfinal.
    + eapply coupled_cons; [by apply after_entry|intros _]. split.
      { rewrite map_size_insert, lookup_singleton_ne, map_size_singleton
          by done. lia. }
      eapply coupled_cons; [by apply after_handover|intros _].
      split; [rewrite map_size_singleton; lia|done].
  - split.
    + cbn. rewrite lookup_singleton_eq. by rewrite delete_singleton_eq.
    + eapply coupled_cons; [|done].
      cbn. by rewrite lookup_singleton_eq.
Qed.

(** The calls of a walk by [tree_list], after the entry into [a]. *)
Lemma reader_replay h cs : ∀ a,
  clear_path h a cs →
  replay {[a := AsReader]} (reader_events h a cs) = Some ∅ ∧
  coupled {[a := AsReader]} (reader_events h a cs).
Proof.
  assert (Hlast : ∀ a,
    replay {[a := AsReader]} [EvReaderExit a] = Some ∅ ∧
    coupled {[a := AsReader]} [EvReaderExit a]).
  { intros a. split.
    - cbn. rewrite lookup_singleton_eq. by rewrite delete_singleton_eq.
    - eapply coupled_cons; [|done].
      cbn. by rewrite lookup_singleton_eq. }
  induction cs as [|c cs IH]; intros a Hclear; simpl; [apply Hlast|].
  simpl in Hclear.
  destruct (h !! a ≫= _) as [b|] eqn:Hb; [|apply Hlast].
  destruct Hclear as (Hne & _ & Hclear).
  destruct (IH b Hclear) as [Hfinal Hcoupled].
  assert (Hin : after {[a := AsReader]} (EvReaderEntry b)
                = Some (<[b := AsReader]> {[a := AsReader]})).
  { simpl. by rewrite lookup_singleton_ne. }
  split.
  - cbn [replay]. rewrite Hin, after_handover by done. exact Hfinal.
  - eapply coupled_cons; [exact Hin|intros _]. split.
    { rewrite map_size_insert, lookup_singleton_ne, map_size_singleton
        by done. lia. }
    eapply coupled_cons; [by apply after_handover|intros _].
    split; [rewrite map_size_singleton; lia|done].
Qed.

(** X19. [find_node] walks by lock coupling. In a tree at rest, with the
    budget its callers give it, the protocol calls of [find_node] are in
    order: it enters no node it holds and leaves each node with the exit
    protocol of the permission it entered it with. After every call but the
    last it holds one node or two: it enters the child before it leaves the
    parent. In the end it holds the node the path names, as a writer, and
    no other; or no node at all when the path names none. *)
Theorem find_node_lock_coupling h root p t :
  wf h root → is_path_valid p = true →
  ∃ r h' evs,
    find_node root p (size_sub (count_slashes p) 1) (mkState h t)
    = Ret r (mkState h' (t ++ evs)) ∧
    replay ∅ evs
    = Some (match resolve h root (components p) with
            | Some b => {[b := AsWriter]}
            | None => ∅
            end) ∧
    coupled ∅ evs.
Proof.
  intros Hwf Hvalid.
  destruct (valid_path_render _ p Hvalid) as (cs & -> & Hall).
  pose proof (names_valid_no_slash _ _ Hall) as Hns.
  rewrite components_render by done.
  destruct (wf_node h root [] root Hwf eq_refl) as (n & Hroot & Hn).
  pose proof (wf_clear_path h root cs [] root Hwf eq_refl) as Hclear.
  destruct (descent_replay h cs root Hclear) as [Hfinal Hcoupled].
  assert (Hin : after ∅ (entry_event cs root) = Some {[root := grip_of cs]}).
  { destruct cs; simpl; by rewrite lookup_empty, insert_empty. }
  exists (match resolve h root cs with
          | Some b => (0%Z, Some b)
          | None => (ENOENT, None)
          end),
         (match resolve h root cs with
          | Some b => lock wlocked b h
          | None => h
          end),
         (entry_event cs root :: descent_events h root cs).
  split; [|split].
  - rewrite (find_node_spec h cs root n) by done.
    by destruct (resolve h root cs).
  - cbn [replay]. by rewrite Hin.
  - eapply coupled_cons; [exact Hin|intros _].
    split; [rewrite map_size_singleton; lia|done].
Qed.

(** X20. [tree_list] walks by lock coupling. In a tree at rest the
    protocol calls of [tree_list] are reader entries and reader exits in
    order; after every call but the last it holds one node or two, and in
    the end it holds none. *)
Theorem tree_list_lock_coupling h root p t :
  wf h root → is_path_valid p = true →
  ∃ res evs,
    tree_list root p (mkState h t) = Ret res (mkState h (t ++ evs)) ∧
    replay ∅ evs = Some ∅ ∧ coupled ∅ evs ∧
    Forall (λ e, ∃ a, e = EvReaderEntry a ∨ e = EvReaderExit a) evs.
Proof.
  intros Hwf Hvalid.
  destruct (valid_path_render _ p Hvalid) as (cs & -> & Hall).
  pose proof (names_valid_no_slash _ _ Hall) as Hns.
  pose proof (wf_clear_path h root cs [] root Hwf eq_refl) as Hclear.
  destruct (reader_replay h cs root Hclear) as [Hfinal Hcoupled].
  assert (Hin : after ∅ (EvReaderEntry root) = Some {[root := AsReader]}).
  { simpl. by rewrite lookup_empty, insert_empty. }
  eexists _, (EvReaderEntry root :: reader_events h root cs).
  split; [|split; [|split]].
  - by rewrite (tree_list_spec _ h root cs t Hwf Hvalid Hns).
  - cbn [replay]. by rewrite Hin.
  - eapply coupled_cons; [exact Hin|intros _].
    split; [rewrite map_size_singleton; lia|done].
  - apply Forall_cons. split; [by exists root; left|].
    clear. revert root. induction cs as [|c cs IH]; intros a; simpl.
    + apply Forall_singleton. exists a. by right.
    + destruct (h !! a ≫= _) as [b|].
      * apply Forall_cons. split; [by exists b; left|].
        apply Forall_cons. split; [by exists a; right|]. apply IH.
      * apply Forall_singleton. exists a. by right.
Qed.

End DisciplineFacts.

(** ** Whole subtrees: [bfs_clear] and [tree_free] *)

Section ReachFacts.

Import PathUtils Monitor Heap TreeOps Shape Reach.

Lemma wf_shaped h root : wf h root → shaped h root.
Proof. intros (H1 & _ & H2 & H3). exact (conj H1 (conj H2 H3)). Qed.

Lemma shaped_node h root cs x :
  shaped h root → resolve h root cs = Some x → is_Some (h !! x).
Proof.
  intros (Hroot & Hclosed & _).
  destruct cs as [|c cs _] using rev_ind.
  - by intros [= <-].
  - intros (b & _ & He)%resolve_snoc. by apply closed_edge with b c.
Qed.

(** In a tree no path is as long as the store has nodes. *)
Lemma shaped_depth h root cs x :
  shaped h root → resolve h root cs = Some x → (length cs < size h)%nat.
Proof.
  intros Hsh Hres. pose proof Hsh as (_ & _ & Hts).
  pose proof (trail_NoDup h root cs [] root Hts eq_refl) as Hnd.
  assert (Hsub : trail h root cs ⊆+ elements (dom h)).
  { apply NoDup_submseteq; [done|]. intros y Hy.
    apply trail_elem in Hy as (cs1 & _ & Hy).
    apply elem_of_elements, elem_of_dom. by apply shaped_node with root cs1. }
  apply submseteq_length in Hsub.
  rewrite (trail_length h root cs x Hres) in Hsub.
  change (length (elements (dom h))) with (size (dom h)) in Hsub.
  rewrite size_dom in Hsub. lia.
Qed.

Lemma shaped_depth_below h root pre a cs x :
  shaped h root → resolve h root pre = Some a → resolve h a cs = Some x →
  (length pre + length cs < size h)%nat.
Proof.
  intros Hsh Hpre Hres. rewrite <- length_app.
  apply (shaped_depth h root _ x Hsh). by rewrite resolve_app, Hpre.
Qed.

Lemma below_refl h a : below h a a.
Proof. by exists []. Qed.

Lemma below_child h a n c b x :
  h !! a = Some n → map n !! c = Some b → below h b x → below h a x.
Proof.
  intros Ha Hc [cs Hcs]. exists (c :: cs). simpl. rewrite Ha. simpl.
  by rewrite Hc.
Qed.

Lemma below_inv h a n x :
  h !! a = Some n → below h a x →
  x = a ∨ ∃ c b, map n !! c = Some b ∧ below h b x.
Proof.
  intros Ha [[|c cs] Hcs]; simpl in Hcs; [left; congruence|].
  rewrite Ha in Hcs. simpl in Hcs.
  destruct (map n !! c) as [b|] eqn:Hc; [|done].
  right. exists c, b. split; [done|by exists cs].
Qed.

(** A node is not below its children, and the subtrees of two children
    share no node. *)
Lemma below_child_ne h root pre a n c b :
  shaped h root → resolve h root pre = Some a →
  h !! a = Some n → map n !! c = Some b → ¬ below h b a.
Proof.
  intros (_ & _ & Hts) Hpre Ha Hc [cs Hcs].
  assert (Hlong : resolve h root ((pre ++ [c]) ++ cs) = Some a).
  { rewrite !resolve_app, Hpre. simpl. rewrite Ha. simpl. by rewrite Hc. }
  pose proof (resolve_inj h root _ _ _ Hts Hlong Hpre) as Heq.
  apply (f_equal length) in Heq. rewrite !length_app in Heq.
  simpl in Heq. lia.
Qed.

Lemma below_apart h root pre a n c1 b1 c2 b2 x :
  shaped h root → resolve h root pre = Some a → h !! a = Some n →
  map n !! c1 = Some b1 → map n !! c2 = Some b2 →
  below h b1 x → below h b2 x → c1 = c2.
Proof.
  intros (_ & _ & Hts) Hpre Ha H1 H2 [cs1 Hcs1] [cs2 Hcs2].
  assert (Hp1 : resolve h root (pre ++ c1 :: cs1) = Some x).
  { rewrite resolve_app, Hpre. simpl. rewrite Ha. simpl. by rewrite H1. }
  assert (Hp2 : resolve h root (pre ++ c2 :: cs2) = Some x).
  { rewrite resolve_app, Hpre. simpl. rewrite Ha. simpl. by rewrite H2. }
  pose proof (resolve_inj h root _ _ _ Hts Hp1 Hp2) as Heq.
  apply app_inv_head in Heq. congruence.
Qed.

Lemma bfs_clear_unfold fuel a n st :
  heap st !! a = Some n →
  bfs_clear (S fuel) a st
  = if busy (sync n) then Fail Blocked
    else for_each (λ kv, bfs_clear fuel kv.2) (map_to_list (map n)) st.
Proof.
  intros Ha.
  change (bfs_clear (S fuel) a st)
    with ((wait_clear a ;; n ← get_node a;
           for_each (λ kv, bfs_clear fuel kv.2) (map_to_list (map n))) st).
  rewrite bind_run. unfold wait_clear at 1. rewrite bind_run.
  unfold get_node at 1. rewrite Ha.
  destruct (busy (sync n)); [done|].
  rewrite mret_run, bind_run. unfold get_node at 1. by rewrite Ha.
Qed.

(** [bfs_clear] either finds the whole subtree idle, returns and has
    changed nothing, or waits at a node that is in use. *)
Lemma bfs_clear_cases h root t :
  shaped h root → ∀ fuel pre a,
  resolve h root pre = Some a → (size h ≤ fuel + length pre)%nat →
  (bfs_clear fuel a (mkState h t) = Ret () (mkState h t) ∧ idle_below h a) ∨
  (bfs_clear fuel a (mkState h t) = Fail Blocked ∧ ¬ idle_below h a).
Proof.
  intros Hsh. induction fuel as [|fuel IH]; intros pre a Hpre Hfuel.
  { pose proof (shaped_depth h root pre a Hsh Hpre). simpl in Hfuel. lia. }
  destruct (shaped_node h root pre a Hsh Hpre) as [n Ha].
  rewrite (bfs_clear_unfold fuel a n) by done.
  destruct (busy (sync n)) eqn:Hbusy.
  { right. split; [done|]. intros Hidle.
    rewrite (Hidle a n (below_refl h a) Ha) in Hbusy. done. }
  assert (Hlist : ∀ l,
    (∀ c b, (c, b) ∈ l → map n !! c = Some b) →
    (for_each (λ kv, bfs_clear fuel kv.2) l (mkState h t)
     = Ret () (mkState h t) ∧
     ∀ c b, (c, b) ∈ l → idle_below h b) ∨
    (for_each (λ kv, bfs_clear fuel kv.2) l (mkState h t) = Fail Blocked ∧
     ∃ c b, (c, b) ∈ l ∧ ¬ idle_below h b)).
  { induction l as [|[c b] l IHl]; intros Hl.
    { left. split; [done|]. intros c b Hin. by apply elem_of_nil in Hin. }
    assert (Hc : map n !! c = Some b) by apply Hl, list_elem_of_here.
    assert (Hb : resolve h root (pre ++ [c]) = Some b).
    { apply resolve_snoc. exists a. split; [done|]. by exists n. }
    simpl. rewrite bind_run.
    destruct (IH (pre ++ [c]) b Hb) as [[-> Hidle]|[-> Hbusy']].
    { rewrite length_app. simpl. lia. }
    - destruct IHl as [[-> Hrest]|[-> (c' & b' & Hin & Hbusy')]].
      { intros c' b' Hin. by apply Hl, list_elem_of_further. }
      + left. split; [done|]. intros c' b' [[= -> ->]|Hin]%elem_of_cons;
          [done|by apply Hrest with c'].
      + right. split; [done|]. exists c', b'.
        split; [by apply list_elem_of_further|done].
    - right. split; [done|]. exists c, b.
      split; [apply list_elem_of_here|done]. }
  destruct (Hlist (map_to_list (map n))) as [[-> Hall]|[-> Hsome]].
  { intros c b Hin. by apply elem_of_map_to_list. }
  - left. split; [done|]. intros x nx Hx Hnx.
    destruct (below_inv h a n x Ha Hx) as [->|(c & b & Hc & Hbx)].
    + congruence.
    + apply elem_of_map_to_list in Hc. by apply (Hall c b Hc x nx).
  - right. split; [done|]. destruct Hsome as (c & b & Hin & Hbusy').
    intros Hidle. apply Hbusy'. intros x nx Hx Hnx.
    apply elem_of_map_to_list in Hin.
    apply (Hidle x nx); [|done]. by apply below_child with n c b.
Qed.

(** X21. [bfs_clear] waits for the whole subtree. In a tree whose nodes
    may be in use, with at least as many steps as the store has nodes,
    [bfs_clear] of a node of the tree returns when no thread is inside a
    node of the subtree or waits to enter one, and then it has changed
    nothing; and it waits when a thread is inside a node of the subtree or
    waits to enter one. *)
Theorem bfs_clear_waits_for_subtree h root pre a fuel t :
  shaped h root → resolve h root pre = Some a → (size h ≤ fuel)%nat →
  (idle_below h a →
     bfs_clear fuel a (mkState h t) = Ret () (mkState h t)) ∧
  (∀ x n, below h a x → h !! x = Some n → busy (sync n) = true →
     bfs_clear fuel a (mkState h t) = Fail Blocked).
Proof.
  intros Hsh Hpre Hfuel.
  destruct (bfs_clear_cases h root t Hsh fuel pre a Hpre ltac:(lia))
    as [[Hrun Hidle]|[Hrun Hbusy]].
  - split; [done|]. intros x n Hx Hn Hb.
    rewrite (Hidle x n Hx Hn) in Hb. done.
  - split; [|done]. intros Hidle. by destruct Hbusy.
Qed.

Lemma tree_free_unfold fuel a n st :
  heap st !! a = Some n →
  tree_free (S fuel) a st
  = (for_each (λ kv, tree_free fuel kv.2) (map_to_list (map n)) ;;
     free_node a) st.
Proof.
  intros Ha.
  change (tree_free (S fuel) a st)
    with ((n ← get_node a;
           for_each (λ kv, tree_free fuel kv.2) (map_to_list (map n)) ;;
           free_node a) st).
  rewrite bind_run. unfold get_node at 1. by rewrite Ha.
Qed.

(** [tree_free] of a node of a tree [h], run in a store [g] that has the
    subtree of that node as [h] has it: it returns, the nodes of the
    subtree are freed, and the others are as they were. *)
Lemma tree_free_subtree h root t :
  shaped h root → ∀ fuel pre a g,
  resolve h root pre = Some a → (size h ≤ fuel + length pre)%nat →
  (∀ x, below h a x → g !! x = h !! x) →
  ∃ g', tree_free fuel a (mkState g t) = Ret () (mkState g' t) ∧
        (∀ x, below h a x → g' !! x = None) ∧
        (∀ x, ¬ below h a x → g' !! x = g !! x).
Proof.
  intros Hsh. induction fuel as [|fuel IH]; intros pre a g Hpre Hfuel Hg.
  { pose proof (shaped_depth h root pre a Hsh Hpre). simpl in Hfuel. lia. }
  destruct (shaped_node h root pre a Hsh Hpre) as [n Ha].
  assert (Hga : g !! a = Some n) by (rewrite Hg; [done|apply below_refl]).
  rewrite (tree_free_unfold fuel a n) by done.
  assert (Hlist : ∀ l, NoDup l →
    (∀ c b, (c, b) ∈ l → map n !! c = Some b) → ∀ g1,
    (∀ c b x, (c, b) ∈ l → below h b x → g1 !! x = h !! x) →
    ∃ g2,
      for_each (λ kv, tree_free fuel kv.2) l (mkState g1 t)
      = Ret () (mkState g2 t) ∧
      (∀ c b x, (c, b) ∈ l → below h b x → g2 !! x = None) ∧
      (∀ x, (∀ c b, (c, b) ∈ l → ¬ below h b x) → g2 !! x = g1 !! x)).
  { induction l as [|[c b] l IHl]; intros Hnd Hl g1 Hg1.
    { exists g1. split; [done|]. split; [|done].
      intros c b x Hin. by apply elem_of_nil in Hin. }
    apply NoDup_cons in Hnd as [Hnotin Hnd].
    assert (Hc : map n !! c = Some b) by apply Hl, list_elem_of_here.
    assert (Hb : resolve h root (pre ++ [c]) = Some b).
    { apply resolve_snoc. exists a. split; [done|]. by exists n. }
    destruct (IH (pre ++ [c]) b g1 Hb) as (g1' & Hrun & Hfreed & Hkept).
    { rewrite length_app. simpl. lia. }
    { intros x Hx. apply (Hg1 c b); [apply list_elem_of_here|done]. }
    destruct (IHl Hnd) with (g1 := g1') as (g2 & Hrun2 & Hfreed2 & Hkept2).
    { intros c' b' Hin. by apply Hl, list_elem_of_further. }
    { intros c' b' x Hin Hx. rewrite Hkept.
      - apply (Hg1 c' b'); [by apply list_elem_of_further|done].
      - intros Hx'.
        assert (Hc' : map n !! c' = Some b')
          by (by apply Hl, list_elem_of_further).
        pose proof (below_apart h root pre a n c b c' b' x
                      Hsh Hpre Ha Hc Hc' Hx' Hx) as ->.
        assert (b' = b) by congruence. subst b'. done. }
    exists g2. split; [|split].
    - simpl. by rewrite bind_run, Hrun.
    - intros c' b' x [[= -> ->]|Hin]%elem_of_cons Hx.
      + destruct (g2 !! x) as [nx|] eqn:Hx2; [|done].
        rewrite Hkept2 in Hx2; [by rewrite Hfreed in Hx2|].
        intros c' b' Hin Hx'.
        assert (Hc' : map n !! c' = Some b')
          by (by apply Hl, list_elem_of_further).
        pose proof (below_apart h root pre a n c b c' b' x
                      Hsh Hpre Ha Hc Hc' Hx Hx') as ->.
        assert (b' = b) by congruence. subst b'. done.
      + by apply (Hfreed2 c' b').
    - intros x Hx. rewrite Hkept2.
      + apply Hkept. apply (Hx c b), list_elem_of_here.
      + intros c' b' Hin. by apply (Hx c' b'), list_elem_of_further. }
  destruct (Hlist (map_to_list (map n)) (NoDup_map_to_list _)) with (g1 := g)
    as (g2 & Hrun & Hfreed & Hkept).
  { intros c b Hin. by apply elem_of_map_to_list. }
  { intros c b x Hin Hx. apply Hg. apply elem_of_map_to_list in Hin.
    by apply below_child with n c b. }
  assert (Hg2a : g2 !! a = Some n).
  { rewrite Hkept; [done|]. intros c b Hin%elem_of_map_to_list.
    by apply below_child_ne with root pre n c. }
  exists (delete a g2). split; [|split].
  - rewrite bind_run, Hrun. unfold free_node. cbn [heap trace].
    by rewrite Hg2a.
  - intros x Hx.
    destruct (below_inv h a n x Ha Hx) as [->|(c & b & Hc & Hbx)].
    + apply lookup_delete_eq.
    + apply lookup_delete_None. right.
      apply (Hfreed c b); [by apply elem_of_map_to_list|done].
  - intros x Hx. rewrite lookup_delete_ne.
    + apply Hkept. intros c b Hin%elem_of_map_to_list Hbx.
      apply Hx. by apply below_child with n c b.
    + intros ->. apply Hx, below_refl.
Qed.

(** X22. [tree_free] frees a whole subtree. In a tree, with at least as
    many steps as the store has nodes, [tree_free] of a node of the tree
    returns; it has freed every node of the subtree at that node, each
    once, and every other node is as it was. *)
Theorem tree_free_frees_subtree h root pre a fuel t :
  shaped h root → resolve h root pre = Some a → (size h ≤ fuel)%nat →
  ∃ h', tree_free fuel a (mkState h t) = Ret () (mkState h' t) ∧
        (∀ x, below h a x → h' !! x = None) ∧
        (∀ x, ¬ below h a x → h' !! x = h !! x).
Proof.
  intros Hsh Hpre Hfuel.
  apply (tree_free_subtree h root t Hsh fuel pre a h Hpre); [lia|done].
Qed.

(** [tree_free] of the root of a tree without garbage leaves no node. *)
Lemma tree_free_rooted h root fuel t :
  shaped h root → rooted h root → (size h ≤ fuel)%nat →
  tree_free fuel root (mkState h t) = Ret () (mkState ∅ t).
Proof.
  intros Hsh Hrooted Hfuel.
  destruct (tree_free_subtree h root t Hsh fuel [] root h eq_refl)
    as (h' & Hrun & Hfreed & Hkept); [simpl; lia|done|].
  rewrite Hrun. do 2 f_equal. apply map_empty. intros x.
  destruct (h' !! x) as [n'|] eqn:Hx'; [|done]. exfalso.
  assert (Hnb : ¬ below h root x).
  { intros Hb. by rewrite (Hfreed x Hb) in Hx'. }
  rewrite (Hkept x Hnb) in Hx'. apply Hnb, Hrooted. eauto.
Qed.

End ReachFacts.

(** ** Sequential runs: no call is stuck and no node is lost *)

Section SequentialFacts.

Import PathUtils Monitor Heap TreeOps Shape Reach.

Variable MAX_FOLDER_NAME_LENGTH : nat.

Local Abbreviation is_path_valid := (is_path_valid MAX_FOLDER_NAME_LENGTH).
Local Abbreviation is_name_valid := (is_name_valid MAX_FOLDER_NAME_LENGTH).
Local Abbreviation tree_list := (tree_list MAX_FOLDER_NAME_LENGTH).
Local Abbreviation tree_create := (tree_create MAX_FOLDER_NAME_LENGTH).
Local Abbreviation tree_remove := (tree_remove MAX_FOLDER_NAME_LENGTH).
Local Abbreviation tree_move := (tree_move MAX_FOLDER_NAME_LENGTH).
Local Abbreviation names_ok := (names_ok MAX_FOLDER_NAME_LENGTH).
Local Abbreviation sequential := (sequential MAX_FOLDER_NAME_LENGTH).

Local Open Scope Z_scope.

Lemma rooted_new root st :
  tree_new (mkState ∅ []) = Ret root st → rooted (heap st) root.
Proof.
  unfold tree_new. cbn [heap trace]. intros [= <- <-]. cbn [heap].
  intros x [n Hx]. apply lookup_insert_Some in Hx as [[<- _]|[_ Hx]].
  - apply below_refl.
  - by rewrite lookup_empty in Hx.
Qed.

Lemma rooted_created h root cs b nb c :
  rooted h root →
  resolve h root cs = Some b → h !! b = Some nb → map nb !! c = None →
  rooted (created h b c) root.
Proof.
  intros Hrooted Hres Hb Hc x [n Hx].
  pose proof (fresh_not_in h) as Hfresh.
  destruct (decide (x = fresh (dom h))) as [->|Hne].
  - exists (cs ++ [c]). apply resolve_snoc. exists b.
    split; [by apply resolve_created with nb|].
    eexists. split; [by apply created_parent|]. cbn [map].
    by rewrite lookup_insert_eq.
  - assert (Hold : is_Some (h !! x)).
    { rewrite created_lookup in Hx.
      destruct (decide (b = x)) as [<-|]; [by eauto|].
      rewrite lookup_insert_ne in Hx by done. eauto. }
    destruct (Hrooted x Hold) as [cs' Hcs']. exists cs'.
    by apply resolve_created with nb.
Qed.

Lemma rooted_removed h root b nb c son ns :
  rooted h root →
  h !! b = Some nb → map nb !! c = Some son →
  h !! son = Some ns → map ns = ∅ →
  rooted (removed h b c son) root.
Proof.
  intros Hrooted Hb Hc Hs Hempty x [n Hx].
  assert (Hne : son ≠ b).
  { intros ->. assert (nb = ns) by congruence. subst nb.
    by rewrite Hempty, lookup_empty in Hc. }
  rewrite removed_lookup in Hx.
  destruct (decide (son = x)) as [|Hx1]; [done|].
  assert (Hold : is_Some (h !! x)).
  { destruct (decide (b = x)) as [<-|]; eauto. }
  destruct (Hrooted x Hold) as [cs' Hcs']. exists cs'.
  apply (resolve_removed h b c son nb ns); auto.
Qed.

(** The walks inside the subtree that [tree_move] moves are what they
    were. *)
Lemma resolve_moved_sub h root sp sc tp tc src dst m cs : ∀ ys y x,
  tree_shaped h root →
  resolve h root sp = Some src → edge h src sc m →
  resolve h root tp = Some dst → ¬ (sp ++ [sc]) `prefix_of` tp →
  resolve h m ys = Some y →
  resolve h y cs = Some x →
  resolve (moved h src sc dst tc m) y cs = Some x.
Proof.
  induction cs as [|c cs IH]; intros ys y x Hts Hsp He Htp Hnot Hy; [done|].
  simpl. destruct (h !! y ≫= _) as [b|] eqn:Hb; [|done]. intros Hres.
  assert (Hpath : resolve h root ((sp ++ [sc]) ++ ys) = Some y).
  { rewrite resolve_app.
    rewrite (proj2 (resolve_snoc h root sp sc m)) by eauto. done. }
  assert (Hy1 : y ≠ src).
  { intros ->. pose proof (resolve_inj h root _ _ _ Hts Hpath Hsp) as Heq.
    apply (f_equal length) in Heq. rewrite !length_app in Heq.
    simpl in Heq. lia. }
  assert (Hy2 : y ≠ dst).
  { intros ->. pose proof (resolve_inj h root _ _ _ Hts Hpath Htp) as Heq.
    apply Hnot. exists ys. done. }
  rewrite moved_lookup_other, Hb by done.
  apply (IH (ys ++ [c])); try done.
  apply resolve_snoc. exists y. split; [done|]. by apply children_edge.
Qed.

Lemma rooted_moved h root sp src sc tp dst tc m :
  wf h root → rooted h root →
  resolve h root sp = Some src → edge h src sc m →
  resolve h root tp = Some dst →
  (h !! dst ≫= λ n, map n !! tc) = None →
  ¬ (sp ++ [sc]) `prefix_of` tp →
  rooted (moved h src sc dst tc m) root.
Proof.
  intros Hwf Hrooted Hsp He Htp Htc Hnot x [n Hx].
  assert (Hts : tree_shaped h root) by apply Hwf.
  destruct (moved_sync h src sc dst tc m x n Hx) as (n0 & Hn0 & _).
  destruct (Hrooted x ltac:(eauto)) as [cs Hcs].
  assert (Hdst : is_Some (h !! dst)).
  { destruct (wf_node h root tp dst Hwf Htp) as (nd & Hnd & _). eauto. }
  destruct (decide ((sp ++ [sc]) `prefix_of` cs)) as [[rest ->]|Hpre].
  - rewrite resolve_app in Hcs.
    rewrite (proj2 (resolve_snoc h root sp sc m)) in Hcs by eauto.
    cbn [mbind option_bind] in Hcs.
    exists ((tp ++ [tc]) ++ rest). rewrite resolve_app.
    rewrite (proj2 (resolve_snoc _ root tp tc m)); cycle 1.
    { exists dst. split; [|by apply edge_moved_new].
      by apply (resolve_moved h root sp sc tc src dst m tp [] root dst). }
    cbn [mbind option_bind].
    by apply (resolve_moved_sub h root sp sc tp tc src dst m rest [] m x).
  - exists cs.
    by apply (resolve_moved h root sp sc tc src dst m cs [] root x).
Qed.

(** What holds of the store and is kept by the three changes the
    operations make is kept by every call that returns. *)
Lemma operations_keep (P : gmap addr Tree → Prop) h root t :
  wf h root → P h →
  (∀ cs b nb c,
     resolve h root cs = Some b → h !! b = Some nb → map nb !! c = None →
     P (created h b c)) →
  (∀ cs b nb c son ns,
     resolve h root cs = Some b → h !! b = Some nb →
     map nb !! c = Some son → h !! son = Some ns → map ns = ∅ →
     P (removed h b c son)) →
  (∀ sp src sc tp dst tc m,
     resolve h root sp = Some src → edge h src sc m →
     resolve h root tp = Some dst →
     (h !! dst ≫= λ n, map n !! tc) = None →
     ¬ (sp ++ [sc]) `prefix_of` tp →
     P (moved h src sc dst tc m)) →
  (∀ p res st', tree_list root p (mkState h t) = Ret res st' →
     P (heap st')) ∧
  (∀ p err st', tree_create root p (mkState h t) = Ret err st' →
     P (heap st')) ∧
  (∀ p err st', tree_remove root p (mkState h t) = Ret err st' →
     P (heap st')) ∧
  (∀ s d err st', tree_move root s d (mkState h t) = Ret err st' →
     P (heap st')).
Proof.
  intros Hwf HP Hcreated Hremoved Hmoved. split; [|split; [|split]].
  - intros p res st'. unfold TreeOps.tree_list.
    destruct (is_path_valid p) eqn:Hvalid; [|by intros [= _ <-]].
    destruct (valid_path_render _ p Hvalid) as (cs & -> & Hall).
    pose proof (tree_list_spec _ h root cs t Hwf Hvalid
                  (names_valid_no_slash _ _ Hall)) as Hspec.
    unfold TreeOps.tree_list in Hspec. rewrite Hvalid in Hspec.
    rewrite Hspec. by intros [= _ <-].
  - intros p err st'. unfold TreeOps.tree_create.
    destruct (is_path_valid p) eqn:Hvalid; [|by intros [= _ <-]].
    destruct (is_root p) eqn:Hroot; [by intros [= _ <-]|].
    destruct (valid_path_snoc _ p Hvalid Hroot) as (cs & c & -> & Hall).
    pose proof (names_valid_no_slash _ _ Hall) as Hns.
    destruct (tree_create_spec _ h root cs c t Hwf Hvalid Hns) as [t' Hspec].
    unfold TreeOps.tree_create in Hspec. rewrite Hvalid, Hroot in Hspec.
    rewrite Hspec. intros [= _ <-]. cbn [heap]. unfold create_outcome.
    destruct (resolve h root cs) as [b|] eqn:Hres; [|done].
    destruct (wf_node h root cs b Hwf Hres) as (nb & Hb & _).
    rewrite Hb. simpl. destruct (map nb !! c) as [x|] eqn:Hx; [done|].
    by apply (Hcreated cs b nb c).
  - intros p err st'. unfold TreeOps.tree_remove.
    destruct (is_path_valid p) eqn:Hvalid; [|by intros [= _ <-]].
    destruct (is_root p) eqn:Hroot; [by intros [= _ <-]|].
    destruct (valid_path_snoc _ p Hvalid Hroot) as (cs & c & -> & Hall).
    pose proof (names_valid_no_slash _ _ Hall) as Hns.
    destruct (tree_remove_spec _ h root cs c t Hwf Hvalid Hns) as [t' Hspec].
    unfold TreeOps.tree_remove in Hspec. rewrite Hvalid, Hroot in Hspec.
    rewrite Hspec. intros [= _ <-]. cbn [heap]. unfold remove_outcome.
    destruct (resolve h root cs) as [b|] eqn:Hres; [|done].
    destruct (wf_node h root cs b Hwf Hres) as (nb & Hb & _).
    rewrite Hb. simpl. destruct (map nb !! c) as [son|] eqn:Hson; [|done].
    destruct (h !! son) as [ns|] eqn:Hs; [|done].
    destruct (decide (size (map ns) ≠ 0%nat)) as [|Hsize]; [done|].
    assert (Hempty : map ns = ∅).
    { apply map_size_empty_inv.
      destruct (decide (size (map ns) = 0%nat)); [done|by destruct Hsize]. }
    by apply (Hremoved cs b nb c son ns).
  - intros s d err st'. unfold TreeOps.tree_move.
    destruct (is_path_valid s) eqn:Hvs; [|by intros [= _ <-]].
    destruct (is_path_valid d) eqn:Hvt; [|by intros [= _ <-]].
    destruct (is_root s) eqn:Hrs; [by intros [= _ <-]|].
    destruct (is_root d) eqn:Hrt; [by intros [= _ <-]|].
    cbn [negb orb]. fold (is_ancestor s d).
    destruct (is_ancestor s d) eqn:Hcheck; [by intros [= _ <-]|].
    destruct (valid_path_snoc _ s Hvs Hrs) as (sp & sc & -> & Halls).
    destruct (valid_path_snoc _ d Hvt Hrt) as (tp & tc & -> & Hallt).
    pose proof (names_valid_no_slash _ _ Halls) as Hns.
    pose proof (names_valid_no_slash _ _ Hallt) as Hnt.
    destruct (tree_move_spec _ h root sp sc tp tc t Hwf Hvs Hvt Hns Hnt Hcheck)
      as [t' Hspec].
    unfold TreeOps.tree_move in Hspec.
    rewrite Hvs, Hvt, Hrs, Hrt in Hspec. cbn [negb orb] in Hspec.
    fold (is_ancestor (render (sp ++ [sc])) (render (tp ++ [tc]))) in Hspec.
    rewrite Hcheck in Hspec.
    rewrite Hspec. intros [= _ <-]. cbn [heap]. unfold move_outcome.
    destruct (resolve h root tp) as [dst|] eqn:Hdst; [|done].
    destruct (h !! dst ≫= _) as [?|] eqn:Htc; [done|].
    destruct (resolve h root sp) as [src|] eqn:Hsrc; [|done].
    destruct (h !! src ≫= _) as [m|] eqn:Hm; [|done].
    apply children_edge in Hm. cbn [snd].
    apply (Hmoved sp src sc tp dst tc m); try done.
    intros [k Hk].
    assert (is_ancestor (render (sp ++ [sc])) (render (tp ++ [tc])) = true);
      [|congruence].
    apply is_ancestor_render; [done..|]. split.
    + exists (k ++ [tc]). by rewrite Hk, <- app_assoc.
    + intros Heq. apply (f_equal length) in Heq.
      rewrite Hk, !length_app in Heq. simpl in Heq. lia.
Qed.

Lemma sequential_rooted root st :
  sequential root st → rooted (heap st) root.
Proof.
  induction 1 as [st Hnew|st p res st' Hseq IH Hrun
                 |st p err st' Hseq IH Hrun
                 |st p err st' Hseq IH Hrun
                 |st s d err st' Hseq IH Hrun];
    [by apply rooted_new|..].
  all: destruct (sequential_wf _ root st Hseq) as [Hwf Hok].
  all: destruct st as [h t0]; cbn [heap] in *.
  all: destruct (operations_keep (λ h', rooted h' root) h root t0 Hwf IH)
         as (Hlist & Hcreate & Hremove & Hmove);
         [intros; by eapply rooted_created
         |intros; by eapply rooted_removed
         |intros; by eapply rooted_moved|].
  - by apply (Hlist p res).
  - by apply (Hcreate p err).
  - by apply (Hremove p err).
  - by apply (Hmove s d err).
Qed.

(** X23. No call of a sequential program is stuck. In every state that
    [tree_new] and calls of the four operations lead to, each of the four
    operations returns for every argument: it does not wait for ever, it
    follows no dangling pointer, and the steps of its loops suffice; and
    [tree_list] leaves the store as it was. *)
Theorem sequential_calls_return root st :
  sequential root st →
  (∀ p, ∃ res t', tree_list root p st = Ret res (mkState (heap st) t')) ∧
  (∀ p, ∃ err st', tree_create root p st = Ret err st') ∧
  (∀ p, ∃ err st', tree_remove root p st = Ret err st') ∧
  (∀ s d, ∃ err st', tree_move root s d st = Ret err st').
Proof.
  intros Hseq. destruct (sequential_wf _ root st Hseq) as [Hwf Hok].
  destruct st as [h t0]. cbn [heap] in *.
  destruct (operations_return _ h root t0 Hwf Hok)
    as (Hlist & Hcreate & Hremove & Hmove).
  split; [exact Hlist|]. split; [|split].
  - intros p. destruct (Hcreate p) as (err & h' & t' & Hrun & _). eauto.
  - intros p. destruct (Hremove p) as (err & h' & t' & Hrun & _). eauto.
  - intros s d. destruct (Hmove s d) as (err & h' & t' & Hrun & _). eauto.
Qed.

(** X24. The stores of a sequential program are trees at rest without
    garbage. In every state that [tree_new] and calls of the four
    operations lead to: the root is allocated; the counters of every node
    are at zero and [cwait] is false, so every permission taken has been
    given back; every child pointer is the address of an allocated node;
    no node has two parents or two names and the root has none; every name
    is a valid folder name; and every allocated node is reached from the
    root. *)
Theorem sequential_stores_are_trees root st :
  sequential root st →
  is_Some (heap st !! root) ∧ quiescent (heap st) ∧ closed (heap st) ∧
  tree_shaped (heap st) root ∧ names_ok (heap st) ∧ rooted (heap st) root.
Proof.
  intros Hseq.
  destruct (sequential_wf _ root st Hseq) as [(H1 & H2 & H3 & H4) Hok].
  pose proof (sequential_rooted root st Hseq). done.
Qed.

(** X25. A sequential program leaks no node. In every state that
    [tree_new] and calls of the four operations lead to, [tree_free] of the
    root, with at least as many steps as the store has nodes, returns and
    leaves no node allocated. *)
Theorem sequential_then_free root st fuel :
  sequential root st → (size (heap st) ≤ fuel)%nat →
  tree_free fuel root st = Ret () (mkState ∅ (trace st)).
Proof.
  intros Hseq Hfuel.
  destruct (sequential_wf _ root st Hseq) as [Hwf _].
  pose proof (sequential_rooted root st Hseq) as Hrooted.
  destruct st as [h t0]. cbn [heap trace] in *.
  by apply tree_free_rooted; [apply wf_shaped|..].
Qed.

(** The nodes along a walk in a tree, when they are at rest, make a
    clear path. *)
Lemma shaped_clear_path h root cs : ∀ pre cur,
  shaped h root → resolve h root pre = Some cur →
  (∀ cs1 x n, cs1 `prefix_of` cs → resolve h cur cs1 = Some x →
     h !! x = Some n → sync n = sync_new) →
  clear_path h cur cs.
Proof.
  induction cs as [|c cs IH]; intros pre cur Hsh Hpre Hrest; simpl; [done|].
  destruct (h !! cur ≫= _) as [b|] eqn:Hb; [|done].
  pose proof Hb as He. apply children_edge in He as (n & Hn & Hc).
  assert (Hsnoc : resolve h root (pre ++ [c]) = Some b).
  { apply resolve_snoc. exists cur. split; [done|]. by exists n. }
  destruct (shaped_node h root _ b Hsh Hsnoc) as [nb Hnb].
  split; [|split].
  - intros ->. apply (below_child_ne h root pre cur n c cur); try done.
    apply below_refl.
  - exists nb. split; [done|].
    apply (Hrest [c] b nb); [|by simpl; rewrite Hb|done].
    by apply prefix_cons, prefix_nil.
  - apply (IH (pre ++ [c]) b); [done..|].
    intros cs1 x nx Hpre1 Hx Hnx. apply (Hrest (c :: cs1) x nx); [| |done].
    + by apply prefix_cons.
    + simpl. by rewrite Hb.
Qed.

(** X26. [tree_remove] does not free a folder in use. In a tree in which
    the nodes on the way to the parent are at rest, for a valid path other
    than the root path that names a folder in whose node a thread is
    inside or waits to enter, [tree_remove] does not return: it waits. *)
Theorem remove_waits_while_in_use h root p parent c son ns t :
  shaped h root →
  is_path_valid p = true → is_root p = false →
  make_path_to_parent p = Some (parent, c) →
  (∀ cs1 x n, cs1 `prefix_of` components parent →
     resolve h root cs1 = Some x → h !! x = Some n → sync n = sync_new) →
  resolve h root (components p) = Some son →
  h !! son = Some ns → busy (sync ns) = true →
  tree_remove root p (mkState h t) = Fail Blocked.
Proof.
  intros Hsh Hvalid Hroot Hparent Hrest Hres Hs Hbusy.
  destruct (valid_path_snoc _ p Hvalid Hroot) as (cs & c' & -> & Hall).
  pose proof (names_valid_no_slash _ _ Hall) as Hns.
  rewrite make_path_to_parent_render in Hparent by done.
  injection Hparent as <- <-.
  pose proof Hns as Hns'. apply Forall_app in Hns' as [Hcs _].
  rewrite !components_render in * by done.
  apply resolve_snoc in Hres as (b & Hb & He).
  pose proof He as (nb & Hnb & Hc).
  assert (Hne : son ≠ b).
  { intros ->. apply (below_child_ne h root cs b nb c' b); try done.
    apply below_refl. }
  destruct (shaped_node h root [] root Hsh eq_refl) as [n Hn].
  assert (Hrootrest : sync n = sync_new).
  { apply (Hrest [] root n); [apply prefix_nil|done..]. }
  pose proof (shaped_clear_path h root cs [] root Hsh eq_refl Hrest) as Hclear.
  unfold TreeOps.tree_remove. rewrite Hvalid. cbn [negb].
  rewrite is_root_render_snoc.
  rewrite make_path_to_parent_render by done.
  rewrite bind_run, (find_node_spec h cs root n) by done.
  rewrite Hb. rewrite decide_False by (intros H; by apply H).
  erewrite bind_Ret; cycle 1.
  { apply hmap_get_run. cbn [heap]. by apply lock_lookup_eq. }
  cbn [map]. rewrite Hc.
  rewrite bind_run, (bind_run (wait_clear son)).
  unfold wait_clear at 1. rewrite bind_run. unfold get_node at 1.
  cbn [heap]. rewrite lock_lookup_ne, Hs by done. by rewrite Hbusy.
Qed.

End SequentialFacts.

(** ** [tree_move] and a subtree in use *)

Section MoveWaits.

Import PathUtils Monitor Heap TreeOps Shape Reach.

Variable MAX_FOLDER_NAME_LENGTH : nat.

Local Abbreviation is_path_valid := (is_path_valid MAX_FOLDER_NAME_LENGTH).
Local Abbreviation tree_move := (tree_move MAX_FOLDER_NAME_LENGTH).

Local Open Scope Z_scope.

Lemma edge_lock_set X h a c b : edge (lock_set X h) a c b ↔ edge h a c b.
Proof. by rewrite <- !children_edge, children_lock_set. Qed.

Lemma shaped_lock_set X h root : shaped h root → shaped (lock_set X h) root.
Proof.
  intros (Hroot & Hclosed & Hts). split; [by apply lock_set_is_Some|]. split.
  - apply closed_intro. intros a c b He%edge_lock_set.
    apply lock_set_is_Some. by apply closed_edge with a c.
  - apply tree_shaped_intro.
    + intros a c He%edge_lock_set. by apply (tree_shaped_root h root a c).
    + intros a1 c1 a2 c2 b H1%edge_lock_set H2%edge_lock_set.
      by apply (tree_shaped_unique h root a1 c1 a2 c2 b).
Qed.

Lemma below_lock_set X h a x : below (lock_set X h) a x ↔ below h a x.
Proof. unfold below. by setoid_rewrite resolve_lock_set. Qed.

Lemma branch_lock_union h lca cs b X :
  resolve h lca cs = Some b → lca ∈ X →
  branch_lock cs b (lock_set X h) = lock_set ({[b]} ∪ X) h.
Proof.
  intros Hres Hx. destruct cs as [|c cs]; simpl.
  - simpl in Hres. injection Hres as <-. f_equal. set_solver.
  - apply lock_lock_set.
Qed.

(** [tree_move] of a folder in whose subtree a thread is inside a node or
    waits for one, the rest of the tree at rest. *)
Lemma tree_move_waits h root sp sc tp tc src dst m x nx t :
  shaped h root →
  is_path_valid (render (sp ++ [sc])) = true →
  is_path_valid (render (tp ++ [tc])) = true →
  Forall (λ c, no_slash c = true) (sp ++ [sc]) →
  Forall (λ c, no_slash c = true) (tp ++ [tc]) →
  is_ancestor (render (sp ++ [sc])) (render (tp ++ [tc])) = false →
  resolve h root tp = Some dst → (h !! dst ≫= λ n, map n !! tc) = None →
  resolve h root sp = Some src → edge h src sc m →
  (∀ y n, h !! y = Some n → ¬ below h m y → sync n = sync_new) →
  below h m x → h !! x = Some nx → busy (sync nx) = true →
  tree_move root (render (sp ++ [sc])) (render (tp ++ [tc])) (mkState h t)
  = Fail Blocked.
Proof.
  intros Hsh Hvs Hvt Hns Hnt Hcheck Hdst Htc Hsrc Hedge Hrest Hx Hnx Hbusy.
  pose proof Hsh as (_ & _ & Hts).
  unfold TreeOps.tree_move. rewrite Hvs, Hvt. cbn [negb orb].
  rewrite !is_root_render_snoc.
  pose proof Hcheck as Hcheck'. unfold is_ancestor in Hcheck'.
  rewrite Hcheck'. clear Hcheck'.
  rewrite !make_path_to_parent_render by done.
  apply Forall_app in Hns as [Hsp Hsc]. apply Forall_app in Hnt as [Htp Htc'].
  assert (Hanc : ¬ ((sp ++ [sc]) `prefix_of` tp)).
  { intros [rest ->]. unfold is_ancestor in Hcheck.
    rewrite <- (app_assoc (sp ++ [sc]) rest [tc]), ancestor_check in Hcheck;
      [done|by destruct rest]. }
  assert (Hm : resolve h root (sp ++ [sc]) = Some m).
  { apply resolve_snoc. by exists src. }
  assert (Hat : ∀ cs y n, resolve h root cs = Some y →
            ¬ (sp ++ [sc]) `prefix_of` cs → h !! y = Some n →
            sync n = sync_new).
  { intros cs y n Hy Hnp Hn. apply (Hrest y n Hn). intros [ys Hys].
    assert (Hlong : resolve h root ((sp ++ [sc]) ++ ys) = Some y)
      by (by rewrite resolve_app, Hm).
    pose proof (resolve_inj h root _ _ _ Hts Hlong Hy) as Heq.
    apply Hnp. by exists ys. }
  assert (Hshort : ∀ cs1, cs1 `prefix_of` sp → ¬ (sp ++ [sc]) `prefix_of` cs1).
  { intros cs1 [k1 ->] [k2 Hk]. apply (f_equal length) in Hk.
    rewrite !length_app in Hk. simpl in Hk. lia. }
  assert (Hside : ∀ cs1, cs1 `prefix_of` tp → ¬ (sp ++ [sc]) `prefix_of` cs1).
  { intros cs1 Hp1 Hp2. apply Hanc. by etrans. }
  destruct (shared_prefix_split sp tp) as (S' & T' & HS & HT & Hdiv).
  rewrite common_files_render by done.
  remember (shared_prefix sp tp) as pre eqn:Hdef. clear Hdef. subst sp tp.
  replace (size_sub (N.of_nat (length pre) + 1) 1) with (N.of_nat (length pre))
    by (unfold size_sub;
        destruct (N.leb_spec 1 (N.of_nat (length pre) + 1)); lia).
  rewrite !count_slashes_budget by done.
  apply Forall_app in Hsp as [Hpre HS']. apply Forall_app in Htp as [_ HT'].
  assert (Hfuel : (length pre < S (String.length (render (pre ++ S'))))%nat).
  { pose proof (length_render (pre ++ S')) as Hlen.
    rewrite length_app in Hlen.
    assert (Forall (λ c, no_slash c = true) (pre ++ S')) as Hall
      by (by apply Forall_app).
    specialize (Hlen Hall). lia. }
  rewrite !length_app, !size_sub_of_nat.
  destruct (resolve h root pre) as [lca|] eqn:Hlca;
    [|by rewrite resolve_app, Hlca in Hsrc].
  assert (HS2 : resolve h lca S' = Some src)
    by (by rewrite resolve_app, Hlca in Hsrc).
  assert (HT2 : resolve h lca T' = Some dst)
    by (by rewrite resolve_app, Hlca in Hdst).
  assert (Hunder : ∀ cs y, resolve h lca cs = Some y →
            resolve h root (pre ++ cs) = Some y).
  { intros cs y Hy. by rewrite resolve_app, Hlca. }
  assert (Hbelow : ∀ cs y, cs ≠ [] → resolve h lca cs = Some y → y ≠ lca).
  { intros cs y Hcs Hy ->. apply Hunder in Hy.
    pose proof (resolve_inj h root _ _ _ Hts Hy Hlca) as Heq.
    apply (f_equal length) in Heq. rewrite length_app in Heq.
    destruct cs; [done|]. simpl in Heq. lia. }
  assert (Hsame : ∀ cs1 cs2 y, resolve h lca cs1 = Some y →
            resolve h lca cs2 = Some y → cs1 = cs2).
  { intros cs1 cs2 y H1%Hunder H2%Hunder.
    pose proof (resolve_inj h root _ _ _ Hts H1 H2) as Heq.
    by apply app_inv_head in Heq. }
  destruct (shaped_node h root [] root Hsh eq_refl) as [n Hroot].
  assert (Hn : sync n = sync_new).
  { apply (Hat [] root n); [done| |done]. apply Hshort, prefix_nil. }
  destruct (shaped_node h root pre lca Hsh Hlca) as [nl Hnl].
  assert (Hsl : sync nl = sync_new).
  { apply (Hat pre lca nl); [done| |done]. apply Hshort. by exists S'. }
  destruct (shaped_node h root _ dst Hsh Hdst) as [nd Hnd].
  destruct (shaped_node h root _ src Hsh Hsrc) as [ns Hns].
  assert (Cpre : clear_path h root pre).
  { apply (shaped_clear_path h root pre [] root Hsh eq_refl).
    intros cs1 y ny [k ->] Hy Hny. apply (Hat cs1 y ny); [done| |done].
    apply Hshort. exists (k ++ S'). by rewrite app_assoc. }
  assert (CT : clear_path h lca T').
  { apply (shaped_clear_path h root T' pre lca Hsh Hlca).
    intros cs1 y ny [k ->] Hy Hny.
    apply (Hat (pre ++ cs1) y ny); [by apply Hunder| |done].
    apply Hside. exists k. by rewrite app_assoc. }
  assert (CS : clear_path h lca S').
  { apply (shaped_clear_path h root S' pre lca Hsh Hlca).
    intros cs1 y ny [k ->] Hy Hny.
    apply (Hat (pre ++ cs1) y ny); [by apply Hunder| |done].
    apply Hshort. exists k. by rewrite app_assoc. }
  erewrite bind_Ret; cycle 1.
  { by apply entry_run with n. }
  cbn [heap trace].
  pose proof (shared_loop_spec h pre S' T' root n
                (t ++ [entry_event pre root]) _ Hpre Hfuel Hroot Hn Cpre)
    as Hloop.
  rewrite Hlca in Hloop.
  rewrite bind_run, Hloop.
  rewrite decide_False by (intros H; by apply H).
  rewrite lock_set_singleton.
  unfold target_dfs. rewrite bind_run.
  rewrite (move_dfs_spec _ T' lca (mkTree (map nl) wlocked)); try done.
  2: { apply lock_set_held; [done|set_solver]. }
  2: { apply clear_path_lock_set; [done|].
       intros cs1 c y _ Hy. apply not_elem_of_singleton.
       apply (Hbelow (cs1 ++ [c])); [by destruct cs1|done]. }
  rewrite resolve_lock_set, HT2.
  rewrite decide_False by (intros H; by apply H).
  rewrite (branch_lock_union h lca T' dst) by (done || set_solver).
  rewrite bind_run, hmap_get_children
    by (cbn [heap]; apply lock_set_is_Some; eauto).
  cbn [heap]. rewrite children_lock_set, Htc.
  unfold source_dfs. rewrite bind_run.
  rewrite (move_dfs_spec _ S' lca (mkTree (map nl) wlocked)); try done.
  2: { apply lock_set_held; [done|set_solver]. }
  2: { apply clear_path_lock_set; [done|].
       intros cs1 c y Hpre1 Hy.
       assert (y ≠ lca)
         by (apply (Hbelow (cs1 ++ [c])); [by destruct cs1|done]).
       assert (y ≠ dst).
       { intros ->. apply (diverge_prefix S' T' cs1 c Hdiv Hpre1).
         by apply Hsame with dst. }
       set_solver. }
  rewrite resolve_lock_set, HS2.
  rewrite decide_False by (intros H; by apply H).
  rewrite (branch_lock_union h lca S' src) by (done || set_solver).
  rewrite bind_run, hmap_get_children
    by (cbn [heap]; apply lock_set_is_Some; eauto).
  cbn [heap]. rewrite children_lock_set.
  apply children_edge in Hedge. rewrite Hedge.
  rewrite (release_if _ _ h lca nl) by (done || set_solver).
  erewrite bind_Ret; cycle 1.
  { unfold heap_size. cbn [heap]. reflexivity. }
  rewrite size_lock_set.
  apply bind_Fail.
  match goal with
  | |- bfs_clear _ _ (mkState (lock_set ?X h) ?t1) = _ =>
      set (X0 := X); set (t1' := t1)
  end.
  destruct (bfs_clear_cases (lock_set X0 h) root t1'
              (shaped_lock_set X0 h root Hsh) (size h)
              ((pre ++ S') ++ [sc]) m)
    as [[_ Hidle]|[Hrun _]].
  - by rewrite resolve_lock_set.
  - rewrite size_lock_set. lia.
  - exfalso. apply (proj2 (below_lock_set X0 h m x)) in Hx.
    pose proof (Hidle x) as Hidle'.
    rewrite lock_set_lookup, Hnx in Hidle'. cbn in Hidle'.
    specialize (Hidle' _ Hx eq_refl).
    case_decide; cbn in Hidle'; [done|congruence].
  - done.
Qed.

(** X27. [tree_move] does not move a subtree in use. In a tree in which
    every node outside the subtree of the source is at rest, for valid paths
    other than the root path, the source no proper ancestor of the target,
    the source naming a folder and the target naming none under a parent
    that is there: when a thread is inside a node of the subtree of the
    source or waits to enter one, [tree_move] does not return: it
    waits. *)
Theorem move_waits_while_in_use h root s t tparent tc m x nx t0 :
  shaped h root →
  is_path_valid s = true → is_path_valid t = true →
  is_root s = false → is_root t = false →
  (components s `prefix_of` components t → components s = components t) →
  make_path_to_parent t = Some (tparent, tc) →
  is_Some (resolve h root (components tparent)) →
  resolve h root (components t) = None →
  resolve h root (components s) = Some m →
  (∀ y n, h !! y = Some n → ¬ below h m y → sync n = sync_new) →
  below h m x → h !! x = Some nx → busy (sync nx) = true →
  tree_move root s t (mkState h t0) = Fail Blocked.
Proof.
  intros Hsh Hs Ht Hrs Hrt Hnot Hparent [dst Hdst] Hnone Hm Hrest Hx Hnx Hbusy.
  assert (Hanc : is_ancestor s t = false).
  { destruct (is_ancestor s t) eqn:E; [|done].
    apply (is_ancestor_components MAX_FOLDER_NAME_LENGTH) in E
      as [Hpre Hne]; [|done..].
    by destruct Hne; apply Hnot. }
  destruct (valid_path_snoc _ s Hs Hrs) as (sp & sc & -> & HS).
  destruct (valid_path_snoc _ t Ht Hrt) as (tp & tc' & -> & HT).
  pose proof (names_valid_no_slash _ _ HS) as HS'.
  pose proof (names_valid_no_slash _ _ HT) as HT'.
  rewrite make_path_to_parent_render in Hparent by done.
  injection Hparent as <- <-.
  pose proof HT' as HT''. apply Forall_app in HT'' as [Htp _].
  rewrite !components_render in * by done.
  apply resolve_snoc in Hm as (src & Hsrc & Hedge).
  apply (tree_move_waits h root sp sc tp tc' src dst m x nx); try done.
  destruct (h !! dst ≫= _) as [y|] eqn:Hy; [|done].
  assert (resolve h root (tp ++ [tc']) = Some y); [|congruence].
  apply resolve_snoc. exists dst. split; [done|]. by apply children_edge.
Qed.

End MoveWaits.


(** ** Walks that meet a node in use *)

Section WalkWaits.

Import PathUtils Monitor Heap TreeOps Shape Reach.

Variable MAX_FOLDER_NAME_LENGTH : nat.

Local Abbreviation is_path_valid := (is_path_valid MAX_FOLDER_NAME_LENGTH).
Local Abbreviation tree_list := (tree_list MAX_FOLDER_NAME_LENGTH).
Local Abbreviation tree_create := (tree_create MAX_FOLDER_NAME_LENGTH).

Local Open Scope Z_scope.

Lemma reader_entry_waits x nx st :
  heap st !! x = Some nx → reader_must_wait (sync nx) = true →
  reader_entry_protocol x st = Fail Blocked.
Proof.
  intros Hx Hwait. unfold reader_entry_protocol, get_node.
  by rewrite bind_run, Hx, Hwait.
Qed.

Lemma writer_entry_waits x nx st :
  heap st !! x = Some nx → writer_must_wait (sync nx) = true →
  writer_entry_protocol x st = Fail Blocked.
Proof.
  intros Hx Hwait. unfold writer_entry_protocol, get_node.
  by rewrite bind_run, Hx, Hwait.
Qed.

(** The walk of [tree_list] down to a node that a reader may not enter. *)
Lemma tree_list_loop_waits H pre c rest x nx : ∀ cur n p t fuel,
  Forall (λ c, no_slash c = true) (pre ++ c :: rest) →
  (length pre < fuel)%nat →
  H !! cur = Some n → sync n = sync_new → clear_path H cur pre →
  resolve H cur pre = Some p → (H !! p ≫= λ n, map n !! c) = Some x →
  x ≠ p → H !! x = Some nx → reader_must_wait (sync nx) = true →
  tree_list_loop fuel cur (render (pre ++ c :: rest))
    (mkState (lock rlocked cur H) t)
  = Fail Blocked.
Proof.
  induction pre as [|c0 pre IH];
    intros cur n p t fuel Hcs Hfuel Hcur Hn Hclear Hp Hc Hne Hx Hwait.
  - destruct fuel as [|fuel]; [simpl in Hfuel; lia|].
    simpl in Hp. injection Hp as <-.
    apply Forall_cons in Hcs as [Hc' Hcs]. simpl app.
    rewrite tree_list_loop_unfold, split_path_render by done.
    erewrite bind_Ret; cycle 1.
    { apply hmap_get_run. simpl. by apply lock_lookup_eq. }
    rewrite Hcur in Hc. simpl in Hc. cbn [map]. rewrite Hc.
    apply bind_Fail. apply reader_entry_waits with nx; [|done].
    cbn [heap]. by rewrite lock_lookup_ne.
  - destruct fuel as [|fuel]; [simpl in Hfuel; lia|].
    apply Forall_cons in Hcs as [Hc0 Hcs].
    change ((c0 :: pre) ++ c :: rest) with (c0 :: (pre ++ c :: rest)).
    rewrite tree_list_loop_unfold, split_path_render by done.
    erewrite bind_Ret; cycle 1.
    { apply hmap_get_run. simpl. by apply lock_lookup_eq. }
    simpl in Hclear, Hp. rewrite Hcur in Hclear, Hp. simpl in Hclear, Hp.
    cbn [map].
    destruct (map n !! c0) as [next|] eqn:Hnext; [|done].
    destruct Hclear as (Hne' & (n' & Hn' & Hs') & Hclear).
    rewrite (hand_over_hand H [c0] cur next n n') by done.
    apply (IH next n' p); try done. simpl in Hfuel. lia.
Qed.

(** X28. [tree_list] does not read past a node it may not enter. In a
    tree, for a valid path: when a node on the path, all nodes above it on
    the path being at rest, has a writer inside or waiting and no baton
    out (the condition of line 86), [tree_list] does not return: it
    waits. *)
Theorem list_waits_behind_writer h root p cs x nx t :
  shaped h root → is_path_valid p = true →
  cs `prefix_of` components p →
  (∀ cs1 y n, cs1 `prefix_of` cs → cs1 ≠ cs →
     resolve h root cs1 = Some y → h !! y = Some n → sync n = sync_new) →
  resolve h root cs = Some x → h !! x = Some nx →
  reader_must_wait (sync nx) = true →
  tree_list root p (mkState h t) = Fail Blocked.
Proof.
  intros Hsh Hvalid Hpre Hrest Hx Hnx Hwait.
  destruct (valid_path_render _ p Hvalid) as (all & -> & Hall).
  pose proof (names_valid_no_slash _ _ Hall) as Hns.
  rewrite components_render in Hpre by done.
  unfold TreeOps.tree_list. rewrite Hvalid. cbn [negb].
  destruct cs as [|c cs _] using rev_ind.
  { simpl in Hx. injection Hx as <-. apply bind_Fail.
    by apply reader_entry_waits with nx. }
  destruct Hpre as [rest ->].
  replace ((cs ++ [c]) ++ rest) with (cs ++ c :: rest) in *
    by (by rewrite <- app_assoc).
  apply resolve_snoc in Hx as (b & Hb & He).
  destruct (shaped_node h root [] root Hsh eq_refl) as [n Hroot].
  assert (Hstrict : ∀ cs1, cs1 `prefix_of` cs → cs1 ≠ cs ++ [c]).
  { intros cs1 [k ->] Heq. apply (f_equal length) in Heq.
    rewrite !length_app in Heq. simpl in Heq. lia. }
  assert (Hn : sync n = sync_new).
  { apply (Hrest [] root n); [apply prefix_nil|by destruct cs|done..]. }
  assert (Hclear : clear_path h root cs).
  { apply (shaped_clear_path h root cs [] root Hsh eq_refl).
    intros cs1 y ny Hp1 Hy Hny. apply (Hrest cs1 y ny); try done.
    - destruct Hp1 as [k ->]. exists (k ++ [c]). by rewrite app_assoc.
    - by apply Hstrict. }
  erewrite bind_Ret; cycle 1.
  { by apply reader_entry_run with n. }
  cbn [heap trace].
  pose proof He as (nb & Hnb & Hc).
  apply (tree_list_loop_waits h cs c rest x nx root n b); try done.
  - pose proof (length_render (cs ++ c :: rest) Hns) as Hlen.
    rewrite length_app in Hlen. cbn [length] in Hlen. lia.
  - by apply children_edge.
  - intros ->. apply (below_child_ne h root cs b nb c b); try done.
    apply below_refl.
Qed.

(** The walk of [find_node] down to a last node that a writer may not
    enter. *)
Lemma find_node_loop_waits H pre c x nx : ∀ cur n p t fuel,
  Forall (λ c, no_slash c = true) (pre ++ [c]) →
  (length pre < fuel)%nat →
  H !! cur = Some n → sync n = sync_new → clear_path H cur pre →
  resolve H cur pre = Some p → (H !! p ≫= λ n, map n !! c) = Some x →
  x ≠ p → H !! x = Some nx → writer_must_wait (sync nx) = true →
  find_node_loop fuel cur (render (pre ++ [c]))
    (N.of_nat (length (pre ++ [c]))) (mkState (lock rlocked cur H) t)
  = Fail Blocked.
Proof.
  induction pre as [|c0 pre IH];
    intros cur n p t fuel Hcs Hfuel Hcur Hn Hclear Hp Hc Hne Hx Hwait.
  - destruct fuel as [|fuel]; [simpl in Hfuel; lia|].
    simpl in Hp. injection Hp as <-.
    apply Forall_cons in Hcs as [Hc' Hcs]. cbn [app length].
    rewrite find_node_loop_unfold, split_path_render by done.
    erewrite bind_Ret; cycle 1.
    { apply hmap_get_run. simpl. by apply lock_lookup_eq. }
    rewrite Hcur in Hc. simpl in Hc. cbn [map]. rewrite Hc.
    rewrite size_pred_succ. apply bind_Fail.
    apply writer_entry_waits with nx; [|done].
    cbn [heap]. by rewrite lock_lookup_ne.
  - destruct fuel as [|fuel]; [simpl in Hfuel; lia|].
    apply Forall_cons in Hcs as [Hc0 Hcs].
    change ((c0 :: pre) ++ [c]) with (c0 :: (pre ++ [c])). cbn [length].
    rewrite find_node_loop_unfold, split_path_render by done.
    erewrite bind_Ret; cycle 1.
    { apply hmap_get_run. simpl. by apply lock_lookup_eq. }
    simpl in Hclear, Hp. rewrite Hcur in Hclear, Hp. simpl in Hclear, Hp.
    cbn [map].
    destruct (map n !! c0) as [next|] eqn:Hnext; [|done].
    destruct Hclear as (Hne' & (n' & Hn' & Hs') & Hclear).
    rewrite size_pred_succ.
    rewrite (hand_over_hand H (pre ++ [c]) cur next n n') by done.
    replace (mode (pre ++ [c])) with rlocked by (by destruct pre).
    apply (IH next n' p); try done. simpl in Hfuel. lia.
Qed.

(** X29. [tree_create] does not change a folder in use. In a tree, for a
    valid path other than the root path whose parent path names a folder,
    the nodes above that folder on the path being at rest: when a thread is
    inside the parent folder, or the baton of its node is out (the
    condition of line 118), [tree_create] does not return: it waits. *)
Theorem create_waits_while_parent_in_use h root p parent c b nb t :
  shaped h root →
  is_path_valid p = true → is_root p = false →
  make_path_to_parent p = Some (parent, c) →
  (∀ cs1 y n, cs1 `prefix_of` components parent →
     cs1 ≠ components parent →
     resolve h root cs1 = Some y → h !! y = Some n → sync n = sync_new) →
  resolve h root (components parent) = Some b → h !! b = Some nb →
  writer_must_wait (sync nb) = true →
  tree_create root p (mkState h t) = Fail Blocked.
Proof.
  intros Hsh Hvalid Hroot Hparent Hrest Hb Hnb Hwait.
  destruct (valid_path_snoc _ p Hvalid Hroot) as (cs & c' & -> & Hall).
  pose proof (names_valid_no_slash _ _ Hall) as Hns.
  rewrite make_path_to_parent_render in Hparent by done.
  injection Hparent as <- <-.
  pose proof Hns as Hns'. apply Forall_app in Hns' as [Hcs _].
  rewrite !components_render in * by done.
  unfold TreeOps.tree_create. rewrite Hvalid. cbn [negb].
  rewrite is_root_render_snoc.
  rewrite make_path_to_parent_render by done.
  apply bind_Fail. unfold find_node.
  rewrite count_slashes_budget by done.
  destruct cs as [|c0 cs _] using rev_ind.
  { simpl in Hb. injection Hb as <-. apply bind_Fail.
    by apply writer_entry_waits with nb. }
  apply resolve_snoc in Hb as (a & Ha & He).
  destruct (shaped_node h root [] root Hsh eq_refl) as [n Hn].
  assert (Hstrict : ∀ cs1, cs1 `prefix_of` cs → cs1 ≠ cs ++ [c0]).
  { intros cs1 [k ->] Heq. apply (f_equal length) in Heq.
    rewrite !length_app in Heq. simpl in Heq. lia. }
  assert (Hsn : sync n = sync_new).
  { apply (Hrest [] root n); [apply prefix_nil|by destruct cs|done..]. }
  assert (Hclear : clear_path h root cs).
  { apply (shaped_clear_path h root cs [] root Hsh eq_refl).
    intros cs1 y ny Hp1 Hy Hny. apply (Hrest cs1 y ny); try done.
    - destruct Hp1 as [k ->]. exists (k ++ [c0]). by rewrite app_assoc.
    - by apply Hstrict. }
  erewrite bind_Ret; cycle 1.
  { by apply entry_run with n. }
  cbn [heap trace].
  replace (mode (cs ++ [c0])) with rlocked by (by destruct cs).
  pose proof He as (na & Hna & Hc0).
  apply (find_node_loop_waits h cs c0 b nb root n a); try done.
  - pose proof (length_render (cs ++ [c0]) Hcs) as Hlen.
    rewrite length_app in Hlen. cbn [length] in Hlen. lia.
  - by apply children_edge.
  - intros ->. apply (below_child_ne h root cs a na c0 a); try done.
    apply below_refl.
Qed.

End WalkWaits.


(** ** The theorems at work on small trees *)

Section Instances.

Import PathUtils Monitor Heap TreeOps Shape Examples.

Local Open Scope Z_scope.

Lemma one_reader_reachable : reachable one_reader.
Proof.
  apply (reach_step (initial 2)); [apply reach_initial|].
  apply (step_thread sync_new _ Out Reading [] [Out]).
  by apply ts_reader_enter.
Qed.

Lemma exclusion_invariant_witness :
  reachable one_reader ∧
  exclusion (sync_of one_reader) ∧
  ∀ c', step one_reader c' → exclusion (sync_of c').
Proof.
  split; [exact one_reader_reachable|].
  exact (exclusion_invariant one_reader one_reader_reachable).
Defined.

Lemma wf_h_root : wf h_root 0.
Proof. compute_done. Qed.

Lemma wf_h_ab : wf h_ab 0.
Proof. compute_done. Qed.

Lemma wf_h_xy : wf h_xy 0.
Proof. compute_done. Qed.

Lemma move_relocates_witness :
  wf h_xy 0 ∧
  tree_move limit 0 "/x/" "/y/x/" (mkState h_xy []) = Ret 0 st_moved ∧
  ∃ sp sc tp tc src dst m,
    make_path_to_parent "/x/" = Some (render sp, sc) ∧
    make_path_to_parent "/y/x/" = Some (render tp, tc) ∧
    resolve h_xy 0 sp = Some src ∧ resolve h_xy 0 tp = Some dst ∧
    resolve h_xy 0 (components "/x/") = Some m ∧
    heap st_moved = moved h_xy src sc dst tc m ∧
    (heap st_moved !! src ≫= λ n, map n !! sc) = None ∧
    (heap st_moved !! dst ≫= λ n, map n !! tc) = Some m ∧
    resolve (heap st_moved) 0 (components "/y/x/") = Some m ∧
    ∀ cs x, resolve h_xy m cs = Some x →
            heap st_moved !! x = h_xy !! x ∧
            resolve (heap st_moved) m cs = Some x.
Proof.
  assert (Hrun : tree_move limit 0 "/x/" "/y/x/" (mkState h_xy [])
                 = Ret 0 st_moved) by (vm_compute; reflexivity).
  split; [exact wf_h_xy|]. split; [exact Hrun|].
  exact (move_relocates limit h_xy 0 "/x/" "/y/x/" [] st_moved wf_h_xy Hrun).
Defined.

Lemma names_ok_h_ab_limit : names_ok limit h_ab.
Proof. compute_done. Qed.

Lemma create_remove_listed_witness :
  wf h_ab 0 ∧ names_ok limit h_ab ∧
  (∃ st1 res st2,
     is_path_valid limit "/a/c/" = true ∧ is_root "/a/c/" = false ∧
     make_path_to_parent "/a/c/" = Some ("/a/", "c") ∧
     tree_create limit 0 "/a/c/" (mkState h_ab []) = Ret 0 st1 ∧
     tree_list limit 0 "/a/" st1 = Ret (Some res) st2 ∧
     "c" ∈ entries res) ∧
  (∃ st1 res st2,
     is_path_valid limit "/a/b/" = true ∧ is_root "/a/b/" = false ∧
     make_path_to_parent "/a/b/" = Some ("/a/", "b") ∧
     tree_remove limit 0 "/a/b/" (mkState h_ab []) = Ret 0 st1 ∧
     tree_list limit 0 "/a/" st1 = Ret (Some res) st2 ∧
     "b" ∉ entries res).
Proof.
  split; [exact wf_h_ab|]. split; [exact names_ok_h_ab_limit|]. split.
  - destruct (create_remove_listed limit h_ab 0 "/a/c/" []
                wf_h_ab names_ok_h_ab_limit eq_refl eq_refl)
      as (parent & c & Hp & Hcreate & _ & Hruns & _).
    assert (Heq : Some (parent, c) = Some ("/a/", "c"))
      by (rewrite <- Hp; vm_compute; reflexivity).
    injection Heq as -> ->.
    destruct Hruns as [st1 Hrun];
      [vm_compute; eauto | vm_compute; reflexivity |].
    destruct (Hcreate st1 Hrun) as (res & st2 & Hlist & Hin).
    exists st1, res, st2. by repeat split.
  - destruct (create_remove_listed limit h_ab 0 "/a/b/" []
                wf_h_ab names_ok_h_ab_limit eq_refl eq_refl)
      as (parent & c & Hp & _ & Hremove & _ & Hruns).
    assert (Heq : Some (parent, c) = Some ("/a/", "b"))
      by (rewrite <- Hp; vm_compute; reflexivity).
    injection Heq as -> ->.
    destruct (Hruns 2%nat leaf) as [st1 Hrun];
      [vm_compute; reflexivity | vm_compute; reflexivity | reflexivity |].
    destruct (Hremove st1 Hrun) as (res & st2 & Hlist & Hin).
    exists st1, res, st2. by repeat split.
Defined.

Lemma remove_nonempty_witness :
  wf h_ab 0 ∧
  is_path_valid limit "/a/" = true ∧ is_root "/a/" = false ∧
  resolve h_ab 0 (components "/a/") = Some 1%nat ∧
  h_ab !! 1%nat = Some (mkTree {[ "b" := 2%nat ]} sync_new) ∧
  map (mkTree {[ "b" := 2%nat ]} sync_new) ≠ ∅ ∧
  ∃ t', tree_remove limit 0 "/a/" (mkState h_ab [])
        = Ret ENOTEMPTY (mkState h_ab t').
Proof.
  assert (Hres : resolve h_ab 0 (components "/a/") = Some 1%nat)
    by (vm_compute; reflexivity).
  assert (Hnode : h_ab !! 1%nat = Some (mkTree {[ "b" := 2%nat ]} sync_new))
    by (vm_compute; reflexivity).
  assert (Hne : map (mkTree {[ "b" := 2%nat ]} sync_new) ≠ ∅)
    by compute_done.
  split; [exact wf_h_ab|]. split; [reflexivity|]. split; [reflexivity|].
  split; [exact Hres|]. split; [exact Hnode|]. split; [exact Hne|].
  exact (remove_nonempty limit h_ab 0 "/a/" 1%nat _ [] wf_h_ab
           eq_refl eq_refl Hres Hnode Hne).
Defined.

(** [tree_remove] of the root path of a tree whose root has a child:
    [EBUSY], not [ENOTEMPTY]. *)
Lemma remove_root_counterexample :
  is_path_valid limit "/" = true ∧
  resolve h_ab 0 (components "/") = Some 0%nat ∧
  h_ab !! 0%nat = Some (mkTree {[ "a" := 1%nat ]} sync_new) ∧
  map (mkTree {[ "a" := 1%nat ]} sync_new) ≠ ∅ ∧
  tree_remove limit 0 "/" (mkState h_ab [])
  = Ret EBUSY (mkState h_ab []) ∧
  EBUSY ≠ ENOTEMPTY.
Proof.
  split; [reflexivity|]. split; [reflexivity|].
  split; [vm_compute; reflexivity|]. split; [compute_done|].
  split; [reflexivity|done].
Qed.

Lemma move_into_descendant_witness :
  is_path_valid limit "/a/" = true ∧ is_path_valid limit "/a/b/c/" = true ∧
  is_root "/a/" = false ∧
  components "/a/" `prefix_of` components "/a/b/c/" ∧
  components "/a/" ≠ components "/a/b/c/" ∧
  tree_move limit 0 "/a/" "/a/b/c/" (mkState h_ab [])
  = Ret (-1) (mkState h_ab []).
Proof.
  assert (Hpre : components "/a/" `prefix_of` components "/a/b/c/")
    by (by exists ["b"; "c"]).
  assert (Hne : components "/a/" ≠ components "/a/b/c/") by discriminate.
  split; [reflexivity|]. split; [reflexivity|]. split; [reflexivity|].
  split; [exact Hpre|]. split; [exact Hne|].
  exact (move_into_descendant limit (mkState h_ab []) 0 "/a/" "/a/b/c/"
           eq_refl eq_refl eq_refl Hpre Hne).
Defined.

(** [tree_move] from the root path, which is an ancestor of every other
    path: [EBUSY], not -1. *)
Lemma move_root_counterexample :
  is_path_valid limit "/" = true ∧ is_path_valid limit "/a/" = true ∧
  components "/" `prefix_of` components "/a/" ∧
  components "/" ≠ components "/a/" ∧
  tree_move limit 0 "/" "/a/" (mkState h_ab [])
  = Ret EBUSY (mkState h_ab []) ∧
  EBUSY ≠ (-1).
Proof.
  split; [reflexivity|]. split; [reflexivity|].
  split; [by exists ["a"]|]. split; [discriminate|].
  split; [reflexivity|done].
Qed.

(** [tree_move] of the root path to the root path, and to an invalid
    path: the target is the root path and the result is not [EEXIST]; the
    source is the root path and the result is not [EBUSY]. *)
Lemma move_root_root_counterexample :
  tree_move limit 0 "/" "/" (mkState h_ab []) = Ret EBUSY (mkState h_ab []) ∧
  EBUSY ≠ EEXIST ∧
  tree_move limit 0 "/" "a" (mkState h_ab []) = Ret EINVAL (mkState h_ab []) ∧
  EINVAL ≠ EBUSY.
Proof. repeat split; done. Qed.

Lemma create_remove_roundtrip_witness :
  wf h_ab 0 ∧
  is_path_valid limit "/a/c/" = true ∧ is_root "/a/c/" = false ∧
  make_path_to_parent "/a/c/" = Some ("/a/", "c") ∧
  resolve h_ab 0 (components "/a/") = Some 1%nat ∧
  resolve h_ab 0 (components "/a/c/") = None ∧
  ∃ st1 t2,
    tree_create limit 0 "/a/c/" (mkState h_ab []) = Ret 0 st1 ∧
    tree_remove limit 0 "/a/c/" st1 = Ret 0 (mkState h_ab t2).
Proof.
  assert (Hparent : make_path_to_parent "/a/c/" = Some ("/a/", "c"))
    by (vm_compute; reflexivity).
  assert (Hres : resolve h_ab 0 (components "/a/") = Some 1%nat)
    by (vm_compute; reflexivity).
  assert (Hnone : resolve h_ab 0 (components "/a/c/") = None)
    by (vm_compute; reflexivity).
  split; [exact wf_h_ab|]. split; [reflexivity|]. split; [reflexivity|].
  split; [exact Hparent|]. split; [exact Hres|]. split; [exact Hnone|].
  exact (create_remove_roundtrip limit h_ab 0 "/a/c/" "/a/" "c" 1%nat []
           wf_h_ab eq_refl eq_refl Hparent Hres Hnone).
Defined.

Lemma move_onto_itself_witness :
  wf h_ab 0 ∧
  is_path_valid limit "/a/b/" = true ∧ is_root "/a/b/" = false ∧
  (is_Some (resolve h_ab 0 (components "/a/b/")) →
     ∃ t', tree_move limit 0 "/a/b/" "/a/b/" (mkState h_ab [])
           = Ret EEXIST (mkState h_ab t')) ∧
  (resolve h_ab 0 (components "/a/b/") = None →
     ∃ t', tree_move limit 0 "/a/b/" "/a/b/" (mkState h_ab [])
           = Ret ENOENT (mkState h_ab t')).
Proof.
  split; [exact wf_h_ab|]. split; [reflexivity|]. split; [reflexivity|].
  exact (move_onto_itself limit h_ab 0 "/a/b/" [] wf_h_ab eq_refl eq_refl).
Defined.

Lemma h_ab_below_root cs1 c1 x rest :
  (cs1 ++ [c1]) ++ rest = ["a"; "z"] →
  resolve h_ab 0 (cs1 ++ [c1]) = Some x → x ∉ ({[0%nat]} : gset addr).
Proof.
  intros Hpre Hx.
  destruct cs1 as [|c0 [|c0' cs1]]; simpl in Hpre.
  - injection Hpre as -> _. vm_compute in Hx. injection Hx as <-.
    set_solver.
  - injection Hpre as -> -> _. vm_compute in Hx. discriminate.
  - injection Hpre as _ _ Hnil. by destruct cs1.
Qed.

Lemma h_ab_no_z cs1 c1 x rest (X : gset addr) :
  (cs1 ++ [c1]) ++ rest = ["z"] →
  resolve h_ab 0 (cs1 ++ [c1]) = Some x → x ∉ X.
Proof.
  intros Hpre Hx. destruct cs1 as [|c0 cs1]; simpl in Hpre.
  - injection Hpre as -> _. vm_compute in Hx. discriminate.
  - injection Hpre as _ Hnil. by destruct cs1.
Qed.

Lemma missing_component_release_witness :
  wf h_ab 0 ∧
  (∃ evs,
     resolve h_ab 0 ["a"; "z"; "q"] = None ∧
     find_node 0 "/a/z/q/" 3 (mkState h_ab [])
     = Ret (ENOENT, None) (mkState h_ab evs) ∧
     released_as_reader 1 evs) ∧
  (∃ evs src tgt tt,
     resolve h_ab 0 ["a"; "z"] = None ∧
     (reader_entry_protocol 0 ;;
      shared_loop 3 2 (Some "/a/z/s/") (Some "/a/z/t/") 0 0)
       (mkState h_ab [])
     = Ret (ENOENT, src, tgt, tt) (mkState h_ab evs) ∧
     released_as_reader 1 evs) ∧
  (∃ evs,
     is_Some (h_ab !! 0%nat ≫= λ n, map n !! "a") ∧
     move_dfs 0 (Some "/a/z/") 2 (mkState (lock_set {[0%nat]} h_ab) [])
     = Ret (ENOENT, None) (mkState (lock_set {[0%nat]} h_ab) evs) ∧
     released_as_reader 1 evs) ∧
  ((h_ab !! 0%nat ≫= λ n, map n !! "z") = None ∧
   move_dfs 0 (Some "/z/") 1 (mkState (lock_set {[0%nat]} h_ab) [])
   = Ret (ENOENT, None) (mkState (lock_set {[0%nat]} h_ab) []) ∧
   target_dfs 0 (Some "/z/") "t" (Some "/a/") "b" 1 1
     (mkState (lock_set {[0%nat]} h_ab) [])
   = Ret ENOENT (mkState h_ab [EvWriterExit 0]) ∧
   source_dfs 0 1 (Some "/z/") "s" "t" 1
     (mkState (lock_set {[1%nat; 0%nat]} h_ab) [])
   = Ret ENOENT (mkState h_ab [EvWriterExit 1; EvWriterExit 0]) ∧
   source_dfs 0 0 (Some "/z/") "s" "t" 1
     (mkState (lock_set {[0%nat]} h_ab) [])
   = Ret ENOENT (mkState h_ab [EvWriterExit 0])).
Proof.
  destruct (missing_component_release h_ab 0 wf_h_ab)
    as (Hfind & Hshared & Hbranch).
  assert (Hazq : Forall (λ c, no_slash c = true) ["a"; "z"; "q"])
    by (repeat constructor).
  assert (Haz : Forall (λ c, no_slash c = true) ["a"; "z"])
    by (repeat constructor).
  assert (Hz : Forall (λ c, no_slash c = true) ["z"])
    by (repeat constructor).
  assert (Hnone3 : resolve h_ab 0 ["a"; "z"; "q"] = None)
    by (vm_compute; reflexivity).
  assert (Hnone2 : resolve h_ab 0 ["a"; "z"] = None)
    by (vm_compute; reflexivity).
  assert (Hnone1 : resolve h_ab 0 ["z"] = None)
    by (vm_compute; reflexivity).
  assert (Ha : is_Some (h_ab !! 0%nat ≫= λ n, map n !! "a"))
    by (vm_compute; eauto).
  assert (Hnoz : (h_ab !! 0%nat ≫= λ n, map n !! "z") = None)
    by (vm_compute; reflexivity).
  split; [exact wf_h_ab|]. split; [|split; [|split]].
  - destruct (Hfind ["a"; "z"; "q"] [] Hazq Hnone3) as (evs & Hrun & Hrel).
    exists evs. split; [exact Hnone3|]. split; [exact Hrun|exact Hrel].
  - destruct (Hshared ["a"; "z"] ["s"] ["t"] [] Haz Hnone2)
      as (evs & src & tgt & tt & Hrun & Hrel).
    exists evs, src, tgt, tt.
    split; [exact Hnone2|]. split; [exact Hrun|exact Hrel].
  - destruct (Hbranch [] 0%nat "a" ["z"] {[0%nat]} [] eq_refl Haz Hnone2)
      as [Hbelow _].
    { intros cs1 c1 x [rest Hpre]. symmetry in Hpre.
      by apply h_ab_below_root with rest. }
    destruct (Hbelow Ha) as (evs & Hrun & Hrel).
    exists evs. split; [exact Ha|]. split; [exact Hrun|exact Hrel].
  - destruct (Hbranch [] 0%nat "z" [] {[0%nat]} [] eq_refl Hz Hnone1)
      as [_ Hat].
    { intros cs1 c1 x [rest Hpre]. symmetry in Hpre.
      by apply h_ab_no_z with rest. }
    destruct (Hat Hnoz) as (_ & Hrun & Htarget & Hsource).
    split; [exact Hnoz|]. split; [exact Hrun|].
    split; [exact (Htarget "t" (Some "/a/") "b" 1%N)|].
    split.
    + refine (Hsource 1%nat "s" "t" _). vm_compute. eauto.
    + refine (Hsource 0%nat "s" "t" _). vm_compute. eauto.
Defined.

(** [tree_move] of [/a/b/] to [/c/d/] in a tree with the root only: the
    common ancestor is the root, held by a writer; [move_dfs] finds [c]
    missing there, and the root is released with the writer exit protocol
    and with no reader exit protocol. *)
Lemma move_miss_at_ancestor_counterexample :
  move_dfs 0 (Some "/c/") 1 (mkState (lock_set {[0%nat]} h_root) [])
  = Ret (ENOENT, None) (mkState (lock_set {[0%nat]} h_root) []) ∧
  tree_move limit 0 "/a/b/" "/c/d/" (mkState h_root [])
  = Ret ENOENT (mkState h_root [EvWriterEntry 0; EvWriterExit 0]) ∧
  ¬ released_as_reader 0 [EvWriterEntry 0; EvWriterExit 0].
Proof.
  split; [vm_compute; reflexivity|]. split; [vm_compute; reflexivity|].
  intros [Hlast _]. discriminate Hlast.
Qed.

End Instances.

(** ** The further theorems at work *)

Section MoreInstances.

Import PathUtils Monitor Heap TreeOps Shape Examples.
Import Accounting Discipline Reach MoreExamples.

Local Open Scope Z_scope.

Lemma writer_and_reader_reachable : reachable writer_and_reader.
Proof.
  apply (reach_step (mkConfig (writer_enter sync_new) [Writing; Out])).
  - apply (reach_step (initial 2)); [apply reach_initial|].
    apply (step_thread sync_new _ Out Writing [] [Out]).
    by apply ts_writer_enter.
  - apply (step_thread (writer_enter sync_new) _ Out ParkedReader
             [Writing] []).
    by apply ts_reader_park.
Qed.

Lemma handed_over_reachable : reachable handed_over.
Proof.
  apply (reach_step writer_and_reader);
    [apply writer_and_reader_reachable|].
  apply (step_thread (mkSync 0 1 1 0 0 false) _ Writing Out
           [] [ParkedReader]).
  apply ts_writer_exit.
Qed.

Lemma baton_out_step : step baton_out baton_taken.
Proof.
  apply (step_thread (mkSync 0 0 1 1 1 false) _ ParkedReader Reading
           [Out] [ParkedWriter]).
  by apply ts_reader_wake_enter.
Qed.

Lemma counters_count_threads_witness :
  reachable writer_and_reader ∧
  rcount (sync_of writer_and_reader)
  = tally Reading (pool writer_and_reader) ∧
  wcount (sync_of writer_and_reader)
  = tally Writing (pool writer_and_reader) ∧
  rwait (sync_of writer_and_reader)
  = tally ParkedReader (pool writer_and_reader) ∧
  wwait (sync_of writer_and_reader)
  = tally ParkedWriter (pool writer_and_reader) ∧
  ∀ v, v ∈ [rcount (sync_of writer_and_reader);
            wcount (sync_of writer_and_reader);
            rwait (sync_of writer_and_reader);
            wwait (sync_of writer_and_reader)] →
       0 ≤ v ≤ Z.of_nat (length (pool writer_and_reader)).
Proof.
  split; [exact writer_and_reader_reachable|].
  exact (counters_count_threads writer_and_reader
           writer_and_reader_reachable).
Defined.

Lemma writer_is_alone_witness :
  reachable writer_and_reader ∧
  tally Writing (pool writer_and_reader) ≤ 1 ∧
  (0 < tally Writing (pool writer_and_reader) →
   tally Reading (pool writer_and_reader) = 0).
Proof.
  split; [exact writer_and_reader_reachable|].
  exact (writer_is_alone writer_and_reader writer_and_reader_reachable).
Defined.

Lemma baton_bounded_witness :
  reachable handed_over ∧
  -1 ≤ change (sync_of handed_over) ≤ tally ParkedReader (pool handed_over) ∧
  (0 < change (sync_of handed_over) → tally Writing (pool handed_over) = 0).
Proof.
  split; [exact handed_over_reachable|].
  exact (baton_bounded handed_over handed_over_reachable).
Defined.

Lemma clear_test_exact_witness :
  reachable writer_and_reader ∧
  (busy (sync_of writer_and_reader) = false ↔
   idle (pool writer_and_reader)) ∧
  busy (clear_unpark (sync_of writer_and_reader))
  = busy (sync_of writer_and_reader).
Proof.
  split; [exact writer_and_reader_reachable|].
  exact (clear_test_exact writer_and_reader writer_and_reader_reachable).
Defined.

Lemma waiting_thread_admitted_witness :
  reachable handed_over ∧
  inside (pool handed_over) = 0 ∧ 0 < waiting (pool handed_over) ∧
  ∃ c', step handed_over c' ∧
        inside (pool c') = 1 ∧
        waiting (pool c') = waiting (pool handed_over) - 1.
Proof.
  split; [exact handed_over_reachable|].
  split; [reflexivity|]. split; [reflexivity|].
  exact (waiting_thread_admitted handed_over handed_over_reachable
           eq_refl eq_refl).
Defined.

Lemma exit_wakes_waiter_witness :
  reachable writer_and_reader ∧
  (0 < tally Writing (pool writer_and_reader) →
   let s' := (writer_exit (sync_of writer_and_reader)).1 in
   let signal := (writer_exit (sync_of writer_and_reader)).2 in
   (0 < rwait s' →
      signal = Some Readers ∧ reader_must_wait (reader_unpark s') = false) ∧
   (rwait s' = 0 → 0 < wwait s' →
      signal = Some Writers ∧ writer_must_wait (writer_unpark s') = false) ∧
   (rwait s' = 0 → wwait s' = 0 → cwait s' = true →
      signal = Some Clear ∧ busy (clear_unpark s') = false)) ∧
  (0 < tally Reading (pool writer_and_reader) →
   let s' := (reader_exit (sync_of writer_and_reader)).1 in
   let signal := (reader_exit (sync_of writer_and_reader)).2 in
   (rcount s' = 0 → 0 < wwait s' →
      signal = Some Writers ∧ writer_must_wait (writer_unpark s') = false) ∧
   (busy s' = false → cwait s' = true → signal = Some Clear)).
Proof.
  split; [exact writer_and_reader_reachable|].
  exact (exit_wakes_waiter writer_and_reader writer_and_reader_reachable).
Defined.

Lemma admission_takes_turns_witness :
  step baton_out baton_taken ∧
  (tally Reading (pool baton_taken) = tally Reading (pool baton_out) + 1 →
   0 < wwait (sync_of baton_out) →
   0 < change (sync_of baton_out) ∧
   change (sync_of baton_taken) = change (sync_of baton_out) - 1 ∧
   wwait (sync_of baton_taken) = wwait (sync_of baton_out)) ∧
  (tally Writing (pool baton_taken) = tally Writing (pool baton_out) + 1 →
   rcount (sync_of baton_out) ≤ 0 ∧ wcount (sync_of baton_out) ≤ 0 ∧
   change (sync_of baton_out) ≤ 0 ∧ change (sync_of baton_taken) = 0).
Proof.
  split; [exact baton_out_step|].
  exact (admission_takes_turns baton_out baton_taken baton_out_step).
Defined.

Lemma names_ok_h_ab : names_ok limit h_ab.
Proof. compute_done. Qed.

Lemma list_reads_folder_witness :
  wf h_ab 0 ∧ names_ok limit h_ab ∧ is_path_valid limit "/a/" = true ∧
  ∃ t',
    match resolve h_ab 0 (components "/a/") with
    | Some a =>
        ∃ res,
          tree_list limit 0 "/a/" (mkState h_ab [])
          = Ret (Some res) (mkState h_ab t') ∧
          ∀ c, c ∈ entries res ↔ ∃ b, edge h_ab a c b
    | None =>
        tree_list limit 0 "/a/" (mkState h_ab []) = Ret None (mkState h_ab t')
    end.
Proof.
  split; [exact wf_h_ab|]. split; [exact names_ok_h_ab|].
  split; [reflexivity|].
  exact (list_reads_folder limit h_ab 0 "/a/" [] wf_h_ab names_ok_h_ab
           eq_refl).
Defined.

Lemma create_refused_witness :
  wf h_ab 0 ∧
  is_path_valid limit "/a/b/" = true ∧ is_root "/a/b/" = false ∧
  make_path_to_parent "/a/b/" = Some ("/a/", "b") ∧
  (resolve h_ab 0 (components "/a/") = None →
     ∃ t', tree_create limit 0 "/a/b/" (mkState h_ab [])
           = Ret ENOENT (mkState h_ab t')) ∧
  (is_Some (resolve h_ab 0 (components "/a/b/")) →
     ∃ t', tree_create limit 0 "/a/b/" (mkState h_ab [])
           = Ret EEXIST (mkState h_ab t')).
Proof.
  assert (Hparent : make_path_to_parent "/a/b/" = Some ("/a/", "b"))
    by (vm_compute; reflexivity).
  split; [exact wf_h_ab|]. split; [reflexivity|]. split; [reflexivity|].
  split; [exact Hparent|].
  exact (create_refused limit h_ab 0 "/a/b/" "/a/" "b" [] wf_h_ab
           eq_refl eq_refl Hparent).
Defined.

Lemma create_adds_empty_folder_witness :
  wf h_ab 0 ∧
  is_path_valid limit "/a/c/" = true ∧ is_root "/a/c/" = false ∧
  make_path_to_parent "/a/c/" = Some ("/a/", "c") ∧
  resolve h_ab 0 (components "/a/") = Some 1%nat ∧
  h_ab !! 1%nat = Some (mkTree {[ "b" := 2%nat ]} sync_new) ∧
  resolve h_ab 0 (components "/a/c/") = None ∧
  ∃ son h' t',
    tree_create limit 0 "/a/c/" (mkState h_ab []) = Ret 0 (mkState h' t') ∧
    h_ab !! son = None ∧
    h' !! son = Some (mkTree ∅ sync_new) ∧
    h' !! 1%nat
    = Some (mkTree (<["c" := son]> (map (mkTree {[ "b" := 2%nat ]} sync_new)))
              (sync (mkTree {[ "b" := 2%nat ]} sync_new))) ∧
    (∀ x, x ≠ son → x ≠ 1%nat → h' !! x = h_ab !! x) ∧
    resolve h' 0 (components "/a/c/") = Some son.
Proof.
  assert (Hparent : make_path_to_parent "/a/c/" = Some ("/a/", "c"))
    by (vm_compute; reflexivity).
  assert (Hres : resolve h_ab 0 (components "/a/") = Some 1%nat)
    by (vm_compute; reflexivity).
  assert (Hnode : h_ab !! 1%nat = Some (mkTree {[ "b" := 2%nat ]} sync_new))
    by (vm_compute; reflexivity).
  assert (Hnone : resolve h_ab 0 (components "/a/c/") = None)
    by (vm_compute; reflexivity).
  split; [exact wf_h_ab|]. split; [reflexivity|]. split; [reflexivity|].
  split; [exact Hparent|]. split; [exact Hres|]. split; [exact Hnode|].
  split; [exact Hnone|].
  exact (create_adds_empty_folder limit h_ab 0 "/a/c/" "/a/" "c" 1%nat _ []
           wf_h_ab eq_refl eq_refl Hparent Hres Hnode Hnone).
Defined.

Lemma remove_missing_witness :
  wf h_ab 0 ∧
  is_path_valid limit "/a/c/" = true ∧ is_root "/a/c/" = false ∧
  resolve h_ab 0 (components "/a/c/") = None ∧
  ∃ t', tree_remove limit 0 "/a/c/" (mkState h_ab [])
        = Ret ENOENT (mkState h_ab t').
Proof.
  assert (Hnone : resolve h_ab 0 (components "/a/c/") = None)
    by (vm_compute; reflexivity).
  split; [exact wf_h_ab|]. split; [reflexivity|]. split; [reflexivity|].
  split; [exact Hnone|].
  exact (remove_missing limit h_ab 0 "/a/c/" [] wf_h_ab eq_refl eq_refl
           Hnone).
Defined.

Lemma remove_frees_empty_folder_witness :
  wf h_ab 0 ∧
  is_path_valid limit "/a/b/" = true ∧ is_root "/a/b/" = false ∧
  make_path_to_parent "/a/b/" = Some ("/a/", "b") ∧
  resolve h_ab 0 (components "/a/b/") = Some 2%nat ∧
  h_ab !! 2%nat = Some leaf ∧ map leaf = ∅ ∧
  ∃ b nb h' t',
    resolve h_ab 0 (components "/a/") = Some b ∧ h_ab !! b = Some nb ∧
    tree_remove limit 0 "/a/b/" (mkState h_ab []) = Ret 0 (mkState h' t') ∧
    h' !! 2%nat = None ∧
    h' !! b = Some (mkTree (delete "b" (map nb)) (sync nb)) ∧
    (∀ x, x ≠ 2%nat → x ≠ b → h' !! x = h_ab !! x) ∧
    size h' = Nat.pred (size h_ab) ∧
    resolve h' 0 (components "/a/b/") = None.
Proof.
  assert (Hparent : make_path_to_parent "/a/b/" = Some ("/a/", "b"))
    by (vm_compute; reflexivity).
  assert (Hres : resolve h_ab 0 (components "/a/b/") = Some 2%nat)
    by (vm_compute; reflexivity).
  assert (Hnode : h_ab !! 2%nat = Some leaf) by (vm_compute; reflexivity).
  split; [exact wf_h_ab|]. split; [reflexivity|]. split; [reflexivity|].
  split; [exact Hparent|]. split; [exact Hres|]. split; [exact Hnode|].
  split; [reflexivity|].
  exact (remove_frees_empty_folder limit h_ab 0 "/a/b/" "/a/" "b" 2%nat leaf
           [] wf_h_ab eq_refl eq_refl Hparent Hres Hnode eq_refl).
Defined.

Lemma move_minus_one_only_into_descendant_witness :
  wf h_ab 0 ∧
  tree_move limit 0 "/a/" "/a/b/c/" (mkState h_ab [])
  = Ret (-1) (mkState h_ab []) ∧
  components "/a/" `prefix_of` components "/a/b/c/" ∧
  components "/a/" ≠ components "/a/b/c/" ∧
  mkState h_ab [] = mkState h_ab [].
Proof.
  assert (Hrun : tree_move limit 0 "/a/" "/a/b/c/" (mkState h_ab [])
                 = Ret (-1) (mkState h_ab [])) by reflexivity.
  split; [exact wf_h_ab|]. split; [exact Hrun|].
  exact (move_minus_one_only_into_descendant limit h_ab 0 "/a/" "/a/b/c/"
           [] (mkState h_ab []) wf_h_ab Hrun).
Defined.

Lemma not_under_b :
  components "/a/b/" `prefix_of` components "/a/" →
  components "/a/b/" = components "/a/".
Proof. intros [k Hk]. vm_compute in Hk. discriminate Hk. Qed.

Lemma move_refused_witness :
  wf h_ab 0 ∧
  is_path_valid limit "/a/b/" = true ∧ is_path_valid limit "/a/" = true ∧
  is_root "/a/b/" = false ∧ is_root "/a/" = false ∧
  (components "/a/b/" `prefix_of` components "/a/" →
   components "/a/b/" = components "/a/") ∧
  make_path_to_parent "/a/" = Some ("/", "a") ∧
  (resolve h_ab 0 (components "/") = None →
     ∃ t', tree_move limit 0 "/a/b/" "/a/" (mkState h_ab [])
           = Ret ENOENT (mkState h_ab t')) ∧
  (is_Some (resolve h_ab 0 (components "/a/")) →
     ∃ t', tree_move limit 0 "/a/b/" "/a/" (mkState h_ab [])
           = Ret EEXIST (mkState h_ab t')) ∧
  (is_Some (resolve h_ab 0 (components "/")) →
   resolve h_ab 0 (components "/a/") = None →
   resolve h_ab 0 (components "/a/b/") = None →
     ∃ t', tree_move limit 0 "/a/b/" "/a/" (mkState h_ab [])
           = Ret ENOENT (mkState h_ab t')).
Proof.
  assert (Hparent : make_path_to_parent "/a/" = Some ("/", "a"))
    by (vm_compute; reflexivity).
  split; [exact wf_h_ab|]. split; [reflexivity|]. split; [reflexivity|].
  split; [reflexivity|]. split; [reflexivity|]. split; [exact not_under_b|].
  split; [exact Hparent|].
  exact (move_refused limit h_ab 0 "/a/b/" "/a/" "/" "a" [] wf_h_ab
           eq_refl eq_refl eq_refl eq_refl not_under_b Hparent).
Defined.

Lemma move_roundtrip_witness :
  wf h_xy 0 ∧
  tree_move limit 0 "/x/" "/y/x/" (mkState h_xy []) = Ret 0 st_moved ∧
  ∃ t2, tree_move limit 0 "/y/x/" "/x/" st_moved = Ret 0 (mkState h_xy t2).
Proof.
  assert (Hrun : tree_move limit 0 "/x/" "/y/x/" (mkState h_xy [])
                 = Ret 0 st_moved) by (vm_compute; reflexivity).
  split; [exact wf_h_xy|]. split; [exact Hrun|].
  exact (move_roundtrip limit h_xy 0 "/x/" "/y/x/" [] st_moved wf_h_xy Hrun).
Defined.

Lemma created_folder_is_empty_witness :
  wf h_ab 0 ∧
  tree_create limit 0 "/a/c/" (mkState h_ab []) = Ret 0 st_created ∧
  (∃ t2, tree_list limit 0 "/a/c/" st_created
         = Ret (Some EmptyString) (mkState (heap st_created) t2)) ∧
  (∃ t2, tree_create limit 0 "/a/c/" st_created
         = Ret EEXIST (mkState (heap st_created) t2)).
Proof.
  assert (Hrun : tree_create limit 0 "/a/c/" (mkState h_ab [])
                 = Ret 0 st_created) by (vm_compute; reflexivity).
  split; [exact wf_h_ab|]. split; [exact Hrun|].
  exact (created_folder_is_empty limit h_ab 0 "/a/c/" [] st_created
           wf_h_ab Hrun).
Defined.

Lemma removed_folder_is_gone_witness :
  wf h_ab 0 ∧
  tree_remove limit 0 "/a/b/" (mkState h_ab []) = Ret 0 st_removed ∧
  (∃ t2, tree_list limit 0 "/a/b/" st_removed
         = Ret None (mkState (heap st_removed) t2)) ∧
  (∃ t2, tree_remove limit 0 "/a/b/" st_removed
         = Ret ENOENT (mkState (heap st_removed) t2)).
Proof.
  assert (Hrun : tree_remove limit 0 "/a/b/" (mkState h_ab [])
                 = Ret 0 st_removed) by (vm_compute; reflexivity).
  split; [exact wf_h_ab|]. split; [exact Hrun|].
  exact (removed_folder_is_gone limit h_ab 0 "/a/b/" [] st_removed
           wf_h_ab Hrun).
Defined.

Lemma find_node_holds_target_witness :
  wf h_ab 0 ∧ is_path_valid limit "/a/b/" = true ∧
  ∃ evs,
    match resolve h_ab 0 (components "/a/b/") with
    | Some b =>
        ∃ h',
          find_node 0 "/a/b/" (size_sub (count_slashes "/a/b/") 1)
            (mkState h_ab [])
          = Ret (0, Some b) (mkState h' ([] ++ evs)) ∧
          (∃ nb, h_ab !! b = Some nb ∧
                 h' !! b = Some (mkTree (map nb) wlocked)) ∧
          ∀ x, x ≠ b → h' !! x = h_ab !! x
    | None =>
        find_node 0 "/a/b/" (size_sub (count_slashes "/a/b/") 1)
          (mkState h_ab [])
        = Ret (ENOENT, None) (mkState h_ab ([] ++ evs))
    end.
Proof.
  split; [exact wf_h_ab|]. split; [reflexivity|].
  exact (find_node_holds_target limit h_ab 0 "/a/b/" [] wf_h_ab eq_refl).
Defined.

Lemma find_node_lock_coupling_witness :
  wf h_ab 0 ∧ is_path_valid limit "/a/b/" = true ∧
  ∃ r h' evs,
    find_node 0 "/a/b/" (size_sub (count_slashes "/a/b/") 1)
      (mkState h_ab [])
    = Ret r (mkState h' ([] ++ evs)) ∧
    replay ∅ evs
    = Some (match resolve h_ab 0 (components "/a/b/") with
            | Some b => {[b := AsWriter]}
            | None => ∅
            end) ∧
    coupled ∅ evs.
Proof.
  split; [exact wf_h_ab|]. split; [reflexivity|].
  exact (find_node_lock_coupling limit h_ab 0 "/a/b/" [] wf_h_ab eq_refl).
Defined.

Lemma tree_list_lock_coupling_witness :
  wf h_ab 0 ∧ is_path_valid limit "/a/b/" = true ∧
  ∃ res evs,
    tree_list limit 0 "/a/b/" (mkState h_ab [])
    = Ret res (mkState h_ab ([] ++ evs)) ∧
    replay ∅ evs = Some ∅ ∧ coupled ∅ evs ∧
    Forall (λ e, ∃ a, e = EvReaderEntry a ∨ e = EvReaderExit a) evs.
Proof.
  split; [exact wf_h_ab|]. split; [reflexivity|].
  exact (tree_list_lock_coupling limit h_ab 0 "/a/b/" [] wf_h_ab eq_refl).
Defined.

Lemma shaped_h_busy : shaped h_busy 0.
Proof. compute_done. Qed.

Lemma shaped_h_ab : shaped h_ab 0.
Proof. compute_done. Qed.

Lemma size_h_busy : (size h_busy ≤ 3)%nat.
Proof. vm_compute. lia. Qed.

Lemma bfs_clear_waits_for_subtree_witness :
  shaped h_busy 0 ∧ resolve h_busy 0 ["a"] = Some 1%nat ∧
  (size h_busy ≤ 3)%nat ∧
  (idle_below h_busy 1 →
     bfs_clear 3 1 (mkState h_busy []) = Ret () (mkState h_busy [])) ∧
  (∀ x n, below h_busy 1 x → h_busy !! x = Some n → busy (sync n) = true →
     bfs_clear 3 1 (mkState h_busy []) = Fail Blocked).
Proof.
  assert (Hres : resolve h_busy 0 ["a"] = Some 1%nat)
    by (vm_compute; reflexivity).
  split; [exact shaped_h_busy|]. split; [exact Hres|].
  split; [exact size_h_busy|].
  exact (bfs_clear_waits_for_subtree h_busy 0 ["a"] 1%nat 3 []
           shaped_h_busy Hres size_h_busy).
Defined.

Lemma size_h_ab : (size h_ab ≤ 3)%nat.
Proof. vm_compute. lia. Qed.

Lemma tree_free_frees_subtree_witness :
  shaped h_ab 0 ∧ resolve h_ab 0 ["a"] = Some 1%nat ∧ (size h_ab ≤ 3)%nat ∧
  ∃ h', tree_free 3 1 (mkState h_ab []) = Ret () (mkState h' []) ∧
        (∀ x, below h_ab 1 x → h' !! x = None) ∧
        (∀ x, ¬ below h_ab 1 x → h' !! x = h_ab !! x).
Proof.
  assert (Hres : resolve h_ab 0 ["a"] = Some 1%nat)
    by (vm_compute; reflexivity).
  split; [exact shaped_h_ab|]. split; [exact Hres|].
  split; [exact size_h_ab|].
  exact (tree_free_frees_subtree h_ab 0 ["a"] 1%nat 3 []
           shaped_h_ab Hres size_h_ab).
Defined.

Lemma st_run_sequential : sequential limit 0 st_run.
Proof.
  apply (seq_create limit 0 st_a "/a/b/" 0); [|vm_compute; reflexivity].
  apply (seq_create limit 0 st_new "/a/" 0); [|vm_compute; reflexivity].
  apply seq_new. vm_compute. reflexivity.
Qed.

Lemma sequential_calls_return_witness :
  sequential limit 0 st_run ∧
  (∀ p, ∃ res t',
     tree_list limit 0 p st_run = Ret res (mkState (heap st_run) t')) ∧
  (∀ p, ∃ err st', tree_create limit 0 p st_run = Ret err st') ∧
  (∀ p, ∃ err st', tree_remove limit 0 p st_run = Ret err st') ∧
  (∀ s d, ∃ err st', tree_move limit 0 s d st_run = Ret err st').
Proof.
  split; [exact st_run_sequential|].
  exact (sequential_calls_return limit 0 st_run st_run_sequential).
Defined.

Lemma sequential_stores_are_trees_witness :
  sequential limit 0 st_run ∧
  is_Some (heap st_run !! 0%nat) ∧ quiescent (heap st_run) ∧
  closed (heap st_run) ∧ tree_shaped (heap st_run) 0 ∧
  names_ok limit (heap st_run) ∧ rooted (heap st_run) 0.
Proof.
  split; [exact st_run_sequential|].
  exact (sequential_stores_are_trees limit 0 st_run st_run_sequential).
Defined.

Lemma size_st_run : (size (heap st_run) ≤ 3)%nat.
Proof. vm_compute. lia. Qed.

Lemma sequential_then_free_witness :
  sequential limit 0 st_run ∧ (size (heap st_run) ≤ 3)%nat ∧
  tree_free 3 0 st_run = Ret () (mkState ∅ (trace st_run)).
Proof.
  split; [exact st_run_sequential|]. split; [exact size_st_run|].
  exact (sequential_then_free limit 0 st_run 3 st_run_sequential
           size_st_run).
Defined.

Lemma h_busy_way_at_rest cs1 x n :
  cs1 `prefix_of` components "/a/" →
  resolve h_busy 0 cs1 = Some x → h_busy !! x = Some n → sync n = sync_new.
Proof.
  intros [k Hk]. vm_compute in Hk.
  destruct cs1 as [|c1 [|c2 cs1]]; simpl in Hk.
  - intros [= <-]. vm_compute. by intros [= <-].
  - injection Hk as <- _. vm_compute. intros [= <-]. by intros [= <-].
  - destruct k; discriminate Hk.
Qed.

Lemma remove_waits_while_in_use_witness :
  shaped h_busy 0 ∧
  is_path_valid limit "/a/b/" = true ∧ is_root "/a/b/" = false ∧
  make_path_to_parent "/a/b/" = Some ("/a/", "b") ∧
  (∀ cs1 x n, cs1 `prefix_of` components "/a/" →
     resolve h_busy 0 cs1 = Some x → h_busy !! x = Some n →
     sync n = sync_new) ∧
  resolve h_busy 0 (components "/a/b/") = Some 2%nat ∧
  h_busy !! 2%nat = Some (mkTree ∅ rlocked) ∧
  busy (sync (mkTree ∅ rlocked)) = true ∧
  tree_remove limit 0 "/a/b/" (mkState h_busy []) = Fail Blocked.
Proof.
  assert (Hparent : make_path_to_parent "/a/b/" = Some ("/a/", "b"))
    by (vm_compute; reflexivity).
  assert (Hres : resolve h_busy 0 (components "/a/b/") = Some 2%nat)
    by (vm_compute; reflexivity).
  assert (Hnode : h_busy !! 2%nat = Some (mkTree ∅ rlocked))
    by (vm_compute; reflexivity).
  split; [exact shaped_h_busy|]. split; [reflexivity|]. split; [reflexivity|].
  split; [exact Hparent|]. split; [exact h_busy_way_at_rest|].
  split; [exact Hres|]. split; [exact Hnode|]. split; [reflexivity|].
  exact (remove_waits_while_in_use limit h_busy 0 "/a/b/" "/a/" "b" 2%nat _
           [] shaped_h_busy eq_refl eq_refl Hparent h_busy_way_at_rest
           Hres Hnode eq_refl).
Defined.

Lemma not_under_ab :
  components "/a/b/" `prefix_of` components "/c/" →
  components "/a/b/" = components "/c/".
Proof. intros [k Hk]. vm_compute in Hk. discriminate Hk. Qed.

Lemma h_busy_rest_at_rest y n :
  h_busy !! y = Some n → ¬ below h_busy 2 y → sync n = sync_new.
Proof.
  unfold h_busy. intros Hy Hout.
  apply lookup_insert_Some in Hy as [[<- <-]|[_ Hy]]; [done|].
  apply lookup_insert_Some in Hy as [[<- <-]|[_ Hy]]; [done|].
  apply lookup_singleton_Some in Hy as [<- <-].
  destruct Hout. by exists [].
Qed.

Lemma move_waits_while_in_use_witness :
  shaped h_busy 0 ∧
  is_path_valid limit "/a/b/" = true ∧ is_path_valid limit "/c/" = true ∧
  is_root "/a/b/" = false ∧ is_root "/c/" = false ∧
  (components "/a/b/" `prefix_of` components "/c/" →
   components "/a/b/" = components "/c/") ∧
  make_path_to_parent "/c/" = Some ("/", "c") ∧
  is_Some (resolve h_busy 0 (components "/")) ∧
  resolve h_busy 0 (components "/c/") = None ∧
  resolve h_busy 0 (components "/a/b/") = Some 2%nat ∧
  (∀ y n, h_busy !! y = Some n → ¬ below h_busy 2 y → sync n = sync_new) ∧
  below h_busy 2 2 ∧
  h_busy !! 2%nat = Some (mkTree ∅ rlocked) ∧
  busy (sync (mkTree ∅ rlocked)) = true ∧
  tree_move limit 0 "/a/b/" "/c/" (mkState h_busy []) = Fail Blocked.
Proof.
  assert (Hparent : make_path_to_parent "/c/" = Some ("/", "c"))
    by (vm_compute; reflexivity).
  assert (Hroot : is_Some (resolve h_busy 0 (components "/")))
    by (by exists 0%nat).
  assert (Hnone : resolve h_busy 0 (components "/c/") = None)
    by (vm_compute; reflexivity).
  assert (Hres : resolve h_busy 0 (components "/a/b/") = Some 2%nat)
    by (vm_compute; reflexivity).
  assert (Hbelow : below h_busy 2 2) by (by exists []).
  assert (Hnode : h_busy !! 2%nat = Some (mkTree ∅ rlocked))
    by (vm_compute; reflexivity).
  split; [exact shaped_h_busy|]. split; [reflexivity|]. split; [reflexivity|].
  split; [reflexivity|]. split; [reflexivity|]. split; [exact not_under_ab|].
  split; [exact Hparent|]. split; [exact Hroot|]. split; [exact Hnone|].
  split; [exact Hres|]. split; [exact h_busy_rest_at_rest|].
  split; [exact Hbelow|]. split; [exact Hnode|]. split; [reflexivity|].
  exact (move_waits_while_in_use limit h_busy 0 "/a/b/" "/c/" "/" "c"
           2%nat 2%nat _ [] shaped_h_busy eq_refl eq_refl eq_refl eq_refl
           not_under_ab Hparent Hroot Hnone Hres h_busy_rest_at_rest
           Hbelow Hnode eq_refl).
Defined.

Lemma shaped_h_writing : shaped h_writing 0.
Proof. compute_done. Qed.

Lemma h_writing_above_a cs1 y n :
  cs1 `prefix_of` ["a"] → cs1 ≠ ["a"] →
  resolve h_writing 0 cs1 = Some y → h_writing !! y = Some n →
  sync n = sync_new.
Proof.
  intros [k Hk] Hne.
  destruct cs1 as [|c1 [|c2 cs1]]; simpl in Hk.
  - intros [= <-]. vm_compute. by intros [= <-].
  - injection Hk as <- _. done.
  - destruct k; discriminate Hk.
Qed.

Lemma list_waits_behind_writer_witness :
  shaped h_writing 0 ∧ is_path_valid limit "/a/b/" = true ∧
  ["a"] `prefix_of` components "/a/b/" ∧
  (∀ cs1 y n, cs1 `prefix_of` ["a"] → cs1 ≠ ["a"] →
     resolve h_writing 0 cs1 = Some y → h_writing !! y = Some n →
     sync n = sync_new) ∧
  resolve h_writing 0 ["a"] = Some 1%nat ∧
  h_writing !! 1%nat = Some (mkTree {[ "b" := 2%nat ]} wlocked) ∧
  reader_must_wait (sync (mkTree {[ "b" := 2%nat ]} wlocked)) = true ∧
  tree_list limit 0 "/a/b/" (mkState h_writing []) = Fail Blocked.
Proof.
  assert (Hpre : ["a"] `prefix_of` components "/a/b/") by (by exists ["b"]).
  assert (Hres : resolve h_writing 0 ["a"] = Some 1%nat)
    by (vm_compute; reflexivity).
  assert (Hnode : h_writing !! 1%nat
                  = Some (mkTree {[ "b" := 2%nat ]} wlocked))
    by (vm_compute; reflexivity).
  split; [exact shaped_h_writing|]. split; [reflexivity|].
  split; [exact Hpre|]. split; [exact h_writing_above_a|].
  split; [exact Hres|]. split; [exact Hnode|]. split; [reflexivity|].
  exact (list_waits_behind_writer limit h_writing 0 "/a/b/" ["a"] 1%nat _ []
           shaped_h_writing eq_refl Hpre h_writing_above_a Hres Hnode
           eq_refl).
Defined.

Lemma h_busy_above_ab cs1 y n :
  cs1 `prefix_of` components "/a/b/" → cs1 ≠ components "/a/b/" →
  resolve h_busy 0 cs1 = Some y → h_busy !! y = Some n → sync n = sync_new.
Proof.
  intros [k Hk] Hne. vm_compute in Hk.
  destruct cs1 as [|c1 [|c2 [|c3 cs1]]]; simpl in Hk.
  - intros [= <-]. vm_compute. by intros [= <-].
  - injection Hk as <- _. vm_compute. intros [= <-]. by intros [= <-].
  - injection Hk as <- <- _. by destruct Hne.
  - destruct k; discriminate Hk.
Qed.

Lemma create_waits_while_parent_in_use_witness :
  shaped h_busy 0 ∧
  is_path_valid limit "/a/b/c/" = true ∧ is_root "/a/b/c/" = false ∧
  make_path_to_parent "/a/b/c/" = Some ("/a/b/", "c") ∧
  (∀ cs1 y n, cs1 `prefix_of` components "/a/b/" →
     cs1 ≠ components "/a/b/" →
     resolve h_busy 0 cs1 = Some y → h_busy !! y = Some n →
     sync n = sync_new) ∧
  resolve h_busy 0 (components "/a/b/") = Some 2%nat ∧
  h_busy !! 2%nat = Some (mkTree ∅ rlocked) ∧
  writer_must_wait (sync (mkTree ∅ rlocked)) = true ∧
  tree_create limit 0 "/a/b/c/" (mkState h_busy []) = Fail Blocked.
Proof.
  assert (Hparent : make_path_to_parent "/a/b/c/" = Some ("/a/b/", "c"))
    by (vm_compute; reflexivity).
  assert (Hres : resolve h_busy 0 (components "/a/b/") = Some 2%nat)
    by (vm_compute; reflexivity).
  assert (Hnode : h_busy !! 2%nat = Some (mkTree ∅ rlocked))
    by (vm_compute; reflexivity).
  split; [exact shaped_h_busy|]. split; [reflexivity|]. split; [reflexivity|].
  split; [exact Hparent|]. split; [exact h_busy_above_ab|].
  split; [exact Hres|]. split; [exact Hnode|]. split; [reflexivity|].
  exact (create_waits_while_parent_in_use limit h_busy 0 "/a/b/c/" "/a/b/"
           "c" 2%nat _ [] shaped_h_busy eq_refl eq_refl Hparent
           h_busy_above_ab Hres Hnode eq_refl).
Defined.

End MoreInstances.
